(** * tiq-db: the tag association engine over a relational store

    A shallow embedding of [TiqDB.prototype.associate], [describe],
    [search], [createSchema] and [equalArrays], together with the parts of
    lodash and of the SQL store they rely on.

    - Arrays are lists, label ids and counters are integers ([Z]), label
      texts and namespaces are strings.
    - The two tables of [createSchema] are lists of rows, in insertion
      order, with the column names of the schema.  A select returns its
      rows in table order; an insert checks the [UNIQUE] constraints and
      numbers new labels as an autoincrement key does; LIKE is the
      operator of SQLite, the default client.
    - Every statement sent to the store is recorded in a journal, and a
      connectivity oracle decides, per statement, whether the store can be
      reached; promise chains become a small state-and-error monad, and a
      transaction keeps or undoes the writes of its body as a whole.
    - The limits a store puts on the size of one statement are not
      modelled (SQLite refuses a multi-row insert of more than 500 rows):
      here a statement fails only for a lost connection or a violated
      constraint.
    - [new Date()] is an input of the operation that reads the clock.
    - A bare [return] is [None]; a returned promise is [Some] of what it
      settles to.
    - [holdOperation], [enter] and [exit] only track pending promises and
      the connection pool; they are left out. *)

From Stdlib Require Import List ZArith String Ascii Bool Lia Arith.
Import ListNotations.

(** ** lodash 2.4 helpers used by the module *)

Module Lodash.

Section Arrays.
Context {A : Type}.
Variable eqb : A -> A -> bool.

(** [_.contains(collection, target)] *)
Definition contains (collection : list A) (target : A) : bool :=
  existsb (eqb target) collection.

(** [_.uniq(array)]: first occurrences, in order; [seen] is the
    accumulator of values already met. *)
Fixpoint uniq_from (seen array : list A) : list A :=
  match array with
  | [] => []
  | value :: rest =>
      if contains seen value then uniq_from seen rest
      else value :: uniq_from (value :: seen) rest
  end.

Definition uniq (array : list A) : list A := uniq_from [] array.

(** [_.difference(array, values)] *)
Definition difference (array values : list A) : list A :=
  filter (fun value => negb (contains values value)) array.

(** [_.xor(a, b)]: [uniq(difference(a, b).concat(difference(b, a)))] *)
Definition xor (a b : list A) : list A :=
  uniq (difference a b ++ difference b a).

(** [_.intersection.apply(this, arrays)]: the distinct values of the first
    array that every other array holds, in the order of the first. *)
Definition intersection (arrays : list (list A)) : list A :=
  match arrays with
  | [] => []
  | array :: others =>
      filter (fun value => forallb (fun other => contains other value) others)
             (uniq array)
  end.

(** [_.isEqual] on two arrays of primitive values *)
Fixpoint isEqual (a b : list A) : bool :=
  match a, b with
  | [], [] => true
  | x :: a', y :: b' => eqb x y && isEqual a' b'
  | _, _ => false
  end.
End Arrays.

End Lodash.

Import Lodash.

(** ** The schema of [createSchema] *)

Open Scope Z_scope.

(** A row of table [tags]. *)
Record tag : Type := mkTag {
  id : Z;
  text : string;
  namespace : string;
  count : Z;
  created_at : Z;
  updated_at : Z
}.

(** A row of table [tags_associations]. *)
Record assoc : Type := mkAssoc {
  tag_id1 : Z;
  tag_id2 : Z
}.

(** The store: both tables, rows in insertion order, and the counter that
    [t.increments()] keeps for [tags] (SQLite's [sqlite_sequence] entry). *)
Record db : Type := mkDb {
  tags : list tag;
  tags_associations : list assoc;
  sqlite_sequence : Z
}.

Definition empty_db : db := mkDb [] [] 0.

(** [_.values(assoc)] *)
Definition values (a : assoc) : list Z := [tag_id1 a; tag_id2 a].

(** [TiqDB.prototype.equalArrays]: equal, or equal once the second is
    reversed. *)
Definition equalArrays (arr1 arr2 : list Z) : bool :=
  isEqual Z.eqb arr1 arr2 || isEqual Z.eqb arr1 (rev arr2).

(** [ns = ns || 'public'] (a missing and an empty namespace are both falsy) *)
Definition or_public (ns : string) : string :=
  match ns with
  | EmptyString => "public"%string
  | _ => ns
  end.

(** ** Statements of the store *)

(** The result of [select('id', 'text')]: one [(id, text)] per row. *)
Definition id_text : Type := (Z * string)%type.

Definition pluck_id (rows : list id_text) : list Z := map fst rows.
Definition pluck_text (rows : list id_text) : list string := map snd rows.

(** [knex('tags').select('id','text').whereIn('text', texts)
      .andWhere('namespace', ns)] *)
Definition select_tags (texts : list string) (ns : string) (d : db)
  : list id_text :=
  map (fun r => (id r, text r))
      (filter (fun r => contains String.eqb texts (text r)
                        && String.eqb (namespace r) ns) (tags d)).

(** Largest id of a table (0 for an empty one). *)
Definition max_id (rows : list tag) : Z :=
  fold_right Z.max 0 (map id rows).

(** The id an autoincrement primary key gives to the next row: one more
    than the largest id ever used. *)
Definition next_id (d : db) : Z :=
  Z.max (sqlite_sequence d) (max_id (tags d)) + 1.

(** The objects built for [insert]: text, namespace and the instant used
    for both timestamps. *)
Record tagObj : Type := mkTagObj {
  obj_text : string;
  obj_namespace : string;
  obj_now : Z
}.

(** The row an object becomes once it has its id; [count] takes the
    default of the column. *)
Definition row_of (i : Z) (o : tagObj) : tag :=
  mkTag i (obj_text o) (obj_namespace o) 0 (obj_now o) (obj_now o).

Definition has_label (txt ns : string) (rows : list tag) : bool :=
  existsb (fun r => String.eqb (text r) txt && String.eqb (namespace r) ns) rows.

(** Insert of one [tags] row: [UNIQUE(text, namespace)] is checked, [id] is
    assigned and [count] takes its default 0. *)
Definition insert_tag (o : tagObj) (d : db) : option db :=
  if has_label (obj_text o) (obj_namespace o) (tags d) then None
  else
    let i := next_id d in
    Some (mkDb (tags d ++ [row_of i o]) (tags_associations d) i).

(** [knex('tags').insert(tagObjs)]: all rows or none. *)
Fixpoint insert_tags (objs : list tagObj) (d : db) : option db :=
  match objs with
  | [] => Some d
  | o :: rest =>
      match insert_tag o d with
      | Some d' => insert_tags rest d'
      | None => None
      end
  end.

(** [knex('tags_associations').select('tag_id1','tag_id2')
      .whereIn('tag_id1', ids)] *)
Definition select_assocs (ids : list Z) (d : db) : list assoc :=
  filter (fun a => contains Z.eqb ids (tag_id1 a)) (tags_associations d).

Definition assoc_eqb (a b : assoc) : bool :=
  (tag_id1 a =? tag_id1 b) && (tag_id2 a =? tag_id2 b).

(** Insert of one [tags_associations] row: [UNIQUE(tag_id1, tag_id2)]. *)
Definition insert_assoc (a : assoc) (d : db) : option db :=
  if existsb (assoc_eqb a) (tags_associations d) then None
  else Some (mkDb (tags d) (tags_associations d ++ [a]) (sqlite_sequence d)).

(** [knex('tags_associations').insert(rows)]: all rows or none. *)
Fixpoint insert_assocs (rows : list assoc) (d : db) : option db :=
  match rows with
  | [] => Some d
  | a :: rest =>
      match insert_assoc a d with
      | Some d' => insert_assocs rest d'
      | None => None
      end
  end.

(** [knex('tags').whereIn('id', ids)
      .update({updated_at: now, count: knex.raw('count + 1')})] *)
Definition update_counts (ids : list Z) (now : Z) (d : db) : db :=
  mkDb (map (fun r =>
               if contains Z.eqb ids (id r)
               then mkTag (id r) (text r) (namespace r) (count r + 1)
                          (created_at r) now
               else r) (tags d))
       (tags_associations d) (sqlite_sequence d).

(** The per-token query of [describe]:
    [select (case when tag_id1 = id then tag_id2
                  when tag_id2 = id then tag_id1 end) id
     from tags_associations join tags on tag_id1 = id or tag_id2 = id
     where text = tok and namespace = ns] *)
Definition select_neighbours (tok ns : string) (d : db) : list Z :=
  flat_map
    (fun a =>
       flat_map
         (fun r =>
            if ((tag_id1 a =? id r) || (tag_id2 a =? id r))
               && String.eqb (text r) tok && String.eqb (namespace r) ns
            then [if tag_id1 a =? id r then tag_id2 a else tag_id1 a]
            else [])
         (tags d))
    (tags_associations d).

(** [knex('tags').select('text').whereIn('id', ids).pluck('text')] *)
Definition select_texts (ids : list Z) (d : db) : list string :=
  map text (filter (fun r => contains Z.eqb ids (id r)) (tags d)).

(** *** The LIKE operator of the store

    [%] matches any run of characters, [_] exactly one, any other
    character itself; letters of the ASCII range match without regard to
    case. *)

Definition lower (c : ascii) : ascii :=
  let n := nat_of_ascii c in
  if (Nat.leb 65 n && Nat.leb n 90)%bool then ascii_of_nat (n + 32) else c.

Fixpoint like (pattern s : list ascii) : bool :=
  match pattern with
  | [] => match s with [] => true | _ => false end
  | p :: pattern' =>
      if Ascii.eqb p "%" then
        (fix skip (s : list ascii) : bool :=
           like pattern' s
           || match s with
              | [] => false
              | _ :: s' => skip s'
              end) s
      else
        match s with
        | [] => false
        | c :: s' =>
            (Ascii.eqb p "_" || Ascii.eqb (lower p) (lower c)) && like pattern' s'
        end
  end.

(** [knex('tags').select('text').where('text', 'like', pattern)
      .andWhere('namespace', ns).pluck('text')] *)
Definition select_like (pattern ns : string) (d : db) : list string :=
  map text
      (filter (fun r => like (list_ascii_of_string pattern)
                             (list_ascii_of_string (text r))
                        && String.eqb (namespace r) ns) (tags d)).

(** ** Promises over the store *)

Inductive error : Type :=
| ConstraintViolation
| ConnectionLost.

(** What a promise settles to. *)
Inductive promise (A : Type) : Type :=
| Fulfilled (value : A)
| Rejected (reason : error).

Arguments Fulfilled {A} value.
Arguments Rejected {A} reason.

(** The statements the module sends; [Schema] stands for the
    [hasTable]/[createTable] exchange of [createSchema], which touches no
    row. *)
Inductive statement : Type :=
| Schema
| Begin
| Commit
| Rollback
| SelectTags
| InsertTags
| SelectAssociations
| InsertAssociations
| UpdateTags
| SelectNeighbours
| SelectTexts
| SelectLike.

(** The store, the statements sent to it so far, and the memo
    [tiq.schemaCreated] ([None] while it is [undefined]). *)
Record world : Type := mkWorld {
  store : db;
  journal : list statement;
  schemaCreated : option (promise unit)
}.

(** A step of a promise chain: it fulfils with a value or rejects, and
    leaves a world behind. *)
Definition M (A : Type) : Type := world -> (A + error) * world.

Definition ret {A : Type} (a : A) : M A := fun w => (inl a, w).

Definition bind {A B : Type} (m : M A) (k : A -> M B) : M B :=
  fun w =>
    match m w with
    | (inl a, w') => k a w'
    | (inr e, w') => (inr e, w')
    end.

Notation "x <- m ;; k" := (bind m (fun x => k))
  (at level 61, m at next level, right associativity).
Notation "m ;;; k" := (bind m (fun _ => k))
  (at level 61, right associativity).

Definition settle {A : Type} (m : M A) (w : world) : promise A * world :=
  match m w with
  | (inl a, w') => (Fulfilled a, w')
  | (inr e, w') => (Rejected e, w')
  end.

Definition is_empty {A : Type} (l : list A) : bool :=
  match l with
  | [] => true
  | _ => false
  end.

(** [_.forOwn(fetchedTags, ...)]: ids whose text is among [tags] go to
    [tagIds], all others to [tokenIds]. *)
Definition tagIds_of (tags : list string) (fetchedTags : list id_text) : list Z :=
  pluck_id (filter (fun tag => contains String.eqb tags (snd tag)) fetchedTags).

Definition tokenIds_of (tags : list string) (fetchedTags : list id_text) : list Z :=
  pluck_id (filter (fun tag => negb (contains String.eqb tags (snd tag))) fetchedTags).

(** The association maps, one way: every tag id with every token id. *)
Definition associations_of (tagIds tokenIds : list Z) : list assoc :=
  flat_map (fun tid => map (fun t => mkAssoc tid t) tokenIds) tagIds.

(** The filter that keeps only the associations the store does not hold. *)
Definition missingAssocs_of (associations existingAssocs : list assoc)
  : list assoc :=
  filter (fun a =>
            negb (existsb (fun e => equalArrays (values a) (values e))
                          existingAssocs))
         associations.

Section Engine.

(** [unreachable n]: the store cannot be reached when statement number
    [n] (counted from 0 over the journal) is sent. *)
Variable unreachable : nat -> bool.

(** Send one statement; [run] is its effect, [None] a violated
    constraint. *)
Definition send {A : Type} (st : statement) (run : db -> option (A * db))
  : M A :=
  fun w =>
    let sent := journal w ++ [st] in
    if unreachable (List.length (journal w))
    then (inr ConnectionLost, mkWorld (store w) sent (schemaCreated w))
    else
      match run (store w) with
      | Some (a, d) => (inl a, mkWorld d sent (schemaCreated w))
      | None => (inr ConstraintViolation,
                 mkWorld (store w) sent (schemaCreated w))
      end.

Definition read {A : Type} (st : statement) (q : db -> A) : M A :=
  send st (fun d => Some (q d, d)).

Definition write (st : statement) (u : db -> option db) : M unit :=
  send st (fun d => option_map (fun d' => (tt, d')) (u d)).

(** [TiqDB.prototype.createSchema]: memoised in [schemaCreated]. *)
Definition createSchema : M unit :=
  fun w =>
    match schemaCreated w with
    | Some (Fulfilled _) => (inl tt, w)
    | Some (Rejected e) => (inr e, w)
    | None =>
        match read Schema (fun _ => tt) w with
        | (inl _, w') =>
            (inl tt, mkWorld (store w') (journal w') (Some (Fulfilled tt)))
        | (inr e, w') =>
            (inr e, mkWorld (store w') (journal w') (Some (Rejected e)))
        end
    end.

(** [knex.transaction(function(trans) { ... })] with the chain ending in
    [.then(commit, trans.rollback)]: the body's writes are kept when the
    commit goes through and undone otherwise. *)
Definition transaction {A : Type} (body : M A) : M A :=
  fun w =>
    let snapshot := store w in
    match read Begin (fun _ => tt) w with
    | (inr e, w1) => (inr e, w1)
    | (inl _, w1) =>
        match body w1 with
        | (inl a, w2) =>
            match read Commit (fun _ => tt) w2 with
            | (inl _, w3) => (inl a, w3)
            | (inr e, w3) =>
                (inr e, mkWorld snapshot (journal w3) (schemaCreated w3))
            end
        | (inr e, w2) =>
            (inr e, mkWorld snapshot (journal w2 ++ [Rollback])
                            (schemaCreated w2))
        end
    end.

(** [Promise.all(queries)]: every query is sent; the result rejects with
    the first failure. *)
Fixpoint all {A : Type} (queries : list (M A)) : M (list A) :=
  fun w =>
    match queries with
    | [] => (inl [], w)
    | q :: rest =>
        let (r, w') := q w in
        let (rs, w'') := all rest w' in
        (match r, rs with
         | inl a, inl l => inl (a :: l)
         | inr e, _ => inr e
         | inl _, inr e => inr e
         end, w'')
    end.

(** The promise chain inside the transaction of [associate]. *)
Definition associate_chain (tags allTags : list string) (ns : string)
           (now now' : Z) : M unit :=
  existingTags <- read SelectTags (select_tags allTags ns) ;;
  let missingTagsRaw := xor String.eqb allTags (pluck_text existingTags) in
  (if is_empty missingTagsRaw then ret tt
   else write InsertTags
              (insert_tags (map (fun t => mkTagObj t ns now) missingTagsRaw))) ;;;
  missingTags <- (if is_empty missingTagsRaw then ret []
                  else read SelectTags (select_tags missingTagsRaw ns)) ;;
  let fetchedTags := existingTags ++ missingTags in
  existingAssocs <- read SelectAssociations
                         (select_assocs (pluck_id fetchedTags)) ;;
  let tagIds := tagIds_of tags fetchedTags in
  let tokenIds := tokenIds_of tags fetchedTags in
  let associations := associations_of tagIds tokenIds in
  let missingAssocs := missingAssocs_of associations existingAssocs in
  (if is_empty missingAssocs then ret tt
   else write InsertAssociations (insert_assocs missingAssocs)) ;;;
  let tagIds := uniq Z.eqb (map tag_id1 missingAssocs
                            ++ map tag_id2 missingAssocs) in
  if is_empty tagIds then ret tt
  else write UpdateTags (fun d => Some (update_counts tagIds now' d)).

(** [TiqDB.prototype.associate]; [None] is the bare [return], [now] and
    [now'] are the two readings of the clock. *)
Definition associate (tokens tags : list string) (ns : string)
           (now now' : Z) (w : world) : option (promise unit) * world :=
  if is_empty tokens || is_empty tags then (None, w)
  else
    let ns := or_public ns in
    let allTags := uniq String.eqb (tokens ++ tags) in
    let (p, w') :=
      settle (createSchema ;;;
              transaction (associate_chain tags allTags ns now now')) w in
    (Some p, w').

(** [TiqDB.prototype.describe] *)
Definition describe (tokens : list string) (ns : string) (w : world)
  : option (promise (list string)) * world :=
  if is_empty tokens then (None, w)
  else
    let ns := or_public ns in
    let tokens := uniq String.eqb tokens in
    let (p, w') :=
      settle (createSchema ;;;
              allIds <- all (map (fun tok =>
                                    read SelectNeighbours
                                         (select_neighbours tok ns))
                                 tokens) ;;
              let ids := intersection Z.eqb allIds in
              if is_empty ids then ret []
              else read SelectTexts (select_texts ids)) w in
    (Some p, w').

(** [TiqDB.prototype.search] *)
Definition search (text ns : string) (w : world)
  : option (promise (list string)) * world :=
  match text with
  | EmptyString => (None, w)
  | _ =>
      let ns := or_public ns in
      let (p, w') :=
        settle (createSchema ;;;
                read SelectLike
                     (select_like ("%" ++ text ++ "%")%string ns)) w in
      (Some p, w')
  end.

End Engine.

(** A store that is always reachable. *)
Definition online : nat -> bool := fun _ => false.

Definition fresh : world := mkWorld empty_db [] None.

(** ** Observations on a store *)

(** The ids of the rows of [tags] that hold [txt] in namespace [ns]. *)
Definition ids_of_label (txt ns : string) (d : db) : list Z :=
  map id (filter (fun r => String.eqb (text r) txt
                           && String.eqb (namespace r) ns) (tags d)).

(** Row [e] joins [x] and [y], in either stored order. *)
Definition same_edge (x y : Z) (e : assoc) : bool :=
  equalArrays [x; y] (values e).

(** How many rows of [tags_associations] join [x] and [y]. *)
Definition edges_between (x y : Z) (d : db) : nat :=
  List.length (filter (same_edge x y) (tags_associations d)).

(** The counter of label [i]; a label that has no row yet counts 0, the
    default of the column. *)
Definition label_count (i : Z) (d : db) : Z :=
  match find (fun r => id r =? i) (tags d) with
  | Some r => count r
  | None => 0
  end.

(** [updated_at] of label [i], when it has a row. *)
Definition label_updated_at (i : Z) (d : db) : option Z :=
  option_map updated_at (find (fun r => id r =? i) (tags d)).

(** The rows of [tags_associations] that [d'] holds beyond those of [d]. *)
Definition new_edges (d d' : db) : list assoc :=
  skipn (List.length (tags_associations d)) (tags_associations d').

Definition touches (i : Z) (e : assoc) : bool :=
  (tag_id1 e =? i) || (tag_id2 e =? i).

(** The number of new edges label [i] gained between [d] and [d']. *)
Definition gained (i : Z) (d d' : db) : Z :=
  Z.of_nat (List.length (filter (touches i) (new_edges d d'))).

(** The constraints of the schema, and the rule that an edge is stored
    once whatever the order of its ends. *)
Record consistent (d : db) : Prop := mkConsistent {
  primary_key : NoDup (map id (tags d));
  unique_label : forall txt ns,
      (List.length (ids_of_label txt ns d) <= 1)%nat;
  unique_edge : forall x y, (edges_between x y d <= 1)%nat
}.

(** No rejected schema memo is pending. *)
Definition ready (w : world) : Prop :=
  forall e, schemaCreated w <> Some (Rejected e).

(** The rows the transaction of [associate] leaves when every statement
    goes through: the same steps as [associate_chain], on the store alone. *)
Definition associate_effect (tags allTags : list string) (ns : string)
           (now now' : Z) (d : db) : option db :=
  let existingTags := select_tags allTags ns d in
  let missingTagsRaw := xor String.eqb allTags (pluck_text existingTags) in
  match insert_tags (map (fun t => mkTagObj t ns now) missingTagsRaw) d with
  | None => None
  | Some d1 =>
      let fetchedTags := existingTags ++ select_tags missingTagsRaw ns d1 in
      let existingAssocs := select_assocs (pluck_id fetchedTags) d1 in
      let missingAssocs :=
        missingAssocs_of
          (associations_of (tagIds_of tags fetchedTags)
                           (tokenIds_of tags fetchedTags))
          existingAssocs in
      match insert_assocs missingAssocs d1 with
      | None => None
      | Some d2 =>
          Some (update_counts
                  (uniq Z.eqb (map tag_id1 missingAssocs
                               ++ map tag_id2 missingAssocs)) now' d2)
      end
  end.

(** The edges a call has to add, given the store [d1] that holds every
    label of the call: the cross pairs of the two classes of ids that no
    stored row joins yet. *)
Definition missing_edges (tags allTags : list string) (ns : string) (d1 : db)
  : list assoc :=
  let fetchedTags := select_tags allTags ns d1 in
  missingAssocs_of
    (associations_of (tagIds_of tags fetchedTags) (tokenIds_of tags fetchedTags))
    (select_assocs (pluck_id fetchedTags) d1).

(** The ids whose counter a call bumps. *)
Definition bumped (missingAssocs : list assoc) : list Z :=
  uniq Z.eqb (map tag_id1 missingAssocs ++ map tag_id2 missingAssocs).

(** The statements the chain of [associate] sends when each goes through:
    the label insert and re-select only when texts are missing, the edge
    insert and the counter update only when edges are. *)
Definition chain_journal (missingTagsRaw : list string)
           (missingAssocs : list assoc) : list statement :=
  [SelectTags]
  ++ (if is_empty missingTagsRaw then [] else [InsertTags; SelectTags])
  ++ [SelectAssociations]
  ++ (if is_empty missingAssocs then [] else [InsertAssociations; UpdateTags]).

(** What [createSchema] sends: the schema exchange, unless the memo is
    set. *)
Definition schema_journal (w : world) : list statement :=
  match schemaCreated w with
  | None => [Schema]
  | Some _ => []
  end.

(** Row [r] is joined to a row that holds [tok] in namespace [ns], the
    latter at either end of the stored pair. *)
Definition linked (tok ns : string) (d : db) (r : tag) : Prop :=
  exists q e,
    In q (tags d) /\ text q = tok /\ namespace q = ns
    /\ In e (tags_associations d)
    /\ ((tag_id1 e = id q /\ tag_id2 e = id r)
        \/ (tag_id2 e = id q /\ tag_id1 e = id r)).

(** [sub] occurs in [s] as a run of characters, case of letters apart. *)
Fixpoint starts_with (sub s : list ascii) : bool :=
  match sub, s with
  | [], _ => true
  | a :: sub', c :: s' => Ascii.eqb (lower a) (lower c) && starts_with sub' s'
  | _ :: _, [] => false
  end.

Fixpoint occurs_in (sub s : list ascii) : bool :=
  starts_with sub s
  || match s with
     | [] => false
     | _ :: s' => occurs_in sub s'
     end.

Definition occurs (sub s : string) : bool :=
  occurs_in (list_ascii_of_string sub) (list_ascii_of_string s).

(** The store of the test suite after
    [associate(['john'], ['hello', 'yes'])] on empty tables. *)
Definition john_world : world :=
  Eval vm_compute in
    snd (associate online ["john"%string] ["hello"%string; "yes"%string]
                   ""%string 10 11 fresh).

(** A store that is lost when the seventh statement of a call is sent
    (on empty tables, the insert of the edges). *)
Definition lost_at_edges : nat -> bool := fun n => Nat.eqb n 6.

(** A step of a chain that leaves the rows alone, whatever its outcome. *)
Definition keeps_store {A : Type} (m : M A) : Prop :=
  forall w r w', m w = (r, w') -> store w' = store w.

(** The worlds the three operations lead to from empty tables, whatever
    the store's availability along the way. *)
Inductive reachable : world -> Prop :=
| reachable_fresh : reachable fresh
| reachable_associate :
    forall unreachable tokens tgs ns now now' w r w',
      reachable w ->
      associate unreachable tokens tgs ns now now' w = (r, w') ->
      reachable w'
| reachable_describe :
    forall unreachable tokens ns w r w',
      reachable w ->
      describe unreachable tokens ns w = (r, w') ->
      reachable w'
| reachable_search :
    forall unreachable txt ns w r w',
      reachable w ->
      search unreachable txt ns w = (r, w') ->
      reachable w'.

(** The fixtures of the test suite for [describe] and for [search]. *)
Definition describe_fixture : world :=
  mkWorld
    (mkDb [mkTag 1 "peter" "public" 0 0 0; mkTag 2 "what" "public" 0 0 0;
           mkTag 3 "peter" "private" 0 0 0; mkTag 4 "nope" "private" 0 0 0]
          [mkAssoc 1 2; mkAssoc 3 4] 4)
    [] None.

Definition search_fixture : world :=
  mkWorld
    (mkDb [mkTag 1 "http://duckduckgo.com/" "public" 0 0 0;
           mkTag 2 "http://ducksrus.com/" "public" 0 0 0;
           mkTag 3 "introDUCKtion" "public" 0 0 0;
           mkTag 4 "I am a cat" "public" 0 0 0;
           mkTag 5 "The Mighty Ducks" "private" 0 0 0;
           mkTag 6 "I am a cat too... not!" "private" 0 0 0]
          [] 6)
    [] None.

(** [equalArrays] together with its second array after the call:
    [arr2.reverse()] reverses in place, and runs only when the first
    comparison fails. *)
Definition equalArrays_inplace (arr1 arr2 : list Z) : bool * list Z :=
  if isEqual Z.eqb arr1 arr2 then (true, arr2)
  else (isEqual Z.eqb arr1 (rev arr2), rev arr2).

(** The statements that read rows or check the schema. *)
Definition is_read (st : statement) : bool :=
  match st with
  | Schema | SelectTags | SelectAssociations | SelectNeighbours
  | SelectTexts | SelectLike => true
  | _ => false
  end.

(** The statements a transaction body is made of. *)
Definition is_body (st : statement) : bool :=
  match st with
  | SelectTags | InsertTags | SelectAssociations | InsertAssociations
  | UpdateTags => true
  | _ => false
  end.

(** What a call may add to the journal: the schema exchange at most once,
    then nothing, or a [Begin] that was lost, or a transaction closed by
    [Commit] or by [Rollback] with only statements of the body inside. *)
Definition bracketed (sent : list statement) : Prop :=
  exists pre rest,
    sent = pre ++ rest
    /\ (pre = [] \/ pre = [Schema])
    /\ (rest = [] \/ rest = [Begin]
        \/ exists body close,
            rest = Begin :: body ++ [close]
            /\ (close = Commit \/ close = Rollback)
            /\ forallb is_body body = true).

(** Every edge joins two distinct ids, each the id of a label, and the two
    labels are of one namespace. *)
Definition well_linked (d : db) : Prop :=
  forall e, In e (tags_associations d) ->
    tag_id1 e <> tag_id2 e
    /\ exists r1 r2,
        In r1 (tags d) /\ In r2 (tags d)
        /\ id r1 = tag_id1 e /\ id r2 = tag_id2 e
        /\ namespace r1 = namespace r2.

(** What never changes in a label row. *)
Definition identity_of (r : tag) : Z * string * string * Z :=
  (id r, text r, namespace r, created_at r).

(** [l] starts [l']. *)
Definition starts {A : Type} (l l' : list A) : Prop :=
  exists more, l' = l ++ more.

(** A step of a chain that sends only statements of one kind, whatever
    its outcome. *)
Definition sends (P : statement -> bool) {A : Type} (m : M A) : Prop :=
  forall w r w',
    m w = (r, w') ->
    exists sent, journal w' = journal w ++ sent /\ forallb P sent = true.

(** The ids [describe] keeps: those every per-token query returned. *)
Definition described_ids (tokens : list string) (ns : string) (d : db)
  : list Z :=
  intersection Z.eqb
    (map (fun tok => select_neighbours tok (or_public ns) d)
         (uniq String.eqb tokens)).

(** The rows a bulk insert of labels makes of its objects: ids in
    sequence from [i], in the order of the objects. *)
Fixpoint numbered (i : Z) (objs : list tagObj) : list tag :=
  match objs with
  | [] => []
  | o :: rest => row_of i o :: numbered (i + 1) rest
  end.

(** The texts of a call that have no row yet, in the order of the call:
    tokens first, then tags, each once. *)
Definition texts_to_create (tokens tgs : list string) (ns : string) (d : db)
  : list string :=
  filter (fun t => negb (has_label t (or_public ns) (tags d)))
         (uniq String.eqb (tokens ++ tgs)).

(** A query that holds neither wildcard of LIKE. *)
Definition literal (txt : string) : bool :=
  forallb (fun c => negb (Ascii.eqb c "%") && negb (Ascii.eqb c "_"))
          (list_ascii_of_string txt).

(** The filter of missing associations as [index.js] has it: a candidate
    is dropped when [_.isEqual] finds it, as an object, among the fetched
    rows - the same ends in the same order. *)
Definition missingAssocs_index (associations existingAssocs : list assoc)
  : list assoc :=
  filter (fun a => negb (existsb (assoc_eqb a) existingAssocs)) associations.

(** * Properties *)

(** ** lodash *)

Section LodashFacts.
Context {A : Type}.
Variable eqb : A -> A -> bool.
Hypothesis eqb_eq : forall x y, eqb x y = true <-> x = y.

Lemma contains_In (l : list A) (x : A) :
  contains eqb l x = true <-> In x l.
Proof.
  unfold contains. rewrite existsb_exists. split.
  - intros [y [Hy E]]. apply eqb_eq in E. now subst.
  - intros H. exists x. split; [assumption | now apply eqb_eq].
Qed.

Lemma contains_false (l : list A) (x : A) :
  contains eqb l x = false <-> ~ In x l.
Proof.
  rewrite <- contains_In. destruct (contains eqb l x); split; congruence.
Qed.

Lemma uniq_from_In (l seen : list A) (x : A) :
  In x (uniq_from eqb seen l) <-> In x l /\ ~ In x seen.
Proof.
  revert seen. induction l as [|a l IH]; intros seen; simpl.
  - tauto.
  - destruct (contains eqb seen a) eqn:C.
    + apply contains_In in C. rewrite IH. split.
      * tauto.
      * intros [[->|H] N]; [contradiction | tauto].
    + apply contains_false in C. simpl. rewrite IH. simpl. split.
      * intros [->|[H N]]; [tauto|]. split; [tauto|]. intros S. apply N. now right.
      * intros [[->|H] N]; [now left|].
        destruct (eqb a x) eqn:E.
        -- apply eqb_eq in E. now left.
        -- right. split; [assumption|]. intros [->|S]; [|contradiction].
           assert (eqb x x = true) by now apply eqb_eq. congruence.
Qed.

Lemma uniq_from_NoDup (l seen : list A) : NoDup (uniq_from eqb seen l).
Proof.
  revert seen. induction l as [|a l IH]; intros seen; simpl.
  - constructor.
  - destruct (contains eqb seen a) eqn:C; [apply IH|].
    constructor; [|apply IH].
    rewrite uniq_from_In. simpl. tauto.
Qed.

Lemma uniq_In (l : list A) (x : A) : In x (uniq eqb l) <-> In x l.
Proof. unfold uniq. rewrite uniq_from_In. simpl. tauto. Qed.

Lemma uniq_NoDup (l : list A) : NoDup (uniq eqb l).
Proof. apply uniq_from_NoDup. Qed.

Lemma difference_In (a b : list A) (x : A) :
  In x (difference eqb a b) <-> In x a /\ ~ In x b.
Proof.
  unfold difference. rewrite filter_In, negb_true_iff, contains_false.
  tauto.
Qed.

Lemma xor_In (a b : list A) (x : A) :
  In x (xor eqb a b) <-> (In x a /\ ~ In x b) \/ (In x b /\ ~ In x a).
Proof.
  unfold xor. rewrite uniq_In, in_app_iff, !difference_In. tauto.
Qed.

Lemma xor_NoDup (a b : list A) : NoDup (xor eqb a b).
Proof. apply uniq_NoDup. Qed.

Lemma intersection_In (a : list A) (others : list (list A)) (x : A) :
  In x (intersection eqb (a :: others))
  <-> In x a /\ forall other, In other others -> In x other.
Proof.
  simpl. rewrite filter_In, uniq_In, forallb_forall.
  split; intros [H1 H2]; split; trivial; intros o Ho.
  - apply contains_In. now apply H2.
  - apply contains_In. now apply H2.
Qed.
End LodashFacts.

Lemma is_empty_nil {A : Type} (l : list A) : is_empty l = true <-> l = [].
Proof. destruct l; simpl; split; congruence. Qed.

Lemma Zcontains_In (l : list Z) (x : Z) : contains Z.eqb l x = true <-> In x l.
Proof. apply contains_In. intros a b. apply Z.eqb_eq. Qed.

Lemma Zcontains_false (l : list Z) (x : Z) :
  contains Z.eqb l x = false <-> ~ In x l.
Proof. apply contains_false. intros a b. apply Z.eqb_eq. Qed.

Lemma Scontains_In (l : list string) (x : string) :
  contains String.eqb l x = true <-> In x l.
Proof. apply contains_In. intros a b. apply String.eqb_eq. Qed.

Lemma Scontains_false (l : list string) (x : string) :
  contains String.eqb l x = false <-> ~ In x l.
Proof. apply contains_false. intros a b. apply String.eqb_eq. Qed.

(** [equalArrays] on two pairs: the same ends, in the same or the opposite
    order. *)
Lemma equalArrays_pair (a b c e : Z) :
  equalArrays [a; b] [c; e] = true
  <-> (a = c /\ b = e) \/ (a = e /\ b = c).
Proof.
  unfold equalArrays. simpl. rewrite orb_true_iff, !andb_true_iff, !Z.eqb_eq.
  tauto.
Qed.

Lemma same_edge_iff (x y : Z) (e : assoc) :
  same_edge x y e = true
  <-> (x = tag_id1 e /\ y = tag_id2 e) \/ (x = tag_id2 e /\ y = tag_id1 e).
Proof. unfold same_edge, values. apply equalArrays_pair. Qed.

Lemma same_edge_sym (x y : Z) (e : assoc) : same_edge x y e = same_edge y x e.
Proof.
  destruct (same_edge x y e) eqn:E1, (same_edge y x e) eqn:E2; trivial.
  - apply same_edge_iff in E1. assert (same_edge y x e = true) as H
        by (apply same_edge_iff; tauto). congruence.
  - apply same_edge_iff in E2. assert (same_edge x y e = true) as H
        by (apply same_edge_iff; tauto). congruence.
Qed.

(** ** The statements of the store *)

Lemma select_tags_In (texts : list string) (ns : string) (d : db) (it : id_text) :
  In it (select_tags texts ns d)
  <-> exists r, In r (tags d) /\ it = (id r, text r)
                /\ In (text r) texts /\ namespace r = ns.
Proof.
  unfold select_tags. rewrite in_map_iff. split.
  - intros [r [E H]]. apply filter_In in H. destruct H as [H C].
    apply andb_true_iff in C. destruct C as [C1 C2].
    apply Scontains_In in C1. apply String.eqb_eq in C2.
    exists r. auto.
  - intros [r [H [E [C1 C2]]]]. exists r. split; [now symmetry|].
    apply filter_In. split; [assumption|].
    apply andb_true_iff. split; [now apply Scontains_In | now apply String.eqb_eq].
Qed.

Lemma select_tags_nil (ns : string) (d : db) : select_tags [] ns d = [].
Proof.
  unfold select_tags. induction (tags d) as [|r l IH]; simpl; trivial.
Qed.

Lemma select_tags_same_rows (texts : list string) (ns : string) (d d' : db) :
  map (fun r => (id r, text r, namespace r)) (tags d')
  = map (fun r => (id r, text r, namespace r)) (tags d) ->
  select_tags texts ns d' = select_tags texts ns d.
Proof.
  unfold select_tags. generalize (tags d) as l. generalize (tags d') as l'.
  induction l' as [|r' l' IH]; intros [|r l] E; simpl in E; try discriminate; trivial.
  injection E as E1 E2 E3 E4. simpl. rewrite E2, E3.
  destruct (contains String.eqb texts (text r) && (namespace r =? ns)%string);
    simpl; rewrite (IH l E4); congruence.
Qed.

Lemma has_label_ids (txt ns : string) (d : db) :
  has_label txt ns (tags d) = false <-> ids_of_label txt ns d = [].
Proof.
  unfold has_label, ids_of_label. induction (tags d) as [|r l IH]; simpl.
  - tauto.
  - destruct ((text r =? txt)%string && (namespace r =? ns)%string); simpl.
    + split; discriminate.
    + exact IH.
Qed.

Lemma ids_of_label_In (txt ns : string) (d : db) (i : Z) :
  In i (ids_of_label txt ns d)
  <-> exists r, In r (tags d) /\ id r = i /\ text r = txt /\ namespace r = ns.
Proof.
  unfold ids_of_label. rewrite in_map_iff. split.
  - intros [r [E H]]. apply filter_In in H. destruct H as [H C].
    apply andb_true_iff in C. destruct C as [C1 C2].
    apply String.eqb_eq in C1. apply String.eqb_eq in C2. exists r. auto.
  - intros [r [H [E [C1 C2]]]]. exists r. split; [assumption|].
    apply filter_In. split; [assumption|].
    apply andb_true_iff. split; now apply String.eqb_eq.
Qed.

Lemma max_id_ge (rows : list tag) (r : tag) : In r rows -> id r <= max_id rows.
Proof.
  unfold max_id. induction rows as [|a l IH]; simpl; [tauto|].
  intros [->|H]; [lia|]. specialize (IH H). lia.
Qed.

Lemma max_id_app (l l' : list tag) : max_id l <= max_id (l ++ l').
Proof.
  unfold max_id. induction l as [|a l IH]; simpl.
  - induction l' as [|b l' IH']; simpl; lia.
  - lia.
Qed.

Lemma insert_tag_Some (o : tagObj) (d d' : db) :
  insert_tag o d = Some d' ->
  has_label (obj_text o) (obj_namespace o) (tags d) = false
  /\ d' = mkDb (tags d ++ [row_of (next_id d) o]) (tags_associations d) (next_id d).
Proof.
  unfold insert_tag.
  destruct (has_label (obj_text o) (obj_namespace o) (tags d)); [discriminate|].
  intros E. injection E as <-. auto.
Qed.

(** A bulk insert of labels appends one row per object, in order, with
    ids above every id in use, and leaves the edges alone. *)
Lemma insert_tags_Some (objs : list tagObj) (d d' : db) :
  insert_tags objs d = Some d' ->
  tags_associations d' = tags_associations d
  /\ exists rows,
      tags d' = tags d ++ rows
      /\ map (fun r => (text r, namespace r)) rows
         = map (fun o => (obj_text o, obj_namespace o)) objs
      /\ Forall (fun r => count r = 0 /\ max_id (tags d) < id r) rows.
Proof.
  revert d. induction objs as [|o objs IH]; intros d; simpl.
  - intros E. injection E as <-. split; trivial. exists []. rewrite app_nil_r. auto.
  - destruct (insert_tag o d) as [d0|] eqn:E0; [|discriminate].
    intros E. apply insert_tag_Some in E0. destruct E0 as [_ ->].
    apply IH in E. simpl in E. destruct E as [EA [rows [ET [EM EF]]]].
    split; [assumption|]. exists (row_of (next_id d) o :: rows).
    split; [now rewrite ET, <- app_assoc|]. split; [simpl; now rewrite EM|].
    constructor.
    + simpl. unfold next_id. lia.
    + eapply Forall_impl; [|exact EF]. simpl. intros r [C M].
      split; [assumption|]. pose proof (max_id_app (tags d) [row_of (next_id d) o]). lia.
Qed.

Lemma ids_of_label_app (txt ns : string) (d : db) (l : list tag) a s :
  ids_of_label txt ns (mkDb (tags d ++ l) a s)
  = ids_of_label txt ns d ++ ids_of_label txt ns (mkDb l a s).
Proof. unfold ids_of_label. simpl. now rewrite filter_app, map_app. Qed.

Lemma insert_tag_consistent (o : tagObj) (d d' : db) :
  consistent d -> insert_tag o d = Some d' -> consistent d'.
Proof.
  intros [PK UL UE] E. apply insert_tag_Some in E. destruct E as [HL ->].
  constructor.
  - simpl. rewrite map_app. simpl.
    apply (NoDup_Add (a := next_id d) (l := map id (tags d))).
    + rewrite <- (app_nil_r (map id (tags d))) at 1. apply Add_app.
    + split; [assumption|]. intros H. apply in_map_iff in H.
      destruct H as [r [E H]]. apply max_id_ge in H. unfold next_id in E. lia.
  - intros txt ns. rewrite ids_of_label_app, length_app.
    unfold ids_of_label at 2. simpl.
    destruct ((obj_text o =? txt)%string && (obj_namespace o =? ns)%string) eqn:C.
    + apply andb_true_iff in C. destruct C as [C1 C2].
      apply String.eqb_eq in C1. apply String.eqb_eq in C2. subst.
      apply has_label_ids in HL. rewrite HL. simpl. lia.
    + simpl. specialize (UL txt ns). lia.
  - intros x y. specialize (UE x y). exact UE.
Qed.

Lemma insert_tags_consistent (objs : list tagObj) (d d' : db) :
  consistent d -> insert_tags objs d = Some d' -> consistent d'.
Proof.
  revert d. induction objs as [|o objs IH]; intros d C; simpl.
  - intros E. now injection E as <-.
  - destruct (insert_tag o d) as [d0|] eqn:E0; [|discriminate].
    apply IH. eapply insert_tag_consistent; eassumption.
Qed.

Lemma has_label_In (txt ns : string) (rows : list tag) :
  has_label txt ns rows = true
  <-> exists r, In r rows /\ text r = txt /\ namespace r = ns.
Proof.
  unfold has_label. rewrite existsb_exists. split; intros [r [H C]]; exists r.
  - apply andb_true_iff in C. destruct C as [C1 C2].
    apply String.eqb_eq in C1. apply String.eqb_eq in C2. auto.
  - split; [assumption|]. destruct C as [C1 C2].
    apply andb_true_iff. split; now apply String.eqb_eq.
Qed.

(** A bulk insert of labels goes through when the texts are distinct and
    none has a row in the namespace. *)
Lemma insert_tags_goes (texts : list string) (ns : string) (now : Z) (d : db) :
  NoDup texts ->
  (forall t, In t texts -> has_label t ns (tags d) = false) ->
  exists d', insert_tags (map (fun t => mkTagObj t ns now) texts) d = Some d'.
Proof.
  revert d. induction texts as [|t texts IH]; intros d ND HL; simpl.
  - eauto.
  - unfold insert_tag at 1. simpl. rewrite (HL t) by now left.
    inversion ND as [|? ? NI ND']; subst. apply IH; [assumption|].
    intros t' Ht'. simpl. unfold has_label. rewrite existsb_app. simpl.
    fold (has_label t' ns (tags d)). rewrite (HL t') by now right. simpl.
    rewrite orb_false_r. apply andb_false_iff. left.
    apply String.eqb_neq. intros ->. contradiction.
Qed.

Lemma insert_assocs_Some (rows : list assoc) (d d' : db) :
  insert_assocs rows d = Some d' ->
  d' = mkDb (tags d) (tags_associations d ++ rows) (sqlite_sequence d).
Proof.
  revert d. induction rows as [|a rows IH]; intros d; simpl.
  - intros E. injection E as <-. rewrite app_nil_r. now destruct d.
  - unfold insert_assoc at 1.
    destruct (existsb (assoc_eqb a) (tags_associations d)); [discriminate|].
    intros E. apply IH in E. simpl in E. now rewrite <- app_assoc in E.
Qed.

Lemma assoc_eqb_eq (a b : assoc) : assoc_eqb a b = true <-> a = b.
Proof.
  unfold assoc_eqb. rewrite andb_true_iff, !Z.eqb_eq.
  destruct a, b; simpl. split; [intros [-> ->]; trivial | intros E; now inversion E].
Qed.

(** A bulk insert of edges goes through when the rows are distinct and the
    table holds none of them. *)
Lemma insert_assocs_goes (rows : list assoc) (d : db) :
  NoDup rows ->
  (forall a, In a rows -> ~ In a (tags_associations d)) ->
  exists d', insert_assocs rows d = Some d'.
Proof.
  revert d. induction rows as [|a rows IH]; intros d ND NI; simpl.
  - eauto.
  - unfold insert_assoc at 1.
    destruct (existsb (assoc_eqb a) (tags_associations d)) eqn:E.
    + apply existsb_exists in E. destruct E as [b [Hb E]].
      apply assoc_eqb_eq in E. subst b. exfalso. apply (NI a); [now left | assumption].
    + inversion ND as [|? ? NA ND']; subst. apply IH; [assumption|].
      intros b Hb. simpl. rewrite in_app_iff. intros [H|[->|[]]].
      * apply (NI b); [now right | assumption].
      * contradiction.
Qed.

Lemma update_counts_nil (now : Z) (d : db) : update_counts [] now d = d.
Proof.
  unfold update_counts. simpl. rewrite map_id. now destruct d.
Qed.

Lemma update_counts_rows (ids : list Z) (now : Z) (d : db) :
  map (fun r => (id r, text r, namespace r)) (tags (update_counts ids now d))
  = map (fun r => (id r, text r, namespace r)) (tags d).
Proof.
  unfold update_counts. simpl. rewrite map_map. apply map_ext.
  intros r. now destruct (contains Z.eqb ids (id r)).
Qed.

Lemma label_count_update (ids : list Z) (now : Z) (d : db) (i : Z) :
  label_count i (update_counts ids now d)
  = if contains Z.eqb ids i
    then match find (fun r => id r =? i) (tags d) with
         | Some r => count r + 1
         | None => 0
         end
    else label_count i d.
Proof.
  unfold label_count, update_counts. simpl.
  induction (tags d) as [|r l IH]; simpl.
  - now destruct (contains Z.eqb ids i).
  - destruct (contains Z.eqb ids (id r)) eqn:C; simpl;
      destruct (id r =? i) eqn:E; trivial.
    + apply Z.eqb_eq in E. subst i. now rewrite C.
    + apply Z.eqb_eq in E. subst i. now rewrite C.
Qed.

(** ** The effect of [associate] on the rows *)

Lemma filter_nothing {A : Type} (f : A -> bool) (l : list A) :
  (forall x, In x l -> f x = false) -> filter f l = [].
Proof.
  induction l as [|a l IH]; simpl; intros H; trivial.
  rewrite (H a) by now left. apply IH. intros x Hx. apply H. now right.
Qed.

Lemma filter_everything {A : Type} (f : A -> bool) (l : list A) :
  (forall x, In x l -> f x = true) -> filter f l = l.
Proof.
  induction l as [|a l IH]; simpl; intros H; trivial.
  rewrite (H a) by now left. f_equal. apply IH. intros x Hx. apply H. now right.
Qed.

Lemma no_member_nil {A : Type} (l : list A) : (forall x, ~ In x l) -> l = [].
Proof. destruct l as [|a l]; trivial. intros H. destruct (H a). now left. Qed.

(** The texts to create are those of the call that have no row. *)
Lemma missingTagsRaw_In (allTags : list string) (ns : string) (d : db)
      (t : string) :
  In t (xor String.eqb allTags (pluck_text (select_tags allTags ns d)))
  <-> In t allTags /\ has_label t ns (tags d) = false.
Proof.
  rewrite (xor_In String.eqb String.eqb_eq). unfold pluck_text.
  split.
  - intros [[H N]|[H N]].
    + split; [assumption|]. destruct (has_label t ns (tags d)) eqn:E; trivial.
      apply has_label_In in E. destruct E as [r [Hr [E1 E2]]].
      exfalso. apply N. apply in_map_iff. exists (id r, text r).
      split; [assumption|]. apply select_tags_In. exists r. subst. auto.
    + apply in_map_iff in H. destruct H as [it [E H]].
      apply select_tags_In in H. destruct H as [r [Hr [-> [Ht _]]]].
      simpl in E. subst. contradiction.
  - intros [H E]. left. split; [assumption|]. intros C.
    apply in_map_iff in C. destruct C as [it [E' C]].
    apply select_tags_In in C. destruct C as [r [Hr [-> [Ht Hn]]]].
    simpl in E'. assert (has_label t ns (tags d) = true) as T.
    { apply has_label_In. exists r. auto. }
    congruence.
Qed.

Section Effect.
Variables (tags0 allTags : list string) (ns : string) (now now' : Z).

Let objs (d : db) : list tagObj :=
  map (fun t => mkTagObj t ns now)
      (xor String.eqb allTags (pluck_text (select_tags allTags ns d))).

(** Once the missing labels are in, the rows the chain has fetched are
    the rows of the call's texts, as one select would give them. *)
Lemma fetchedTags_eq (d d1 : db) :
  insert_tags (objs d) d = Some d1 ->
  select_tags allTags ns d
  ++ select_tags (xor String.eqb allTags (pluck_text (select_tags allTags ns d)))
                 ns d1
  = select_tags allTags ns d1.
Proof.
  intros E. apply insert_tags_Some in E. destruct E as [_ [rows [ET [EM _]]]].
  set (raw := xor String.eqb allTags (pluck_text (select_tags allTags ns d))) in *.
  unfold select_tags. rewrite ET, !filter_app, !map_app.
  assert (forall r, In r rows -> In (text r) raw /\ namespace r = ns) as HR.
  { intros r Hr.
    assert (In (text r, namespace r) (map (fun r => (text r, namespace r)) rows)) as H
        by (apply in_map_iff; eauto).
    rewrite EM in H. unfold objs in H. fold raw in H. rewrite map_map in H. simpl in H.
    apply in_map_iff in H. destruct H as [t [Et Ht]]. now inversion Et; subst. }
  rewrite (filter_nothing (fun r => contains String.eqb raw (text r)
                                     && (namespace r =? ns)%string) (tags d)).
  - simpl. f_equal. f_equal.
    rewrite !filter_everything; trivial.
    + intros r Hr. destruct (HR r Hr) as [H1 H2].
      apply andb_true_iff. split; [|now apply String.eqb_eq].
      apply Scontains_In. apply missingTagsRaw_In in H1. tauto.
    + intros r Hr. destruct (HR r Hr) as [H1 H2].
      apply andb_true_iff. split; [now apply Scontains_In | now apply String.eqb_eq].
  - intros r Hr. apply andb_false_iff.
    destruct (contains String.eqb raw (text r)) eqn:C; [right | now left].
    apply Scontains_In in C. apply missingTagsRaw_In in C. destruct C as [_ C].
    apply String.eqb_neq. intros N.
    assert (has_label (text r) ns (tags d) = true) as T
        by (apply has_label_In; exists r; auto).
    congruence.
Qed.

(** The effect in two stages: create the labels, then add the missing
    edges and bump their ends. *)
Lemma associate_effect_stages (d : db) :
  associate_effect tags0 allTags ns now now' d
  = match insert_tags (objs d) d with
    | None => None
    | Some d1 =>
        match insert_assocs (missing_edges tags0 allTags ns d1) d1 with
        | None => None
        | Some d2 =>
            Some (update_counts (bumped (missing_edges tags0 allTags ns d1))
                                now' d2)
        end
    end.
Proof.
  unfold associate_effect. fold (objs d).
  destruct (insert_tags (objs d) d) as [d1|] eqn:E; trivial.
  rewrite (@fetchedTags_eq d d1 E). reflexivity.
Qed.

Lemma associate_effect_Some (d d' : db) :
  associate_effect tags0 allTags ns now now' d = Some d' ->
  exists d1,
    insert_tags (objs d) d = Some d1
    /\ d' = update_counts (bumped (missing_edges tags0 allTags ns d1)) now'
              (mkDb (tags d1)
                    (tags_associations d1 ++ missing_edges tags0 allTags ns d1)
                    (sqlite_sequence d1)).
Proof.
  rewrite associate_effect_stages.
  destruct (insert_tags (objs d) d) as [d1|] eqn:E; [|discriminate].
  destruct (insert_assocs _ d1) as [d2|] eqn:E2; [|discriminate].
  intros H. injection H as <-. exists d1. split; trivial.
  now rewrite (insert_assocs_Some _ _ _ E2).
Qed.
End Effect.

(** ** The classes of ids and the edges to add *)

Lemma NoDup_map_filter {A B : Type} (g : A -> B) (f : A -> bool) (l : list A) :
  NoDup (map g l) -> NoDup (map g (filter f l)).
Proof.
  induction l as [|a l IH]; simpl; intros H; [constructor|].
  inversion H as [|? ? NI ND]; subst.
  destruct (f a); simpl; [|now apply IH].
  constructor; [|now apply IH].
  intros C. apply NI. apply in_map_iff in C. destruct C as [x [E C]].
  apply filter_In in C. apply in_map_iff. exists x. tauto.
Qed.

Lemma NoDup_fst_same {A B : Type} (l : list (A * B)) (i : A) (x y : B) :
  NoDup (map fst l) -> In (i, x) l -> In (i, y) l -> x = y.
Proof.
  induction l as [|[j z] l IH]; simpl; intros ND Hx Hy; [contradiction|].
  inversion ND as [|? ? NI ND']; subst.
  destruct Hx as [Ex|Hx], Hy as [Ey|Hy].
  - congruence.
  - inversion Ex; subst. exfalso. apply NI. apply in_map_iff. now exists (i, y).
  - inversion Ey; subst. exfalso. apply NI. apply in_map_iff. now exists (i, x).
  - now apply IH.
Qed.

Lemma filter_at_most_one {A : Type} (f : A -> bool) (l : list A) :
  NoDup l ->
  (forall a b, In a l -> In b l -> f a = true -> f b = true -> a = b) ->
  (List.length (filter f l) <= 1)%nat.
Proof.
  induction l as [|a l IH]; simpl; intros ND U; [lia|].
  inversion ND as [|? ? NI ND']; subst.
  destruct (f a) eqn:Fa.
  - rewrite (filter_nothing f l); [simpl; lia|].
    intros x Hx. destruct (f x) eqn:Fx; trivial.
    exfalso. apply NI. rewrite (U a x); auto.
  - apply IH; [assumption|]. intros x y Hx Hy. apply U; now right.
Qed.

Lemma filter_length_pos {A : Type} (f : A -> bool) (l : list A) (x : A) :
  In x l -> f x = true -> (1 <= List.length (filter f l))%nat.
Proof.
  intros H E. assert (In x (filter f l)) as H' by (apply filter_In; auto).
  destruct (filter f l); [contradiction | simpl; lia].
Qed.

Lemma tagIds_In (tags0 : list string) (F : list id_text) (i : Z) :
  In i (tagIds_of tags0 F) <-> exists x, In (i, x) F /\ In x tags0.
Proof.
  unfold tagIds_of, pluck_id. rewrite in_map_iff. split.
  - intros [[j x] [E H]]. simpl in E. subst j. apply filter_In in H.
    destruct H as [H C]. apply Scontains_In in C. eauto.
  - intros [x [H C]]. exists (i, x). split; trivial.
    apply filter_In. split; [assumption | now apply Scontains_In].
Qed.

Lemma tokenIds_In (tags0 : list string) (F : list id_text) (i : Z) :
  In i (tokenIds_of tags0 F) <-> exists x, In (i, x) F /\ ~ In x tags0.
Proof.
  unfold tokenIds_of, pluck_id. rewrite in_map_iff. split.
  - intros [[j x] [E H]]. simpl in E. subst j. apply filter_In in H.
    destruct H as [H C]. apply negb_true_iff, Scontains_false in C. eauto.
  - intros [x [H C]]. exists (i, x). split; trivial.
    apply filter_In. split; [assumption|].
    now apply negb_true_iff, Scontains_false.
Qed.

Lemma associations_In (T K : list Z) (c : assoc) :
  In c (associations_of T K) <-> In (tag_id1 c) T /\ In (tag_id2 c) K.
Proof.
  unfold associations_of. rewrite in_flat_map. split.
  - intros [tid [Ht H]]. apply in_map_iff in H. destruct H as [t [E Hk]].
    subst c. simpl. auto.
  - intros [H1 H2]. exists (tag_id1 c). split; [assumption|].
    apply in_map_iff. exists (tag_id2 c). split; [now destruct c | assumption].
Qed.

Lemma associations_NoDup (T K : list Z) :
  NoDup T -> NoDup K -> NoDup (associations_of T K).
Proof.
  unfold associations_of. intros NT NK.
  induction T as [|t T IH]; simpl; [constructor|].
  inversion NT as [|? ? NI NT']; subst.
  apply NoDup_app.
  - apply NoDup_map_NoDup_ForallPairs; [|assumption].
    intros x y _ _ E. now inversion E.
  - now apply IH.
  - intros a Ha Hb. apply in_map_iff in Ha. destruct Ha as [k [E _]]. subst a.
    apply in_flat_map in Hb. destruct Hb as [t' [Ht' Hb]].
    apply in_map_iff in Hb. destruct Hb as [k' [E _]].
    inversion E; subst. contradiction.
Qed.

Lemma missingAssocs_In (A E : list assoc) (c : assoc) :
  In c (missingAssocs_of A E)
  <-> In c A
      /\ forall e, In e E -> same_edge (tag_id1 c) (tag_id2 c) e = false.
Proof.
  unfold missingAssocs_of. rewrite filter_In, negb_true_iff. split.
  - intros [H N]. split; [assumption|]. intros e He.
    destruct (same_edge (tag_id1 c) (tag_id2 c) e) eqn:S; trivial.
    assert (existsb (fun e => equalArrays (values c) (values e)) E = true) as X
        by (apply existsb_exists; exists e; auto).
    congruence.
  - intros [H N]. split; [assumption|].
    destruct (existsb (fun e => equalArrays (values c) (values e)) E) eqn:X; trivial.
    apply existsb_exists in X. destruct X as [e [He S]].
    specialize (N e He). unfold same_edge in N. unfold values at 1 in S. congruence.
Qed.

Lemma select_assocs_In (ids : list Z) (d : db) (e : assoc) :
  In e (select_assocs ids d)
  <-> In e (tags_associations d) /\ In (tag_id1 e) ids.
Proof. unfold select_assocs. now rewrite filter_In, Zcontains_In. Qed.

Section Edges.
Variables (tags0 allTags : list string) (ns : string) (d1 : db).

Let F := select_tags allTags ns d1.
Let T := tagIds_of tags0 F.
Let K := tokenIds_of tags0 F.

Lemma class_fetched (i : Z) : In i T \/ In i K -> In i (pluck_id F).
Proof.
  unfold T, K, pluck_id. rewrite tagIds_In, tokenIds_In.
  intros [[x [H _]]|[x [H _]]]; apply in_map_iff; now exists (i, x).
Qed.

(** A missing edge joins a tag id to a token id. *)
Lemma missing_edges_ends (c : assoc) :
  In c (missing_edges tags0 allTags ns d1) ->
  In (tag_id1 c) T /\ In (tag_id2 c) K.
Proof.
  unfold missing_edges. fold F T K. rewrite missingAssocs_In, associations_In.
  tauto.
Qed.

(** A missing edge is joined by no row of the table, whatever the order
    of its ends: every row that could is among the fetched ones. *)
Lemma missing_edges_new (c e : assoc) :
  In c (missing_edges tags0 allTags ns d1) ->
  In e (tags_associations d1) ->
  same_edge (tag_id1 c) (tag_id2 c) e = false.
Proof.
  intros Hc He. pose proof (missing_edges_ends c Hc) as [H1 H2].
  unfold missing_edges in Hc. fold F T K in Hc.
  apply missingAssocs_In in Hc. destruct Hc as [_ N].
  destruct (same_edge (tag_id1 c) (tag_id2 c) e) eqn:S; trivial.
  rewrite <- S. apply N. apply select_assocs_In. split; [assumption|].
  apply same_edge_iff in S. apply class_fetched.
  destruct S as [[<- _]|[_ <-]]; auto.
Qed.

(** Every cross pair is joined by a stored row or is among the missing
    edges. *)
Lemma cross_pair_covered (c : assoc) :
  In (tag_id1 c) T -> In (tag_id2 c) K ->
  (exists e, In e (tags_associations d1)
             /\ same_edge (tag_id1 c) (tag_id2 c) e = true)
  \/ In c (missing_edges tags0 allTags ns d1).
Proof.
  intros H1 H2. unfold missing_edges. fold F T K.
  destruct (existsb (same_edge (tag_id1 c) (tag_id2 c))
                    (select_assocs (pluck_id F) d1)) eqn:X.
  - left. apply existsb_exists in X. destruct X as [e [He S]].
    apply select_assocs_In in He. exists e. tauto.
  - right. apply missingAssocs_In. split; [now apply associations_In|].
    intros e He. destruct (same_edge (tag_id1 c) (tag_id2 c) e) eqn:S; trivial.
    assert (existsb (same_edge (tag_id1 c) (tag_id2 c))
                    (select_assocs (pluck_id F) d1) = true) as Y
        by (apply existsb_exists; exists e; auto).
    congruence.
Qed.

Hypothesis PK : NoDup (map id (tags d1)).

Lemma fetched_NoDup : NoDup (map fst F).
Proof.
  unfold F, select_tags. rewrite map_map. simpl. now apply NoDup_map_filter.
Qed.

(** With ids that identify rows, no id is in both classes. *)
Lemma classes_disjoint (i : Z) : In i T -> ~ In i K.
Proof.
  unfold T, K. rewrite tagIds_In, tokenIds_In.
  intros [x [Hx Tx]] [y [Hy Ty]].
  rewrite (NoDup_fst_same F i x y fetched_NoDup Hx Hy) in Tx. contradiction.
Qed.

Lemma missing_edges_NoDup : NoDup (missing_edges tags0 allTags ns d1).
Proof.
  unfold missing_edges, missingAssocs_of. apply NoDup_filter.
  apply associations_NoDup.
  - unfold tagIds_of, pluck_id. apply NoDup_map_filter. apply fetched_NoDup.
  - unfold tokenIds_of, pluck_id. apply NoDup_map_filter. apply fetched_NoDup.
Qed.

Lemma missing_edges_no_loop (c : assoc) :
  In c (missing_edges tags0 allTags ns d1) -> tag_id1 c <> tag_id2 c.
Proof.
  intros Hc E. destruct (missing_edges_ends c Hc) as [H1 H2].
  rewrite E in H1. exact (classes_disjoint _ H1 H2).
Qed.

(** At most one missing edge joins two given ids. *)
Lemma missing_edges_simple (x y : Z) :
  (List.length (filter (same_edge x y) (missing_edges tags0 allTags ns d1))
   <= 1)%nat.
Proof.
  apply filter_at_most_one; [apply missing_edges_NoDup|].
  intros a b Ha Hb Sa Sb.
  destruct (missing_edges_ends a Ha) as [A1 A2].
  destruct (missing_edges_ends b Hb) as [B1 B2].
  apply same_edge_iff in Sa. apply same_edge_iff in Sb.
  destruct a as [a1 a2], b as [b1 b2]. simpl in *.
  destruct Sa as [[-> ->]|[-> ->]], Sb as [[E1 E2]|[E1 E2]]; subst;
    trivial; exfalso; eapply classes_disjoint; eassumption.
Qed.
End Edges.

(** ** What a fulfilled [associate] leaves behind *)

Lemma ids_of_label_same_rows (txt ns : string) (d d' : db) :
  map (fun r => (id r, text r, namespace r)) (tags d')
  = map (fun r => (id r, text r, namespace r)) (tags d) ->
  ids_of_label txt ns d' = ids_of_label txt ns d.
Proof.
  unfold ids_of_label. generalize (tags d) as l. generalize (tags d') as l'.
  induction l' as [|r' l' IH]; intros [|r l] E; simpl in E; try discriminate; trivial.
  injection E as E1 E2 E3 E4. simpl. rewrite E2, E3.
  destruct ((text r =? txt)%string && (namespace r =? ns)%string);
    simpl; rewrite (IH l E4); congruence.
Qed.

Lemma ids_same_rows (l l' : list tag) :
  map (fun r => (id r, text r, namespace r)) l'
  = map (fun r => (id r, text r, namespace r)) l ->
  map id l' = map id l.
Proof.
  intros E. apply (f_equal (map (fun t : Z * string * string => fst (fst t)))) in E.
  now rewrite !map_map in E.
Qed.

Lemma find_app {A : Type} (f : A -> bool) (l l' : list A) :
  find f (l ++ l') = match find f l with
                     | Some x => Some x
                     | None => find f l'
                     end.
Proof. induction l as [|a l IH]; simpl; trivial. now destruct (f a). Qed.

Lemma find_id_Some (i : Z) (l : list tag) :
  In i (map id l) -> exists r, find (fun r => id r =? i) l = Some r.
Proof.
  intros H. destruct (find (fun r => id r =? i) l) as [r|] eqn:E; [eauto|].
  apply in_map_iff in H. destruct H as [r [<- H]].
  pose proof (find_none _ _ E r H) as N. simpl in N.
  rewrite Z.eqb_refl in N. discriminate.
Qed.

Lemma bumped_In (M : list assoc) (i : Z) :
  In i (bumped M) <-> exists e, In e M /\ touches i e = true.
Proof.
  unfold bumped. rewrite (uniq_In Z.eqb Z.eqb_eq), in_app_iff, !in_map_iff.
  unfold touches. split.
  - intros [[e [E H]]|[e [E H]]]; exists e; (split; [assumption|]);
      rewrite E, Z.eqb_refl; auto using orb_true_r.
  - intros [e [H S]]. apply orb_true_iff in S.
    destruct S as [S|S]; apply Z.eqb_eq in S; eauto.
Qed.

Lemma min_one_length {A : Type} (f : A -> bool) (l : list A) :
  Z.min 1 (Z.of_nat (List.length (filter f l)))
  = if existsb f l then 1 else 0.
Proof.
  induction l as [|a l IH]; simpl; trivial.
  destruct (f a); simpl; [lia | exact IH].
Qed.

Lemma new_edges_app (d : db) (t : list tag) (M : list assoc) (s : Z) :
  new_edges d (mkDb t (tags_associations d ++ M) s) = M.
Proof.
  unfold new_edges. simpl. rewrite skipn_app, skipn_all, Nat.sub_diag. reflexivity.
Qed.

Lemma new_edges_update (d d2 : db) (ids : list Z) (now : Z) :
  new_edges d (update_counts ids now d2) = new_edges d d2.
Proof. reflexivity. Qed.

Section Post.
Variables (tags0 allTags : list string) (ns : string) (now now' : Z).
Variables (d d' : db).
Hypothesis Run : associate_effect tags0 allTags ns now now' d = Some d'.

Let F' := select_tags allTags ns d'.

(** The store after the labels are created, and how [d'] derives from it. *)
Lemma effect_middle :
  exists d1 rows,
    tags d1 = tags d ++ rows
    /\ tags_associations d1 = tags_associations d
    /\ Forall (fun r => count r = 0 /\ max_id (tags d) < id r
                        /\ In (text r) allTags /\ namespace r = ns) rows
    /\ (forall t, In t allTags -> has_label t ns (tags d1) = true)
    /\ (consistent d -> consistent d1)
    /\ d' = update_counts (bumped (missing_edges tags0 allTags ns d1)) now'
              (mkDb (tags d1)
                    (tags_associations d ++ missing_edges tags0 allTags ns d1)
                    (sqlite_sequence d1)).
Proof.
  destruct (associate_effect_Some _ _ _ _ _ _ _ Run) as [d1 [E1 E2]].
  pose proof (insert_tags_Some _ _ _ E1) as [EA [rows [ET [EM EF]]]].
  exists d1, rows. rewrite <- EA.
  split; [exact ET|]. split; [reflexivity|].
  split; [|split; [|split; [|exact E2]]].
  - apply Forall_forall. intros r Hr. rewrite Forall_forall in EF.
    destruct (EF r Hr) as [C I].
    assert (In (text r, namespace r) (map (fun r => (text r, namespace r)) rows)) as H
        by (apply in_map_iff; eauto).
    rewrite EM, map_map in H. simpl in H. apply in_map_iff in H.
    destruct H as [t [Et Ht]]. apply missingTagsRaw_In in Ht.
    injection Et as Et1 Et2. rewrite Et1 in Ht. symmetry in Et2. tauto.
  - intros t Ht. destruct (has_label t ns (tags d)) eqn:L.
    + apply has_label_In in L. destruct L as [r [Hr L]].
      apply has_label_In. exists r. rewrite ET, in_app_iff. auto.
    + assert (In (t, ns) (map (fun r => (text r, namespace r)) rows)) as H.
      { rewrite EM, map_map. simpl. apply in_map_iff. exists t. split; trivial.
        apply missingTagsRaw_In. auto. }
      apply in_map_iff in H. destruct H as [r [E Hr]]. inversion E; subst.
      apply has_label_In. exists r. rewrite ET, in_app_iff. auto.
  - intros C. eapply insert_tags_consistent; eassumption.
Qed.

(** Every text of the call has a row afterwards. *)
Lemma effect_labels (t : string) :
  In t allTags -> ids_of_label t ns d' <> [].
Proof.
  intros Ht. destruct effect_middle as [d1 [rows [_ [_ [_ [HL [_ E]]]]]]].
  rewrite (ids_of_label_same_rows t ns d1 d')
    by (rewrite E; now rewrite update_counts_rows).
  intros N. apply has_label_ids in N. rewrite (HL t Ht) in N. discriminate.
Qed.

(** The edges are appended to, never rewritten. *)
Lemma effect_append :
  tags_associations d' = tags_associations d ++ new_edges d d'.
Proof.
  destruct effect_middle as [d1 [rows [_ [_ [_ [_ [_ ->]]]]]]].
  unfold update_counts at 2. unfold new_edges. simpl.
  now rewrite skipn_app, skipn_all, Nat.sub_diag.
Qed.

(** A new edge joins a tag id to a token id, and no row joined the two
    before. *)
Lemma effect_new_edge (c : assoc) :
  In c (new_edges d d') ->
  In (tag_id1 c) (tagIds_of tags0 F') /\ In (tag_id2 c) (tokenIds_of tags0 F')
  /\ forall e, In e (tags_associations d) ->
               same_edge (tag_id1 c) (tag_id2 c) e = false.
Proof.
  destruct effect_middle as [d1 [rows [_ [EA [_ [_ [_ E]]]]]]].
  assert (F' = select_tags allTags ns d1) as EF.
  { unfold F'. apply select_tags_same_rows. rewrite E. now rewrite update_counts_rows. }
  rewrite EF. rewrite E. unfold new_edges, update_counts. simpl.
  rewrite skipn_app, skipn_all, Nat.sub_diag. simpl.
  intros Hc. destruct (missing_edges_ends _ _ _ _ _ Hc) as [H1 H2].
  repeat split; trivial. intros e He. rewrite <- EA in He.
  eapply missing_edges_new; eassumption.
Qed.

(** Every cross pair of the two classes is joined afterwards. *)
Lemma effect_cross (i j : Z) :
  In i (tagIds_of tags0 F') -> In j (tokenIds_of tags0 F') ->
  exists e, In e (tags_associations d') /\ same_edge i j e = true.
Proof.
  destruct effect_middle as [d1 [rows [_ [EA [_ [_ [_ E]]]]]]].
  assert (F' = select_tags allTags ns d1) as EF.
  { unfold F'. apply select_tags_same_rows. rewrite E. now rewrite update_counts_rows. }
  rewrite EF. intros Hi Hj.
  destruct (cross_pair_covered tags0 allTags ns d1 (mkAssoc i j) Hi Hj)
    as [[e [He S]]|Hc]; simpl in *.
  - exists e. split; [|assumption]. rewrite E. unfold update_counts. simpl.
    rewrite <- EA. apply in_app_iff. now left.
  - exists (mkAssoc i j). split.
    + rewrite E. unfold update_counts. simpl. apply in_app_iff. now right.
    + apply same_edge_iff. simpl. auto.
Qed.

(** Counters: one more for each end of a new edge, nothing else. *)
Lemma effect_counts (i : Z) :
  label_count i d'
  = label_count i d + if existsb (touches i) (new_edges d d') then 1 else 0.
Proof.
  destruct effect_middle as [d1 [rows [ET [EA [FR [_ [_ E]]]]]]].
  set (M := missing_edges tags0 allTags ns d1) in *.
  assert (label_count i d1 = label_count i d) as L1.
  { unfold label_count. rewrite ET, find_app.
    destruct (find (fun r => id r =? i) (tags d)) as [r|]; trivial.
    destruct (find (fun r => id r =? i) rows) as [r|] eqn:Fr; trivial.
    apply find_some in Fr. destruct Fr as [Hr _].
    rewrite Forall_forall in FR. now destruct (FR r Hr) as [-> _]. }
  rewrite E. rewrite new_edges_update, new_edges_app, label_count_update. simpl.
  destruct (contains Z.eqb (bumped M) i) eqn:C.
  - apply Zcontains_In in C. pose proof C as C'.
    apply bumped_In in C. destruct C as [e [He S]].
    assert (existsb (touches i) M = true) as X
        by (apply existsb_exists; eauto).
    rewrite X. rewrite <- L1. unfold label_count.
    destruct (find_id_Some i (tags d1)) as [r ->]; trivial.
    destruct (missing_edges_ends _ _ _ _ _ He) as [H1 H2].
    unfold touches in S. apply orb_true_iff in S.
    assert (In i (pluck_id (select_tags allTags ns d1))) as Hi.
    { apply class_fetched with (tags0 := tags0).
      destruct S as [S|S]; apply Z.eqb_eq in S; subst i; auto. }
    unfold pluck_id in Hi. apply in_map_iff in Hi. destruct Hi as [[j x] [Ej Hi]].
    simpl in Ej. subst j. apply select_tags_In in Hi.
    destruct Hi as [r [Hr [Er _]]]. inversion Er; subst.
    apply in_map_iff. eauto.
  - apply Zcontains_false in C.
    destruct (existsb (touches i) M) eqn:X.
    + exfalso. apply C. apply bumped_In. apply existsb_exists in X. exact X.
    + unfold label_count in *. simpl. rewrite L1. lia.
Qed.

(** The constraints of the schema and the one-row-per-edge rule
    survive the call. *)
Lemma effect_consistent : consistent d -> consistent d'.
Proof.
  intros C. destruct effect_middle as [d1 [rows [ET [EA [FR [_ [C1 E]]]]]]].
  specialize (C1 C). destruct C1 as [PK UL UE].
  assert (map (fun r => (id r, text r, namespace r)) (tags d')
          = map (fun r => (id r, text r, namespace r)) (tags d1)) as R
      by (rewrite E; now rewrite update_counts_rows).
  constructor.
  - rewrite (ids_same_rows _ _ R). exact PK.
  - intros txt ns0. rewrite (ids_of_label_same_rows txt ns0 d1 d' R). apply UL.
  - intros x y. rewrite E. unfold edges_between, update_counts. simpl.
    rewrite filter_app, length_app.
    pose proof (missing_edges_simple tags0 allTags ns d1 PK x y) as LM.
    specialize (UE x y). unfold edges_between in UE. rewrite EA in UE.
    destruct (filter (same_edge x y) (missing_edges tags0 allTags ns d1))
      as [|c rest] eqn:FM; [simpl; lia|].
    assert (In c (filter (same_edge x y) (missing_edges tags0 allTags ns d1))) as Hc
        by (rewrite FM; now left).
    apply filter_In in Hc. destruct Hc as [Hc Sc].
    rewrite (filter_nothing (same_edge x y) (tags_associations d)); [simpl in *; lia|].
    intros e He. rewrite <- EA in He.
    pose proof (missing_edges_new tags0 allTags ns d1 c e Hc He) as N.
    destruct (same_edge x y e) eqn:S; trivial.
    apply same_edge_iff in Sc. apply same_edge_iff in S.
    assert (same_edge (tag_id1 c) (tag_id2 c) e = true) as Y
        by (apply same_edge_iff; intuition congruence).
    congruence.
Qed.

(** With ids that identify rows, no new edge is a loop. *)
Lemma effect_no_loop (c : assoc) :
  consistent d -> In c (new_edges d d') -> tag_id1 c <> tag_id2 c.
Proof.
  intros C. destruct effect_middle as [d1 [rows [_ [_ [_ [_ [C1 E]]]]]]].
  specialize (C1 C). destruct C1 as [PK _ _].
  rewrite E, new_edges_update, new_edges_app. now apply missing_edges_no_loop.
Qed.
End Post.

Lemma effect_noop (tags0 allTags : list string) (ns : string) (now now' : Z)
      (d : db) :
  (forall t, In t allTags -> has_label t ns (tags d) = true) ->
  (forall i j,
      In i (tagIds_of tags0 (select_tags allTags ns d)) ->
      In j (tokenIds_of tags0 (select_tags allTags ns d)) ->
      exists e, In e (tags_associations d) /\ same_edge i j e = true) ->
  xor String.eqb allTags (pluck_text (select_tags allTags ns d)) = []
  /\ missing_edges tags0 allTags ns d = []
  /\ associate_effect tags0 allTags ns now now' d = Some d.
Proof.
  intros HL HE.
  assert (xor String.eqb allTags (pluck_text (select_tags allTags ns d)) = []) as R.
  { apply no_member_nil. intros t Ht. apply missingTagsRaw_In in Ht.
    destruct Ht as [Ht N]. rewrite (HL t Ht) in N. discriminate. }
  assert (missing_edges tags0 allTags ns d = []) as M.
  { apply no_member_nil. intros c Hc.
    destruct (missing_edges_ends _ _ _ _ _ Hc) as [H1 H2].
    destruct (HE _ _ H1 H2) as [e [He S]].
    rewrite (missing_edges_new _ _ _ _ _ _ Hc He) in S. discriminate. }
  split; [exact R|]. split; [exact M|].
  rewrite associate_effect_stages, R. simpl. rewrite M. simpl.
  unfold bumped. simpl. now rewrite update_counts_nil.
Qed.

(** On a consistent store no unique constraint can stop the transaction
    (the store of the model refuses no statement for its size). *)
Lemma effect_goes (tags0 allTags : list string) (ns : string) (now now' : Z)
      (d : db) :
  consistent d -> exists d', associate_effect tags0 allTags ns now now' d = Some d'.
Proof.
  intros C. rewrite associate_effect_stages.
  destruct (insert_tags_goes
              (xor String.eqb allTags (pluck_text (select_tags allTags ns d)))
              ns now d) as [d1 E1].
  - apply (xor_NoDup String.eqb String.eqb_eq).
  - intros t Ht. apply missingTagsRaw_In in Ht. tauto.
  - rewrite E1. pose proof (insert_tags_consistent _ _ _ C E1) as [PK _ _].
    destruct (insert_assocs_goes (missing_edges tags0 allTags ns d1) d1) as [d2 E2].
    + now apply missing_edges_NoDup.
    + intros c Hc Hin.
      pose proof (missing_edges_new _ _ _ _ _ _ Hc Hin) as N.
      assert (same_edge (tag_id1 c) (tag_id2 c) c = true) as S
          by (apply same_edge_iff; auto).
      congruence.
    + rewrite E2. eauto.
Qed.

(** ** Running the promise chains *)

Section Runs.
Variable unreachable : nat -> bool.

Lemma bind_inl {A B : Type} (m : M A) (k : A -> M B) (w w' : world) (b : B) :
  bind m k w = (inl b, w') ->
  exists a w1, m w = (inl a, w1) /\ k a w1 = (inl b, w').
Proof.
  unfold bind. destruct (m w) as [[a|e] w1]; [eauto | discriminate].
Qed.

Lemma send_inl {A : Type} (st : statement) (run : db -> option (A * db))
      (w w' : world) (a : A) :
  send unreachable st run w = (inl a, w') ->
  run (store w) = Some (a, store w')
  /\ journal w' = journal w ++ [st]
  /\ schemaCreated w' = schemaCreated w.
Proof.
  unfold send. destruct (unreachable _); [discriminate|].
  destruct (run (store w)) as [[a' d']|]; [|discriminate].
  intros E. injection E as <- <-. auto.
Qed.

(** A statement that fails leaves the rows as they were. *)
Lemma send_inr {A : Type} (st : statement) (run : db -> option (A * db))
      (w w' : world) (e : error) :
  send unreachable st run w = (inr e, w') ->
  store w' = store w /\ schemaCreated w' = schemaCreated w.
Proof.
  unfold send. destruct (unreachable _).
  - intros E. injection E as _ <-. auto.
  - destruct (run (store w)) as [[a' d']|]; [discriminate|].
    intros E. injection E as _ <-. auto.
Qed.

Lemma read_inl {A : Type} (st : statement) (q : db -> A) (w w' : world) (a : A) :
  read unreachable st q w = (inl a, w') ->
  a = q (store w) /\ store w' = store w
  /\ schemaCreated w' = schemaCreated w.
Proof.
  unfold read. intros E. apply send_inl in E. destruct E as [E [_ S]].
  injection E as <- <-. auto.
Qed.

Lemma write_inl (st : statement) (u : db -> option db) (w w' : world) (x : unit) :
  write unreachable st u w = (inl x, w') ->
  u (store w) = Some (store w') /\ schemaCreated w' = schemaCreated w.
Proof.
  unfold write. intros E. apply send_inl in E. destruct E as [E [_ S]].
  split; [|assumption].
  destruct (u (store w)) as [d|]; simpl in E; [|discriminate].
  injection E as _ E2. now rewrite E2.
Qed.

Lemma guarded_write_inl {X : Type} (l : list X) (st : statement)
      (u : db -> option db) (w w' : world) (x : unit) :
  (l = [] -> u (store w) = Some (store w)) ->
  (if is_empty l then ret tt else write unreachable st u) w = (inl x, w') ->
  u (store w) = Some (store w') /\ schemaCreated w' = schemaCreated w.
Proof.
  intros N. destruct l as [|a l]; simpl.
  - unfold ret. intros E. injection E as _ <-.
    split; [now apply N | reflexivity].
  - apply write_inl.
Qed.

Lemma createSchema_store (w w' : world) (r : unit + error) :
  createSchema unreachable w = (r, w') -> store w' = store w.
Proof.
  unfold createSchema. destruct (schemaCreated w) as [[u|e]|].
  - intros E. now injection E as _ <-.
  - intros E. now injection E as _ <-.
  - unfold read, send. destruct (unreachable _); simpl;
      intros E; now injection E as _ <-.
Qed.

Lemma createSchema_inl (w w' : world) (u : unit) :
  createSchema unreachable w = (inl u, w') ->
  schemaCreated w' = Some (Fulfilled tt).
Proof.
  unfold createSchema. destruct (schemaCreated w) as [[[]|e]|] eqn:SC.
  - intros E. injection E as _ <-. exact SC.
  - discriminate.
  - unfold read, send. destruct (unreachable _); simpl; [discriminate|].
    intros E. injection E as _ <-. reflexivity.
Qed.

(** A transaction that fulfils keeps what its body wrote. *)
Lemma transaction_inl {A : Type} (body : M A) (w w' : world) (a : A) :
  transaction unreachable body w = (inl a, w') ->
  exists w1 w2,
    body w1 = (inl a, w2)
    /\ store w1 = store w /\ schemaCreated w1 = schemaCreated w
    /\ store w' = store w2 /\ schemaCreated w' = schemaCreated w2.
Proof.
  unfold transaction.
  destruct (read unreachable Begin (fun _ => tt) w) as [[u|e] w1] eqn:B;
    [|discriminate].
  apply read_inl in B. destruct B as [_ [B1 B2]].
  destruct (body w1) as [[a'|e] w2] eqn:Bd; [|discriminate].
  destruct (read unreachable Commit (fun _ => tt) w2) as [[u'|e] w3] eqn:C;
    [|discriminate].
  apply read_inl in C. destruct C as [_ [C1 C2]].
  intros E. injection E as <- <-. exists w1, w2. auto.
Qed.

(** A transaction that rejects leaves the rows it found. *)
Lemma transaction_inr {A : Type} (body : M A) (w w' : world) (e : error) :
  transaction unreachable body w = (inr e, w') -> store w' = store w.
Proof.
  unfold transaction.
  destruct (read unreachable Begin (fun _ => tt) w) as [[u|e0] w1] eqn:B.
  - destruct (body w1) as [[a'|e1] w2] eqn:Bd.
    + destruct (read unreachable Commit (fun _ => tt) w2) as [[u'|e2] w3] eqn:C.
      * discriminate.
      * intros E. now injection E as _ <-.
    + intros E. now injection E as _ <-.
  - unfold read in B. apply send_inr in B. intros E. injection E as _ <-. tauto.
Qed.

(** A chain that fulfils has the effect computed on the rows alone. *)
Lemma associate_chain_inl (tags0 allTags : list string) (ns : string)
      (now now' : Z) (w w' : world) (u : unit) :
  associate_chain unreachable tags0 allTags ns now now' w = (inl u, w') ->
  associate_effect tags0 allTags ns now now' (store w) = Some (store w')
  /\ schemaCreated w' = schemaCreated w.
Proof.
  unfold associate_chain. intros H.
  apply bind_inl in H. destruct H as [existing [w1 [H1 H]]].
  apply read_inl in H1. destruct H1 as [-> [S1 C1]].
  set (raw := xor String.eqb allTags
                  (pluck_text (select_tags allTags ns (store w)))) in *.
  apply bind_inl in H. destruct H as [x2 [w2 [H2 H]]].
  apply guarded_write_inl in H2; [|now intros ->].
  destruct H2 as [H2 C2]. rewrite S1 in H2.
  apply bind_inl in H. destruct H as [missingTags [w3 [H3 H]]].
  assert (missingTags = select_tags raw ns (store w2)
          /\ store w3 = store w2 /\ schemaCreated w3 = schemaCreated w2)
    as [-> [S3 C3]].
  { destruct (is_empty raw) eqn:Er.
    - apply is_empty_nil in Er. rewrite Er, select_tags_nil.
      unfold ret in H3. injection H3 as <- <-. auto.
    - now apply read_inl in H3. }
  apply bind_inl in H. destruct H as [existingAssocs [w4 [H4 H]]].
  apply read_inl in H4. destruct H4 as [-> [S4 C4]].
  apply bind_inl in H. destruct H as [x5 [w5 [H5 H]]].
  apply guarded_write_inl in H5; [|now intros ->].
  destruct H5 as [H5 C5]. rewrite S4, S3 in H5. rewrite S3 in H. clear H3.
  match type of H with
  | (if is_empty ?ids then _ else _) _ = _ =>
      assert (store w' = update_counts ids now' (store w5)
              /\ schemaCreated w' = schemaCreated w5) as [H6 C6];
        [destruct ids as [|i rest]; simpl in H;
         [unfold ret in H; injection H as _ <-; now rewrite update_counts_nil
         | apply write_inl in H; destruct H as [H C]; injection H as H;
           auto ] |]
  end.
  unfold associate_effect. fold raw. rewrite H2, H5, H6.
  split; [reflexivity | congruence].
Qed.

Lemma associate_fulfilled (tokens tags0 : list string) (ns : string)
      (now now' : Z) (w w' : world) (u : unit) :
  associate unreachable tokens tags0 ns now now' w = (Some (Fulfilled u), w') ->
  tokens <> [] /\ tags0 <> []
  /\ associate_effect tags0 (uniq String.eqb (tokens ++ tags0)) (or_public ns)
                      now now' (store w) = Some (store w')
  /\ schemaCreated w' = Some (Fulfilled tt).
Proof.
  unfold associate.
  destruct tokens as [|t tokens]; [discriminate|].
  destruct tags0 as [|g tags0]; [discriminate|].
  cbn [is_empty orb]. unfold settle.
  match goal with
  | |- context [bind ?m ?k w] => destruct (bind m k w) as [[x|e] w0] eqn:B
  end; [|discriminate].
  intros E. injection E as _ <-.
  apply bind_inl in B. destruct B as [x1 [w1 [B1 B2]]].
  pose proof (createSchema_store _ _ _ B1) as S1.
  apply createSchema_inl in B1.
  apply transaction_inl in B2.
  destruct B2 as [w2 [w3 [B2 [S2 [C2 [S3 C3]]]]]].
  apply associate_chain_inl in B2. destruct B2 as [B2 C4].
  repeat split; try discriminate.
  - rewrite S3, <- S1, <- S2. exact B2.
  - congruence.
Qed.

(** Whatever fails, and wherever, the rows are those of before the call. *)
Lemma associate_rejected (tokens tags0 : list string) (ns : string)
      (now now' : Z) (w w' : world) (e : error) :
  associate unreachable tokens tags0 ns now now' w = (Some (Rejected e), w') ->
  store w' = store w.
Proof.
  unfold associate.
  destruct (is_empty tokens || is_empty tags0); [discriminate|].
  unfold settle.
  match goal with
  | |- context [bind ?m ?k w] => destruct (bind m k w) as [[x|e0] w0] eqn:B
  end; [discriminate|].
  intros E. injection E as _ <-.
  unfold bind in B.
  destruct (createSchema unreachable w) as [[x1|e1] w1] eqn:B1.
  - apply createSchema_store in B1. apply transaction_inr in B. congruence.
  - apply createSchema_store in B1. injection B as _ <-. exact B1.
Qed.
End Runs.

(** *** With the store within reach *)

Lemma read_online {A : Type} (st : statement) (q : db -> A) (w : world) :
  read online st q w
  = (inl (q (store w)), mkWorld (store w) (journal w ++ [st]) (schemaCreated w)).
Proof. reflexivity. Qed.

Lemma write_online (st : statement) (u : db -> option db) (w : world) (d : db) :
  u (store w) = Some d ->
  write online st u w = (inl tt, mkWorld d (journal w ++ [st]) (schemaCreated w)).
Proof. unfold write, send, online. now intros ->. Qed.

Lemma guarded_write_online {X : Type} (l : list X) (st : statement)
      (u : db -> option db) (w : world) (d : db) :
  (l = [] -> d = store w) ->
  u (store w) = Some d ->
  (if is_empty l then ret tt else write online st u) w
  = (inl tt, mkWorld d (journal w ++ if is_empty l then [] else [st])
                     (schemaCreated w)).
Proof.
  intros N E. destruct l as [|a l]; simpl.
  - rewrite (N eq_refl), app_nil_r. now destruct w.
  - now apply write_online.
Qed.

Lemma guarded_select_online (l : list string) (ns : string) (w : world) :
  (if is_empty l then ret [] else read online SelectTags (select_tags l ns)) w
  = (inl (select_tags l ns (store w)),
     mkWorld (store w) (journal w ++ if is_empty l then [] else [SelectTags])
             (schemaCreated w)).
Proof.
  destruct l as [|a l]; simpl.
  - rewrite select_tags_nil, app_nil_r. now destruct w.
  - apply read_online.
Qed.

Lemma is_empty_bumped (M : list assoc) : is_empty (bumped M) = is_empty M.
Proof. now destruct M. Qed.

Lemma insert_tags_nil_eq (objs : list tagObj) (d d1 : db) :
  insert_tags objs d = Some d1 -> objs = [] -> d1 = d.
Proof. intros E ->. simpl in E. now injection E. Qed.

(** The chain of [associate] on a reachable store: it fulfils as soon as
    the two inserts meet no constraint, and sends only the statements it
    needs. *)
Lemma associate_chain_online (tags0 allTags : list string) (ns : string)
      (now now' : Z) (w : world) (d1 d2 : db) :
  let raw := xor String.eqb allTags
                 (pluck_text (select_tags allTags ns (store w))) in
  let M := missing_edges tags0 allTags ns d1 in
  insert_tags (map (fun t => mkTagObj t ns now) raw) (store w) = Some d1 ->
  insert_assocs M d1 = Some d2 ->
  associate_chain online tags0 allTags ns now now' w
  = (inl tt, mkWorld (update_counts (bumped M) now' d2)
                     (journal w ++ chain_journal raw M) (schemaCreated w)).
Proof.
  intros raw M E1 E2. unfold associate_chain, bind.
  rewrite read_online. cbn [store journal schemaCreated]. fold raw.
  rewrite (guarded_write_online raw InsertTags _ _ d1); cbn [store]; trivial.
  2:{ intros R. eapply insert_tags_nil_eq; [exact E1 | now rewrite R]. }
  rewrite guarded_select_online. cbn [store journal schemaCreated].
  pose proof (fetchedTags_eq allTags ns now (store w) d1 E1) as FE.
  fold raw in FE. rewrite FE.
  rewrite read_online. cbn [store journal schemaCreated].
  fold (missing_edges tags0 allTags ns d1). fold M.
  rewrite (guarded_write_online M InsertAssociations _ _ d2); cbn [store]; trivial.
  2:{ intros R. rewrite R in E2. simpl in E2. now injection E2. }
  cbn [store journal schemaCreated]. fold (bumped M).
  rewrite (guarded_write_online (bumped M) UpdateTags _ _
                                (update_counts (bumped M) now' d2));
    cbn [store]; trivial.
  2:{ intros R. rewrite R. now rewrite update_counts_nil. }
  cbn [journal schemaCreated]. f_equal. f_equal.
  unfold chain_journal. rewrite is_empty_bumped.
  destruct (is_empty raw), (is_empty M); simpl;
    repeat rewrite <- app_assoc; reflexivity.
Qed.

Lemma createSchema_online (w : world) :
  ready w ->
  createSchema online w
  = (inl tt, mkWorld (store w) (journal w ++ schema_journal w)
                     (Some (Fulfilled tt))).
Proof.
  unfold ready, createSchema, schema_journal.
  destruct w as [d j [[[]|e]|]]; simpl; intros R.
  - now rewrite app_nil_r.
  - now destruct (R e).
  - reflexivity.
Qed.

(** [associate] on a reachable store: the call fulfils with the effect on
    the rows, inside one transaction. *)
Lemma associate_online (tokens tags0 : list string) (ns : string)
      (now now' : Z) (w : world) (d' : db) :
  ready w -> tokens <> [] -> tags0 <> [] ->
  associate_effect tags0 (uniq String.eqb (tokens ++ tags0)) (or_public ns)
                   now now' (store w) = Some d' ->
  exists sent,
    associate online tokens tags0 ns now now' w
    = (Some (Fulfilled tt),
       mkWorld d' (journal w ++ schema_journal w ++ [Begin] ++ sent ++ [Commit])
               (Some (Fulfilled tt)))
    /\ (xor String.eqb (uniq String.eqb (tokens ++ tags0))
            (pluck_text (select_tags (uniq String.eqb (tokens ++ tags0))
                                     (or_public ns) (store w))) = [] ->
        missing_edges tags0 (uniq String.eqb (tokens ++ tags0)) (or_public ns)
                      (store w) = [] ->
        sent = [SelectTags; SelectAssociations]).
Proof.
  intros R NT NG E. rewrite associate_effect_stages in E.
  set (allTags := uniq String.eqb (tokens ++ tags0)) in *.
  set (raw := xor String.eqb allTags
                  (pluck_text (select_tags allTags (or_public ns) (store w)))) in *.
  destruct (insert_tags _ (store w)) as [d1|] eqn:E1; [|discriminate].
  destruct (insert_assocs _ d1) as [d2|] eqn:E2; [|discriminate].
  injection E as <-.
  exists (chain_journal raw (missing_edges tags0 allTags (or_public ns) d1)).
  split.
  - unfold associate. destruct tokens as [|t tokens]; [congruence|].
    destruct tags0 as [|g tags0]; [congruence|].
    cbn [is_empty orb]. fold allTags. unfold settle, bind.
    rewrite (createSchema_online w R). unfold transaction.
    rewrite read_online. cbn [store journal schemaCreated].
    rewrite (associate_chain_online _ allTags (or_public ns) now now' _ d1 d2);
      cbn [store journal schemaCreated]; trivial.
    rewrite read_online. cbn [store journal schemaCreated].
    f_equal. f_equal. repeat rewrite <- app_assoc. reflexivity.
  - intros Rw Ms. fold raw in Rw.
    assert (d1 = store w) as -> by (eapply insert_tags_nil_eq; [exact E1 | now rewrite Rw]).
    rewrite Rw, Ms. reflexivity.
Qed.

(** ** [describe] and [search] *)

Lemma all_online {A X : Type} (st : statement) (q : X -> db -> A)
      (l : list X) (w : world) :
  all (map (fun x => read online st (q x)) l) w
  = (inl (map (fun x => q x (store w)) l),
     mkWorld (store w) (journal w ++ repeat st (List.length l))
             (schemaCreated w)).
Proof.
  revert w. induction l as [|x l IH]; intros w; cbn [all map List.length repeat].
  - rewrite app_nil_r. now destruct w.
  - rewrite read_online, IH. cbn [store journal schemaCreated].
    now rewrite <- app_assoc.
Qed.

Lemma select_neighbours_In (tok ns : string) (d : db) (j : Z) :
  In j (select_neighbours tok ns d)
  <-> exists q e,
      In q (tags d) /\ text q = tok /\ namespace q = ns
      /\ In e (tags_associations d)
      /\ ((tag_id1 e = id q /\ tag_id2 e = j)
          \/ (tag_id2 e = id q /\ tag_id1 e = j)).
Proof.
  unfold select_neighbours. rewrite in_flat_map. split.
  - intros [e [He H]]. apply in_flat_map in H. destruct H as [q [Hq H]].
    destruct (((tag_id1 e =? id q) || (tag_id2 e =? id q))
              && (text q =? tok)%string && (namespace q =? ns)%string) eqn:C;
      [|contradiction].
    apply andb_true_iff in C. destruct C as [C C3].
    apply andb_true_iff in C. destruct C as [C1 C2].
    apply String.eqb_eq in C2. apply String.eqb_eq in C3.
    exists q, e. repeat (split; [assumption|]).
    destruct (tag_id1 e =? id q) eqn:E1.
    + apply Z.eqb_eq in E1. destruct H as [<-|[]]. auto.
    + simpl in C1. apply Z.eqb_eq in C1. destruct H as [<-|[]]. auto.
  - intros [q [e [Hq [Et [En [He H]]]]]]. exists e. split; [assumption|].
    apply in_flat_map. exists q. split; [assumption|].
    assert (((tag_id1 e =? id q) || (tag_id2 e =? id q))
            && (text q =? tok)%string && (namespace q =? ns)%string = true) as C.
    { rewrite !andb_true_iff, orb_true_iff, !Z.eqb_eq, !String.eqb_eq. tauto. }
    rewrite C. destruct (tag_id1 e =? id q) eqn:E1.
    + apply Z.eqb_eq in E1. left. destruct H as [[_ H]|[H1 H2]]; congruence.
    + apply Z.eqb_neq in E1. left. destruct H as [[H _]|[_ H]]; [contradiction|exact H].
Qed.

Lemma select_texts_In (ids : list Z) (d : db) (txt : string) :
  In txt (select_texts ids d)
  <-> exists r, In r (tags d) /\ text r = txt /\ In (id r) ids.
Proof.
  unfold select_texts. rewrite in_map_iff. split.
  - intros [r [E H]]. apply filter_In in H. destruct H as [H C].
    apply Zcontains_In in C. eauto.
  - intros [r [H [E C]]]. exists r. split; [assumption|].
    apply filter_In. split; [assumption | now apply Zcontains_In].
Qed.

Lemma intersection_all {X : Type} (q : X -> list Z) (l : list X) (j : Z) :
  l <> [] ->
  (In j (intersection Z.eqb (map q l)) <-> forall x, In x l -> In j (q x)).
Proof.
  destruct l as [|x l]; [congruence|]. intros _.
  cbn [map]. rewrite (intersection_In Z.eqb Z.eqb_eq). split.
  - intros [H1 H2] y [<-|Hy]; [assumption|].
    apply H2. apply in_map_iff. eauto.
  - intros H. split; [apply H; now left|].
    intros other Ho. apply in_map_iff in Ho. destruct Ho as [y [<- Hy]].
    apply H. now right.
Qed.

Lemma uniq_not_nil (l : list string) : l <> [] -> uniq String.eqb l <> [].
Proof. destruct l as [|a l]; [congruence|]. discriminate. Qed.

(** [describe] on a reachable store, step by step. *)
Lemma describe_online (tokens : list string) (ns : string) (w : world) :
  tokens <> [] -> ready w ->
  let ids := intersection Z.eqb
               (map (fun tok => select_neighbours tok (or_public ns) (store w))
                    (uniq String.eqb tokens)) in
  exists w',
    describe online tokens ns w
    = (Some (Fulfilled (if is_empty ids then [] else select_texts ids (store w))),
       w')
    /\ store w' = store w.
Proof.
  intros NT R ids. unfold describe.
  destruct tokens as [|t tokens]; [congruence|]. cbn [is_empty].
  unfold settle, bind. rewrite (createSchema_online w R).
  rewrite (all_online SelectNeighbours
                      (fun tok => select_neighbours tok (or_public ns))).
  cbn [store journal schemaCreated]. fold ids.
  destruct (is_empty ids).
  - unfold ret. eexists. split; reflexivity.
  - rewrite read_online. eexists. split; reflexivity.
Qed.

(** C7: if either input collection of [associate] is empty the call is a
    bare return: nothing is sent to the store (the journal is untouched, so
    no transaction is opened) and no row changes; [describe] on an empty
    token list is a bare return as well, with nothing sent.  Neither is a
    rejection.  This holds whether or not the store can be reached. *)
Theorem empty_input_returns_at_once :
  (forall unreachable tgs ns now now' w,
      associate unreachable [] tgs ns now now' w = (None, w))
  /\ (forall unreachable tokens ns now now' w,
         associate unreachable tokens [] ns now now' w = (None, w))
  /\ (forall unreachable ns w, describe unreachable [] ns w = (None, w)).
Proof.
  split; [|split].
  - reflexivity.
  - intros. unfold associate. destruct tokens; reflexivity.
  - reflexivity.
Qed.

(** C4: for a non-empty token list, [describe] fulfils with exactly the
    texts of the rows that are joined, at either end of a stored pair, to a
    row of every query token in the namespace: an id survives the
    intersection only when every per-token query returned it, and the
    surviving ids are resolved to texts.  The store is left as it was. *)
Theorem describe_intersects_neighbourhoods
        (tokens : list string) (ns : string) (w : world) :
  tokens <> [] -> ready w ->
  exists texts w',
    describe online tokens ns w = (Some (Fulfilled texts), w')
    /\ store w' = store w
    /\ forall txt,
        In txt texts
        <-> exists r, In r (tags (store w)) /\ text r = txt
                      /\ forall tok, In tok tokens ->
                                     linked tok (or_public ns) (store w) r.
Proof.
  intros NT R. destruct (describe_online tokens ns w NT R) as [w' [E S]].
  eexists. exists w'. split; [exact E|]. split; [exact S|].
  set (ids := intersection Z.eqb
                (map (fun tok => select_neighbours tok (or_public ns) (store w))
                     (uniq String.eqb tokens))) in *.
  assert (forall j, In j ids
                    <-> forall tok, In tok tokens ->
                                    In j (select_neighbours tok (or_public ns) (store w)))
    as HI.
  { intros j. unfold ids. rewrite intersection_all by now apply uniq_not_nil.
    split; intros H tok Ht; apply H.
    - exact (proj2 (uniq_In String.eqb String.eqb_eq tokens tok) Ht).
    - exact (proj1 (uniq_In String.eqb String.eqb_eq tokens tok) Ht). }
  assert (forall txt, In txt (select_texts ids (store w))
                      <-> exists r, In r (tags (store w)) /\ text r = txt
                                    /\ forall tok, In tok tokens ->
                                         linked tok (or_public ns) (store w) r)
    as HT.
  { intros txt. rewrite select_texts_In. split.
    - intros [r [Hr [Et Hi]]]. exists r. repeat (split; [assumption|]).
      intros tok Ht. apply HI with (tok := tok) in Hi; [|assumption].
      apply select_neighbours_In in Hi. exact Hi.
    - intros [r [Hr [Et Hl]]]. exists r. repeat (split; [assumption|]).
      apply HI. intros tok Ht. apply select_neighbours_In. now apply Hl. }
  intros txt. destruct (is_empty ids) eqn:Ei; [|apply HT].
  apply is_empty_nil in Ei. rewrite <- HT. rewrite Ei.
  unfold select_texts. simpl. rewrite filter_nothing by reflexivity. reflexivity.
Qed.

(** C6: when some token of the list has no row in the namespace, or has
    rows none of which is an end of any stored pair, [describe] fulfils
    with the empty list: the empty neighbour set of that token empties the
    intersection.  It does not reject. *)
Theorem describe_unknown_token_empty
        (tokens : list string) (ns : string) (w : world) (tok : string) :
  ready w -> In tok tokens ->
  (ids_of_label tok (or_public ns) (store w) = []
   \/ forall i e, In i (ids_of_label tok (or_public ns) (store w)) ->
                  In e (tags_associations (store w)) -> touches i e = false) ->
  exists w',
    describe online tokens ns w = (Some (Fulfilled []), w')
    /\ store w' = store w.
Proof.
  intros R Ht H.
  assert (tokens <> []) as NT by (intros ->; contradiction).
  destruct (describe_online tokens ns w NT R) as [w' [E S]].
  exists w'. split; [|exact S]. rewrite E.
  match goal with
  | |- context [is_empty ?ids] => assert (ids = []) as ->; [|reflexivity]
  end.
  apply no_member_nil. intros j Hj.
  rewrite intersection_all in Hj by now apply uniq_not_nil.
  specialize (Hj tok (proj2 (uniq_In String.eqb String.eqb_eq tokens tok) Ht)).
  apply select_neighbours_In in Hj.
  destruct Hj as [q [e [Hq [Et [En [He Hj]]]]]].
  assert (In (id q) (ids_of_label tok (or_public ns) (store w))) as Hi
      by (apply ids_of_label_In; exists q; auto).
  destruct H as [H|H].
  - rewrite H in Hi. contradiction.
  - specialize (H (id q) e Hi He). unfold touches in H.
    apply orb_false_iff in H. destruct H as [H1 H2].
    apply Z.eqb_neq in H1. apply Z.eqb_neq in H2. tauto.
Qed.

(** ** [associate] *)

(** On a consistent, reachable store [associate] fulfils, as long as the
    store refuses no statement for its size. *)
Lemma associate_fulfils (tokens tgs : list string) (ns : string)
      (now now' : Z) (w : world) :
  ready w -> consistent (store w) -> tokens <> [] -> tgs <> [] ->
  exists w', associate online tokens tgs ns now now' w = (Some (Fulfilled tt), w').
Proof.
  intros R C NT NG.
  destruct (effect_goes tgs (uniq String.eqb (tokens ++ tgs)) (or_public ns)
                        now now' (store w) C) as [d' E].
  destruct (associate_online tokens tgs ns now now' w d' R NT NG E) as [sent [H _]].
  eauto.
Qed.

(** The constraints of the schema and the one-row-per-edge rule hold after
    any call, whatever its outcome. *)
Lemma associate_consistent (unreachable : nat -> bool)
      (tokens tgs : list string) (ns : string) (now now' : Z)
      (w w' : world) (r : option (promise unit)) :
  consistent (store w) ->
  associate unreachable tokens tgs ns now now' w = (r, w') ->
  consistent (store w').
Proof.
  intros C H. destruct r as [[[]|e]|].
  - apply associate_fulfilled in H. destruct H as [_ [_ [H _]]].
    eapply effect_consistent; eassumption.
  - apply associate_rejected in H. now rewrite H.
  - unfold associate in H.
    destruct (is_empty tokens || is_empty tgs).
    + now injection H as <-.
    + destruct (settle _ w). discriminate.
Qed.

(** On a consistent store, every text of a fulfilled call has exactly one
    row in the namespace afterwards. *)
Lemma effect_one_row (tags0 allTags : list string) (ns : string)
      (now now' : Z) (d d' : db) (x : string) :
  consistent d ->
  associate_effect tags0 allTags ns now now' d = Some d' ->
  In x allTags ->
  exists i, ids_of_label x ns d' = [i].
Proof.
  intros C H Hx.
  pose proof (effect_consistent _ _ _ _ _ _ _ H C) as [PK UL UE].
  pose proof (effect_labels _ _ _ _ _ _ _ H x Hx) as NE.
  specialize (UL x ns).
  destruct (ids_of_label x ns d') as [|i [|j l]];
    [congruence | eauto | simpl in UL; lia].
Qed.

(** On a consistent store, after a fulfilled call a tag and a token that is
    not a tag have one row each, joined by exactly one edge. *)
Lemma effect_pair_joined (tags0 allTags : list string) (ns : string)
      (now now' : Z) (d d' : db) (t k : string) :
  consistent d ->
  associate_effect tags0 allTags ns now now' d = Some d' ->
  In t allTags -> In t tags0 -> In k allTags -> ~ In k tags0 ->
  exists it ik,
    ids_of_label t ns d' = [it] /\ ids_of_label k ns d' = [ik]
    /\ edges_between it ik d' = 1%nat.
Proof.
  intros C H At Ht Ak Nk.
  pose proof (effect_consistent _ _ _ _ _ _ _ H C) as [PK UL UE].
  destruct (effect_one_row _ _ _ _ _ _ _ t C H At) as [it Et].
  destruct (effect_one_row _ _ _ _ _ _ _ k C H Ak) as [ik Ek].
  exists it, ik. split; [exact Et|]. split; [exact Ek|].
  assert (forall x i, In x allTags -> In i (ids_of_label x ns d') ->
                      In (i, x) (select_tags allTags ns d')) as Sel.
  { intros x i Hx Hi. apply ids_of_label_In in Hi.
    destruct Hi as [r [Hr [Ei [Ex En]]]].
    apply select_tags_In. exists r. subst. auto. }
  destruct (effect_cross _ _ _ _ _ _ _ H it ik) as [e [He S]].
  - apply tagIds_In. exists t. split; [|assumption].
    apply Sel; [assumption | rewrite Et; now left].
  - apply tokenIds_In. exists k. split; [|assumption].
    apply Sel; [assumption | rewrite Ek; now left].
  - specialize (UE it ik). unfold edges_between in *.
    pose proof (filter_length_pos (same_edge it ik) _ e He S). lia.
Qed.

(** After a fulfilled call nothing is left to do for the same texts. *)
Lemma effect_settled (tags0 allTags : list string) (ns : string)
      (now now' : Z) (d d' : db) :
  associate_effect tags0 allTags ns now now' d = Some d' ->
  (forall t, In t allTags -> has_label t ns (tags d') = true)
  /\ (forall i j,
        In i (tagIds_of tags0 (select_tags allTags ns d')) ->
        In j (tokenIds_of tags0 (select_tags allTags ns d')) ->
        exists e, In e (tags_associations d') /\ same_edge i j e = true).
Proof.
  intros H. split.
  - intros t Ht. pose proof (effect_labels _ _ _ _ _ _ _ H t Ht) as NE.
    destruct (has_label t ns (tags d')) eqn:L; trivial.
    apply has_label_ids in L. contradiction.
  - intros i j. eapply effect_cross. exact H.
Qed.

(** A call that has nothing to do changes no row, whatever happens to it,
    and on a reachable store it fulfils having sent two selects inside its
    transaction. *)
Lemma associate_nothing_to_do (tokens tgs : list string) (ns : string)
      (w : world) :
  let allTags := uniq String.eqb (tokens ++ tgs) in
  (forall t, In t allTags -> has_label t (or_public ns) (tags (store w)) = true) ->
  (forall i j,
      In i (tagIds_of tgs (select_tags allTags (or_public ns) (store w))) ->
      In j (tokenIds_of tgs (select_tags allTags (or_public ns) (store w))) ->
      exists e, In e (tags_associations (store w)) /\ same_edge i j e = true) ->
  (forall unreachable now now' r w',
      associate unreachable tokens tgs ns now now' w = (r, w') ->
      store w' = store w)
  /\ (ready w -> tokens <> [] -> tgs <> [] ->
      forall now now',
        associate online tokens tgs ns now now' w
        = (Some (Fulfilled tt),
           mkWorld (store w)
                   (journal w ++ schema_journal w
                    ++ [Begin; SelectTags; SelectAssociations; Commit])
                   (Some (Fulfilled tt)))).
Proof.
  intros allTags HL HE.
  assert (forall now now',
             xor String.eqb allTags
                 (pluck_text (select_tags allTags (or_public ns) (store w))) = []
             /\ missing_edges tgs allTags (or_public ns) (store w) = []
             /\ associate_effect tgs allTags (or_public ns) now now' (store w)
                = Some (store w)) as N
      by (intros; now apply effect_noop).
  split.
  - intros unreachable now now' r w' H. destruct r as [[[]|e]|].
    + apply associate_fulfilled in H. destruct H as [_ [_ [H _]]].
      fold allTags in H. destruct (N now now') as [_ [_ E]]. congruence.
    + now apply associate_rejected in H.
    + unfold associate in H. destruct (is_empty tokens || is_empty tgs).
      * now injection H as <-.
      * destruct (settle _ w). discriminate.
  - intros R NT NG now now'. destruct (N now now') as [Rw [Ms E]].
    destruct (associate_online tokens tgs ns now now' w (store w) R NT NG E)
      as [sent [H S]].
    rewrite H, (S Rw Ms). reflexivity.
Qed.

(** C5: whenever [associate] rejects - whichever statement of the
    transaction failed, by a lost connection or by a violated constraint,
    the commit included - the rows of both tables are exactly those of
    before the call.  More generally a call is all or nothing: the rows it
    leaves are those it found, or those of the whole transaction (labels,
    edges and counters together) and then the call has fulfilled; labels
    created without their edges, or edges inserted without their counter
    updates, are never left behind. *)
Theorem associate_rejected_rolls_back
        (unreachable : nat -> bool) (tokens tgs : list string) (ns : string)
        (now now' : Z) (w w' : world) (r : option (promise unit)) :
  associate unreachable tokens tgs ns now now' w = (r, w') ->
  (forall e, r = Some (Rejected e) -> store w' = store w)
  /\ (store w' = store w
      \/ (r = Some (Fulfilled tt)
          /\ associate_effect tgs (uniq String.eqb (tokens ++ tgs))
                              (or_public ns) now now' (store w)
             = Some (store w'))).
Proof.
  intros H. destruct r as [[[]|e]|].
  - split; [discriminate|]. right. split; [reflexivity|].
    apply associate_fulfilled in H. tauto.
  - apply associate_rejected in H. auto.
  - split; [discriminate|]. left. unfold associate in H.
    destruct (is_empty tokens || is_empty tgs).
    + now injection H as <-.
    + destruct (settle _ w). discriminate.
Qed.

(** C1, as the code has it: after a fulfilled [associate] the edges of
    before are all still there, followed by the new ones; no new edge joins
    two labels that a row already joined; and the counter of a label went
    up by exactly 1 when the label gained at least one new edge (however
    many it gained), and did not move otherwise - labels outside the call
    included. *)
Theorem associate_bumps_counts_once
        (unreachable : nat -> bool) (tokens tgs : list string) (ns : string)
        (now now' : Z) (w w' : world) (u : unit) :
  associate unreachable tokens tgs ns now now' w = (Some (Fulfilled u), w') ->
  tags_associations (store w')
  = tags_associations (store w) ++ new_edges (store w) (store w')
  /\ (forall e, In e (new_edges (store w) (store w')) ->
                edges_between (tag_id1 e) (tag_id2 e) (store w) = 0%nat)
  /\ forall i,
      label_count i (store w')
      = label_count i (store w) + Z.min 1 (gained i (store w) (store w')).
Proof.
  intros H. apply associate_fulfilled in H. destruct H as [_ [_ [H _]]].
  split; [eapply effect_append; eassumption|]. split.
  - intros e He. unfold edges_between.
    rewrite filter_nothing; [reflexivity|].
    intros e' He'.
    destruct (effect_new_edge _ _ _ _ _ _ _ H e He) as [_ [_ N]]. now apply N.
  - intros i. unfold gained. rewrite min_one_length.
    eapply effect_counts; eassumption.
Qed.

(** C3, as the code has it by design: on a consistent store, after a
    fulfilled [associate] every pair of a tag [t] and a token [k] that is
    not itself among the tags is joined by exactly one row, whatever the
    stored order of its ends, between the one row of [t] and the one row of
    [k] in the namespace; no edge the call adds joins a label to itself;
    and every text of either collection that had no row in the namespace
    before the call has exactly one row there after it.  Nothing is stated
    here about a tag and a different text given both as a token and as a
    tag. *)
Theorem associate_joins_cross_pairs
        (unreachable : nat -> bool) (tokens tgs : list string) (ns : string)
        (now now' : Z) (w w' : world) (u : unit) :
  consistent (store w) ->
  associate unreachable tokens tgs ns now now' w = (Some (Fulfilled u), w') ->
  (forall t k, In t tgs -> In k tokens -> ~ In k tgs ->
     exists it ik,
       ids_of_label t (or_public ns) (store w') = [it]
       /\ ids_of_label k (or_public ns) (store w') = [ik]
       /\ edges_between it ik (store w') = 1%nat)
  /\ (forall e, In e (new_edges (store w) (store w')) ->
                tag_id1 e <> tag_id2 e)
  /\ (forall x, In x (tokens ++ tgs) ->
        ids_of_label x (or_public ns) (store w) = [] ->
        exists i, ids_of_label x (or_public ns) (store w') = [i]).
Proof.
  intros C H. apply associate_fulfilled in H. destruct H as [_ [_ [H _]]].
  split; [|split].
  - intros t k Ht Hk Nk. eapply effect_pair_joined; try eassumption.
    + apply (uniq_In String.eqb String.eqb_eq), in_app_iff. now right.
    + apply (uniq_In String.eqb String.eqb_eq), in_app_iff. now left.
  - intros e He. eapply effect_no_loop; eassumption.
  - intros x Hx _. eapply effect_one_row; [exact C | exact H |].
    now apply (uniq_In String.eqb String.eqb_eq).
Qed.

(** C8: on a consistent store, no edge a fulfilled [associate] adds has
    equal ends; and a text given both as a token and as a tag has exactly
    one row in the namespace, whose id the partition of the fetched rows
    puts among [tagIds] and not among [tokenIds], so that it is never the
    token end of a new edge.  (The rows selected here for the texts of the
    call are the chain's own [fetchedTags].) *)
Theorem associate_no_loop_tag_first
        (unreachable : nat -> bool) (tokens tgs : list string) (ns : string)
        (now now' : Z) (w w' : world) (u : unit) :
  consistent (store w) ->
  associate unreachable tokens tgs ns now now' w = (Some (Fulfilled u), w') ->
  let fetchedTags :=
    select_tags (uniq String.eqb (tokens ++ tgs)) (or_public ns) (store w') in
  (forall e, In e (new_edges (store w) (store w')) -> tag_id1 e <> tag_id2 e)
  /\ forall x, In x tokens -> In x tgs ->
       exists i,
         ids_of_label x (or_public ns) (store w') = [i]
         /\ In i (tagIds_of tgs fetchedTags)
         /\ ~ In i (tokenIds_of tgs fetchedTags)
         /\ forall e, In e (new_edges (store w) (store w')) -> tag_id2 e <> i.
Proof.
  intros C H F.
  apply associate_fulfilled in H. destruct H as [_ [_ [H _]]].
  pose proof (effect_consistent _ _ _ _ _ _ _ H C) as [PK UL UE].
  split.
  - intros e He. eapply effect_no_loop; eassumption.
  - intros x Hk Hg.
    destruct (effect_one_row _ _ _ _ _ _ _ x C H) as [i Ei];
      [apply (uniq_In String.eqb String.eqb_eq), in_app_iff; now left|].
    exists i. split; [exact Ei|].
    assert (In i (tagIds_of tgs F)) as Ti.
    { apply tagIds_In. exists x. split; [|assumption].
      assert (In i (ids_of_label x (or_public ns) (store w'))) as Hi
          by (rewrite Ei; now left).
      apply ids_of_label_In in Hi. destruct Hi as [r [Hr [Eid [Ex En]]]].
      apply select_tags_In. exists r. subst. repeat split; trivial.
      apply (uniq_In String.eqb String.eqb_eq), in_app_iff. now left. }
    split; [exact Ti|].
    assert (~ In i (tokenIds_of tgs F)) as Ki
        by (apply classes_disjoint; assumption).
    split; [exact Ki|].
    intros e He E2. apply Ki. rewrite <- E2.
    now destruct (effect_new_edge _ _ _ _ _ _ _ H e He) as [_ [K2 _]].
Qed.

(** C9: a second identical [associate] right after a fulfilled one
    changes no row, whatever its outcome: every label keeps the counter
    and the [updated_at] the first call left; and on a reachable store it
    fulfils having sent, inside its transaction, the two selects only -
    neither insert and no counter update. *)
Theorem associate_again_changes_nothing
        (unreachable1 unreachable2 : nat -> bool) (tokens tgs : list string)
        (ns : string) (now1 now1' now2 now2' : Z)
        (w w1 w2 : world) (u : unit) (r : option (promise unit)) :
  associate unreachable1 tokens tgs ns now1 now1' w = (Some (Fulfilled u), w1) ->
  associate unreachable2 tokens tgs ns now2 now2' w1 = (r, w2) ->
  store w2 = store w1
  /\ (forall i, label_count i (store w2) = label_count i (store w1)
                /\ label_updated_at i (store w2) = label_updated_at i (store w1))
  /\ associate online tokens tgs ns now2 now2' w1
     = (Some (Fulfilled tt),
        mkWorld (store w1)
                (journal w1 ++ [Begin; SelectTags; SelectAssociations; Commit])
                (Some (Fulfilled tt))).
Proof.
  intros H1 H2. apply associate_fulfilled in H1.
  destruct H1 as [NT [NG [E SC]]].
  destruct (effect_settled _ _ _ _ _ _ _ E) as [HL HE].
  destruct (associate_nothing_to_do tokens tgs ns w1 HL HE) as [Any On].
  assert (store w2 = store w1) as S by (eapply Any; exact H2).
  split; [exact S|]. split; [intros i; now rewrite S|].
  rewrite On; trivial.
  - unfold schema_journal. rewrite SC. reflexivity.
  - intros e. rewrite SC. discriminate.
Qed.

(** C2, as the code has it: for two distinct texts [a] and [b] and a
    consistent store, after a fulfilled [associate([a],[b])] a fulfilled
    second call - the same again, or with the two texts exchanged - leaves
    both tables as they were (no new label row, no new edge), and the one
    row of [a] and the one row of [b] in the namespace are joined by exactly
    one stored pair, counted in either order of its ends. *)
Theorem associate_twice_one_edge
        (unreachable1 unreachable2 : nat -> bool) (a b ns : string)
        (now1 now1' now2 now2' : Z) (tokens2 tags2 : list string)
        (w w1 w2 : world) (u1 u2 : unit) :
  a <> b ->
  consistent (store w) ->
  associate unreachable1 [a] [b] ns now1 now1' w = (Some (Fulfilled u1), w1) ->
  (tokens2 = [a] /\ tags2 = [b]) \/ (tokens2 = [b] /\ tags2 = [a]) ->
  associate unreachable2 tokens2 tags2 ns now2 now2' w1
  = (Some (Fulfilled u2), w2) ->
  tags (store w2) = tags (store w1)
  /\ tags_associations (store w2) = tags_associations (store w1)
  /\ exists ia ib,
      ids_of_label a (or_public ns) (store w2) = [ia]
      /\ ids_of_label b (or_public ns) (store w2) = [ib]
      /\ edges_between ia ib (store w2) = 1%nat.
Proof.
  intros Nab C H1 Order H2. apply associate_fulfilled in H1.
  destruct H1 as [_ [_ [E _]]].
  destruct (effect_settled _ _ _ _ _ _ _ E) as [HL HE].
  assert (forall x, In x (uniq String.eqb ([a] ++ [b])) <-> x = a \/ x = b) as AB.
  { intros x. rewrite (uniq_In String.eqb String.eqb_eq). simpl. intuition. }
  assert (store w2 = store w1) as S.
  { destruct Order as [[-> ->]|[-> ->]].
    - destruct (associate_nothing_to_do [a] [b] ns w1 HL HE) as [Any _].
      eapply Any. exact H2.
    - assert (forall x, In x (uniq String.eqb ([b] ++ [a])) <-> x = a \/ x = b) as BA.
      { intros x. rewrite (uniq_In String.eqb String.eqb_eq). simpl. intuition. }
      destruct (associate_nothing_to_do [b] [a] ns w1) as [Any _].
      + intros t Ht. apply HL. apply AB. now apply BA.
      + intros i j Hi Hj.
        apply tagIds_In in Hi. destruct Hi as [x [Hx Tx]].
        apply tokenIds_In in Hj. destruct Hj as [y [Hy Ty]].
        apply select_tags_In in Hx. destruct Hx as [rx [Hrx [Ex [Mx Nx]]]].
        apply select_tags_In in Hy. destruct Hy as [ry [Hry [Ey [My Ny]]]].
        injection Ex as -> ->. injection Ey as -> ->.
        simpl in Tx. destruct Tx as [Tx|[]].
        apply BA in My. simpl in Ty.
        assert (text ry = b) as Tb by (destruct My; [exfalso; auto | assumption]).
        destruct (HE (id ry) (id rx)) as [e [He Se]].
        * apply tagIds_In. exists b. split; [|now left].
          apply select_tags_In. exists ry. rewrite Tb. repeat split; trivial.
          apply AB. now right.
        * apply tokenIds_In. exists a. split.
          -- apply select_tags_In. exists rx. rewrite <- Tx.
             repeat split; trivial. apply AB. left. now symmetry.
          -- simpl. intros [Eq|[]]. now apply Nab.
        * exists e. split; [assumption|]. now rewrite same_edge_sym.
      + eapply Any. exact H2. }
  rewrite S. split; [reflexivity|]. split; [reflexivity|].
  destruct (effect_pair_joined [b] _ _ _ _ _ _ b a C E) as [ib [ia [Eb [Ea One]]]].
  - apply AB. now right.
  - now left.
  - apply AB. now left.
  - simpl. intros [Eq|[]]. now apply Nab.
  - exists ia, ib. split; [exact Ea|]. split; [exact Eb|].
    unfold edges_between in *. rewrite <- One. f_equal.
    apply filter_ext. intros e. apply same_edge_sym.
Qed.

Lemma like_any_run (pattern s : list ascii) :
  like pattern [] = true -> like ("%"%char :: pattern) s = true.
Proof.
  intros H. induction s as [|c s IH].
  - simpl. now rewrite H.
  - simpl in *. rewrite IH. apply orb_true_r.
Qed.

Lemma like_percents (s : list ascii) :
  like (list_ascii_of_string "%%%") s = true.
Proof.
  simpl list_ascii_of_string. repeat apply like_any_run. reflexivity.
Qed.

(** C10: [search] puts its input, as it is, between two [%] of a LIKE
    pattern, so the wildcards of the input work as wildcards.  For every
    namespace and reachable store, [search('%')] fulfils with the text of
    every label of the namespace, in table order, whether or not the text
    holds a [%]; and a query with [_] finds a label that does not hold the
    query as a run of characters: ["h_l"] finds ["hello"]. *)
Theorem search_wildcards_are_live (ns : string) (w : world) :
  ready w ->
  (exists w',
      search online "%" ns w
      = (Some (Fulfilled
                 (map text
                      (filter (fun r => String.eqb (namespace r) (or_public ns))
                              (tags (store w))))), w')
      /\ store w' = store w)
  /\ (exists w',
         search online "h_l" "public"
                (mkWorld (mkDb [mkTag 1 "hello" "public" 0 0 0] [] 1) [] None)
         = (Some (Fulfilled ["hello"%string]), w')
         /\ occurs "h_l" "hello" = false).
Proof.
  intros R. split.
  - unfold search. unfold settle, bind. rewrite (createSchema_online w R).
    rewrite read_online. cbn [store journal schemaCreated].
    change ("%" ++ "%" ++ "%")%string with "%%%"%string.
    assert (select_like "%%%" (or_public ns) (store w)
            = map text
                  (filter (fun r => String.eqb (namespace r) (or_public ns))
                          (tags (store w)))) as ->.
    { unfold select_like. f_equal. apply filter_ext. intros r.
      now rewrite like_percents. }
    eexists. split; reflexivity.
  - eexists. split; [vm_compute; reflexivity | reflexivity].
Qed.

(** ** The invariant of the store *)

Lemma keeps_ret {A : Type} (a : A) : keeps_store (ret a).
Proof. intros w r w' E. unfold ret in E. now injection E as _ <-. Qed.

Lemma keeps_bind {A B : Type} (m : M A) (k : A -> M B) :
  keeps_store m -> (forall a, keeps_store (k a)) -> keeps_store (bind m k).
Proof.
  intros Hm Hk w r w' E. unfold bind in E.
  destruct (m w) as [[a|e] w1] eqn:Em.
  - rewrite (Hk a w1 r w' E). eapply Hm. exact Em.
  - injection E as _ <-. eapply Hm. exact Em.
Qed.

Lemma keeps_read {A : Type} (unreachable : nat -> bool) (st : statement)
      (q : db -> A) :
  keeps_store (read unreachable st q).
Proof.
  intros w r w' E. unfold read, send in E.
  destruct (unreachable _); now injection E as _ <-.
Qed.

Lemma keeps_createSchema (unreachable : nat -> bool) :
  keeps_store (createSchema unreachable).
Proof. intros w r w' E. eapply createSchema_store. exact E. Qed.

Lemma keeps_all {A : Type} (queries : list (M A)) :
  (forall q, In q queries -> keeps_store q) -> keeps_store (all queries).
Proof.
  induction queries as [|q rest IH]; intros H w r w' E; simpl in E.
  - now injection E as _ <-.
  - destruct (q w) as [r1 w1] eqn:E1.
    destruct (all rest w1) as [rs w2] eqn:E2.
    injection E as _ <-.
    rewrite (IH (fun q' Hq' => H q' (or_intror Hq')) w1 rs w2 E2).
    eapply (H q); [now left | exact E1].
Qed.

Lemma describe_store (unreachable : nat -> bool) (tokens : list string)
      (ns : string) (w w' : world) (r : option (promise (list string))) :
  describe unreachable tokens ns w = (r, w') -> store w' = store w.
Proof.
  unfold describe. destruct (is_empty tokens).
  - intros E. now injection E as _ <-.
  - unfold settle.
    match goal with
    | |- context [bind ?m ?k w] =>
        assert (keeps_store (bind m k)) as K;
          [|destruct (bind m k w) as [[x|e] w0] eqn:B;
            intros E; injection E as _ <-; eapply K; exact B]
    end.
    apply keeps_bind; [apply keeps_createSchema|]. intros _.
    apply keeps_bind.
    + apply keeps_all. intros q Hq. apply in_map_iff in Hq.
      destruct Hq as [tok [<- _]]. apply keeps_read.
    + intros allIds. destruct (is_empty _); [apply keeps_ret | apply keeps_read].
Qed.

Lemma search_store (unreachable : nat -> bool) (txt ns : string)
      (w w' : world) (r : option (promise (list string))) :
  search unreachable txt ns w = (r, w') -> store w' = store w.
Proof.
  unfold search. destruct txt as [|c txt].
  - intros E. now injection E as _ <-.
  - unfold settle.
    match goal with
    | |- context [bind ?m ?k w] =>
        assert (keeps_store (bind m k)) as K;
          [|destruct (bind m k w) as [[x|e] w0] eqn:B;
            intros E; injection E as _ <-; eapply K; exact B]
    end.
    apply keeps_bind; [apply keeps_createSchema|]. intros _. apply keeps_read.
Qed.

Lemma consistent_empty : consistent empty_db.
Proof.
  constructor; simpl.
  - constructor.
  - intros txt ns. simpl. lia.
  - intros x y. unfold edges_between. simpl. lia.
Qed.

(** Every store the operations lead to from empty tables satisfies the
    constraints of the schema and holds each edge once, in one order. *)
Lemma reachable_consistent (w : world) : reachable w -> consistent (store w).
Proof.
  induction 1 as [| ur tokens tgs ns now now' w r w' _ IH H
                  | ur tokens ns w r w' _ IH H
                  | ur txt ns w r w' _ IH H].
  - exact consistent_empty.
  - eapply associate_consistent; eassumption.
  - now rewrite (describe_store _ _ _ _ _ _ H).
  - now rewrite (search_store _ _ _ _ _ _ H).
Qed.

(** ** The expectations of the test suite *)

Open Scope string_scope.
Open Scope list_scope.

Example test_associate_tags_with_tokens :
  map text (tags (store john_world)) = ["john"; "hello"; "yes"]
  /\ map values (tags_associations (store john_world)) = [[2; 1]; [3; 1]].
Proof. split; reflexivity. Qed.

Example test_associate_using_namespaces :
  let w := snd (associate online ["john"] ["hello"; "yes"] "private" 10 11 fresh) in
  map (fun r => (text r, namespace r)) (tags (store w))
  = [("john", "private"); ("hello", "private"); ("yes", "private")]
  /\ map values (tags_associations (store w)) = [[2; 1]; [3; 1]].
Proof. split; vm_compute; reflexivity. Qed.

Example test_associate_only_unique_values :
  let w := snd (associate online ["another"] ["john"; "peter"] "" 20 21
                          john_world) in
  map text (tags (store w)) = ["john"; "hello"; "yes"; "another"; "peter"]
  /\ map values (tags_associations (store w))
     = [[2; 1]; [3; 1]; [1; 4]; [5; 4]].
Proof. split; vm_compute; reflexivity. Qed.

Example test_associate_in_reverse :
  let w1 := snd (associate online ["john"] ["hello"] "" 10 11 fresh) in
  let w2 := snd (associate online ["hello"] ["john"] "" 20 21 w1) in
  map text (tags (store w2)) = ["john"; "hello"]
  /\ map values (tags_associations (store w2)) = [[2; 1]].
Proof. split; vm_compute; reflexivity. Qed.

Example test_describe :
  fst (describe online ["what"] "" describe_fixture) = Some (Fulfilled ["peter"])
  /\ fst (describe online ["peter"] "" describe_fixture)
     = Some (Fulfilled ["what"])
  /\ fst (describe online ["nope"] "private" describe_fixture)
     = Some (Fulfilled ["peter"])
  /\ fst (describe online ["peter"] "private" describe_fixture)
     = Some (Fulfilled ["nope"]).
Proof. repeat split; vm_compute; reflexivity. Qed.

Example test_search :
  fst (search online "duck" "" search_fixture)
  = Some (Fulfilled ["http://duckduckgo.com/"; "http://ducksrus.com/";
                     "introDUCKtion"])
  /\ fst (search online "CAT" "private" search_fixture)
     = Some (Fulfilled ["I am a cat too... not!"]).
Proof. split; vm_compute; reflexivity. Qed.

Example test_equalArrays :
  equalArrays [3; 1] [1; 3] = true /\ equalArrays [3; 1] [3; 1] = true
  /\ equalArrays [3; 1] [3; 2] = false.
Proof. repeat split. Qed.

(** ** The claims on the stores of the test suite *)

Lemma ready_john : ready john_world.
Proof. intros e. discriminate. Qed.

Lemma associate_rejected_rolls_back_witness :
  let w' := mkWorld empty_db
                    [Schema; Begin; SelectTags; InsertTags; SelectTags;
                     SelectAssociations; InsertAssociations; Rollback]
                    (Some (Fulfilled tt)) in
  let r := Some (Rejected ConnectionLost) in
  associate lost_at_edges ["john"] ["hello"; "yes"] "" 10 11 fresh = (r, w')
  /\ (forall e, r = Some (Rejected e) -> store w' = store fresh)
  /\ (store w' = store fresh
      \/ (r = Some (Fulfilled tt)
          /\ associate_effect ["hello"; "yes"]
                              (uniq String.eqb (["john"] ++ ["hello"; "yes"]))
                              (or_public "") 10 11 (store fresh)
             = Some (store w'))).
Proof.
  intros w' r. split; [vm_compute; reflexivity|].
  apply (associate_rejected_rolls_back lost_at_edges ["john"] ["hello"; "yes"]
                                       "" 10 11 fresh w' r).
  vm_compute. reflexivity.
Defined.

Lemma associate_bumps_counts_once_witness :
  associate online ["john"] ["hello"; "yes"] "" 10 11 fresh
  = (Some (Fulfilled tt), john_world)
  /\ tags_associations (store john_world)
     = tags_associations (store fresh)
       ++ new_edges (store fresh) (store john_world)
  /\ (forall e, In e (new_edges (store fresh) (store john_world)) ->
                edges_between (tag_id1 e) (tag_id2 e) (store fresh) = 0%nat)
  /\ forall i,
      label_count i (store john_world)
      = label_count i (store fresh)
        + Z.min 1 (gained i (store fresh) (store john_world)).
Proof.
  split; [vm_compute; reflexivity|].
  apply (associate_bumps_counts_once online ["john"] ["hello"; "yes"] "" 10 11
                                     fresh john_world tt).
  vm_compute. reflexivity.
Defined.

(** C1 as stated fails: on empty tables
    [associate(['john'], ['hello', 'yes'])] gives label 1 (john) two new
    edges, and its counter goes from 0 to 1, not to 2. *)
Lemma count_is_not_the_number_of_new_edges :
  associate online ["john"] ["hello"; "yes"] "" 10 11 fresh
  = (Some (Fulfilled tt), john_world)
  /\ ids_of_label "john" "public" (store john_world) = [1]
  /\ gained 1 (store fresh) (store john_world) = 2
  /\ label_count 1 (store fresh) = 0
  /\ label_count 1 (store john_world) = 1
  /\ label_count 1 (store john_world)
     <> label_count 1 (store fresh) + gained 1 (store fresh) (store john_world).
Proof.
  repeat split; try (vm_compute; reflexivity).
  vm_compute. discriminate.
Qed.

Lemma associate_joins_cross_pairs_witness :
  consistent (store fresh)
  /\ associate online ["john"] ["hello"; "yes"] "" 10 11 fresh
     = (Some (Fulfilled tt), john_world)
  /\ (forall t k, In t ["hello"; "yes"] -> In k ["john"] ->
                  ~ In k ["hello"; "yes"] ->
        exists it ik,
          ids_of_label t (or_public "") (store john_world) = [it]
          /\ ids_of_label k (or_public "") (store john_world) = [ik]
          /\ edges_between it ik (store john_world) = 1%nat)
  /\ (forall e, In e (new_edges (store fresh) (store john_world)) ->
                tag_id1 e <> tag_id2 e)
  /\ (forall x, In x (["john"] ++ ["hello"; "yes"]) ->
        ids_of_label x (or_public "") (store fresh) = [] ->
        exists i, ids_of_label x (or_public "") (store john_world) = [i]).
Proof.
  split; [exact consistent_empty|].
  split; [vm_compute; reflexivity|].
  apply (associate_joins_cross_pairs online ["john"] ["hello"; "yes"] "" 10 11
                                     fresh john_world tt).
  - exact consistent_empty.
  - vm_compute. reflexivity.
Defined.

(** C3 as stated fails, in two ways.  With ['a'] as tokens and as tags,
    the pair (a, a) is a cross pair, the call fulfils, and no row joins
    label 1 to itself (the table of edges stays empty).  With ['a', 'b'] as
    tokens and ['a', 'c'] as tags, the pair of tag c and token a is a cross
    pair of two labels, the call fulfils with the edges (1, 2) and (3, 2),
    and no row joins label 3 (c) to label 1 (a). *)
Lemma cross_pair_of_shared_text_not_joined :
  consistent (store fresh)
  /\ (exists w',
         associate online ["a"] ["a"] "" 10 11 fresh = (Some (Fulfilled tt), w')
         /\ In "a" ["a"]
         /\ ids_of_label "a" "public" (store w') = [1]
         /\ tags_associations (store w') = []
         /\ edges_between 1 1 (store w') <> 1%nat)
  /\ (exists w',
         associate online ["a"; "b"] ["a"; "c"] "" 10 11 fresh
         = (Some (Fulfilled tt), w')
         /\ In "c" ["a"; "c"] /\ In "a" ["a"; "b"]
         /\ ids_of_label "c" "public" (store w') = [3]
         /\ ids_of_label "a" "public" (store w') = [1]
         /\ tags_associations (store w') = [mkAssoc 1 2; mkAssoc 3 2]
         /\ edges_between 3 1 (store w') <> 1%nat).
Proof.
  split; [exact consistent_empty|]. split.
  - eexists. split; [vm_compute; reflexivity|].
    split; [now left|].
    split; [vm_compute; reflexivity|].
    split; [vm_compute; reflexivity|].
    vm_compute. discriminate.
  - eexists. split; [vm_compute; reflexivity|].
    split; [right; now left|]. split; [now left|].
    split; [vm_compute; reflexivity|].
    split; [vm_compute; reflexivity|].
    split; [vm_compute; reflexivity|].
    vm_compute. discriminate.
Qed.

Lemma associate_no_loop_tag_first_witness :
  consistent (store fresh)
  /\ associate online ["a"; "b"] ["a"] "" 10 11 fresh
     = (Some (Fulfilled tt),
        snd (associate online ["a"; "b"] ["a"] "" 10 11 fresh))
  /\ let w' := snd (associate online ["a"; "b"] ["a"] "" 10 11 fresh) in
     let fetchedTags :=
       select_tags (uniq String.eqb (["a"; "b"] ++ ["a"])) (or_public "")
                   (store w') in
     (forall e, In e (new_edges (store fresh) (store w')) ->
                tag_id1 e <> tag_id2 e)
     /\ forall x, In x ["a"; "b"] -> In x ["a"] ->
          exists i,
            ids_of_label x (or_public "") (store w') = [i]
            /\ In i (tagIds_of ["a"] fetchedTags)
            /\ ~ In i (tokenIds_of ["a"] fetchedTags)
            /\ forall e, In e (new_edges (store fresh) (store w')) ->
                         tag_id2 e <> i.
Proof.
  split; [exact consistent_empty|].
  split; [vm_compute; reflexivity|].
  apply (associate_no_loop_tag_first online ["a"; "b"] ["a"] "" 10 11 fresh
                                     _ tt).
  - exact consistent_empty.
  - vm_compute. reflexivity.
Defined.

Lemma associate_again_changes_nothing_witness :
  associate online ["john"] ["hello"; "yes"] "" 10 11 fresh
  = (Some (Fulfilled tt), john_world)
  /\ associate lost_at_edges ["john"] ["hello"; "yes"] "" 20 21 john_world
     = (Some (Fulfilled tt),
        snd (associate lost_at_edges ["john"] ["hello"; "yes"] "" 20 21
                       john_world))
  /\ let w2 := snd (associate lost_at_edges ["john"] ["hello"; "yes"] "" 20 21
                              john_world) in
     store w2 = store john_world
     /\ (forall i,
            label_count i (store w2) = label_count i (store john_world)
            /\ label_updated_at i (store w2)
               = label_updated_at i (store john_world))
     /\ associate online ["john"] ["hello"; "yes"] "" 20 21 john_world
        = (Some (Fulfilled tt),
           mkWorld (store john_world)
                   (journal john_world
                    ++ [Begin; SelectTags; SelectAssociations; Commit])
                   (Some (Fulfilled tt))).
Proof.
  split; [vm_compute; reflexivity|].
  split; [vm_compute; reflexivity|].
  apply (associate_again_changes_nothing
           online lost_at_edges ["john"] ["hello"; "yes"] "" 10 11 20 21
           fresh john_world _ tt (Some (Fulfilled tt))).
  - vm_compute. reflexivity.
  - vm_compute. reflexivity.
Defined.

Lemma associate_twice_one_edge_witness :
  "john" <> "hello"
  /\ consistent (store fresh)
  /\ associate online ["john"] ["hello"] "" 10 11 fresh
     = (Some (Fulfilled tt),
        snd (associate online ["john"] ["hello"] "" 10 11 fresh))
  /\ let w1 := snd (associate online ["john"] ["hello"] "" 10 11 fresh) in
     let w2 := snd (associate online ["hello"] ["john"] "" 20 21 w1) in
     associate online ["hello"] ["john"] "" 20 21 w1 = (Some (Fulfilled tt), w2)
     /\ tags (store w2) = tags (store w1)
     /\ tags_associations (store w2) = tags_associations (store w1)
     /\ exists ia ib,
         ids_of_label "john" (or_public "") (store w2) = [ia]
         /\ ids_of_label "hello" (or_public "") (store w2) = [ib]
         /\ edges_between ia ib (store w2) = 1%nat.
Proof.
  split; [discriminate|].
  split; [exact consistent_empty|].
  split; [vm_compute; reflexivity|].
  split; [vm_compute; reflexivity|].
  apply (associate_twice_one_edge online online "john" "hello" "" 10 11 20 21
                                  ["hello"] ["john"] fresh _ _ tt tt).
  - discriminate.
  - exact consistent_empty.
  - vm_compute. reflexivity.
  - right. split; reflexivity.
  - vm_compute. reflexivity.
Defined.

(** C2 as stated fails for a text paired with itself: after
    [associate(['a'],['a'])] twice there is one label and no edge at all,
    so not exactly one. *)
Lemma same_text_twice_no_edge :
  consistent (store fresh)
  /\ exists w1 w2,
      associate online ["a"] ["a"] "" 10 11 fresh = (Some (Fulfilled tt), w1)
      /\ associate online ["a"] ["a"] "" 20 21 w1 = (Some (Fulfilled tt), w2)
      /\ ids_of_label "a" "public" (store w2) = [1]
      /\ tags_associations (store w2) = []
      /\ edges_between 1 1 (store w2) <> 1%nat.
Proof.
  split; [exact consistent_empty|].
  eexists. eexists. split; [vm_compute; reflexivity|].
  split; [vm_compute; reflexivity|].
  repeat split; try (vm_compute; reflexivity).
  vm_compute. discriminate.
Qed.

Lemma describe_intersects_neighbourhoods_witness :
  ["hello"; "yes"] <> []
  /\ ready john_world
  /\ exists texts w',
      describe online ["hello"; "yes"] "" john_world
      = (Some (Fulfilled texts), w')
      /\ store w' = store john_world
      /\ forall txt,
          In txt texts
          <-> exists r, In r (tags (store john_world)) /\ text r = txt
                        /\ forall tok, In tok ["hello"; "yes"] ->
                             linked tok (or_public "") (store john_world) r.
Proof.
  split; [discriminate|]. split; [exact ready_john|].
  apply (describe_intersects_neighbourhoods ["hello"; "yes"] "" john_world).
  - discriminate.
  - exact ready_john.
Defined.

Lemma describe_unknown_token_empty_witness :
  ready john_world
  /\ In "zzz" ["hello"; "zzz"]
  /\ ids_of_label "zzz" (or_public "") (store john_world) = []
  /\ exists w',
      describe online ["hello"; "zzz"] "" john_world = (Some (Fulfilled []), w')
      /\ store w' = store john_world.
Proof.
  split; [exact ready_john|].
  split; [right; now left|].
  split; [reflexivity|].
  apply (describe_unknown_token_empty ["hello"; "zzz"] "" john_world "zzz").
  - exact ready_john.
  - right. now left.
  - left. reflexivity.
Defined.

Lemma search_wildcards_are_live_witness :
  ready john_world
  /\ (exists w',
         search online "%" "" john_world
         = (Some (Fulfilled
                    (map text
                         (filter (fun r => String.eqb (namespace r)
                                                      (or_public ""))
                                 (tags (store john_world))))), w')
         /\ store w' = store john_world)
  /\ (exists w',
         search online "h_l" "public"
                (mkWorld (mkDb [mkTag 1 "hello" "public" 0 0 0] [] 1) [] None)
         = (Some (Fulfilled ["hello"]), w')
         /\ occurs "h_l" "hello" = false).
Proof.
  split; [exact ready_john|].
  apply (search_wildcards_are_live "" john_world). exact ready_john.
Defined.


(** * Further properties of the module *)

(** ** [createSchema] *)

(** [createSchema] is memoised: whatever the first call did, a later call
    settles the same way, sends nothing and changes nothing, whether or not
    the store can be reached by then; and the first call sends the schema
    exchange only when no memo was set. *)
Theorem createSchema_settles_once
        (unreachable1 unreachable2 : nat -> bool) (w w1 : world)
        (r : unit + error) :
  createSchema unreachable1 w = (r, w1) ->
  createSchema unreachable2 w1 = (r, w1)
  /\ schemaCreated w1 <> None
  /\ store w1 = store w
  /\ journal w1 = journal w ++ schema_journal w.
Proof.
  unfold createSchema, schema_journal.
  destruct w as [d j [[[]|e]|]]; cbn [schemaCreated store journal].
  - intros E. injection E as <- <-. cbn. rewrite app_nil_r.
    repeat split; discriminate.
  - intros E. injection E as <- <-. cbn. rewrite app_nil_r.
    repeat split; discriminate.
  - unfold read, send. cbn [journal store schemaCreated].
    destruct (unreachable1 (List.length j)); intros E; injection E as <- <-;
      cbn; repeat split; discriminate.
Qed.

Lemma createSchema_settles_once_witness :
  createSchema (fun _ => true) fresh
  = (inr ConnectionLost,
     mkWorld empty_db [Schema] (Some (Rejected ConnectionLost)))
  /\ createSchema online
                  (mkWorld empty_db [Schema] (Some (Rejected ConnectionLost)))
     = (inr ConnectionLost,
        mkWorld empty_db [Schema] (Some (Rejected ConnectionLost)))
  /\ schemaCreated (mkWorld empty_db [Schema] (Some (Rejected ConnectionLost)))
     <> None
  /\ store (mkWorld empty_db [Schema] (Some (Rejected ConnectionLost)))
     = store fresh
  /\ journal (mkWorld empty_db [Schema] (Some (Rejected ConnectionLost)))
     = journal fresh ++ schema_journal fresh.
Proof.
  split; [reflexivity|].
  apply (createSchema_settles_once (fun _ => true) online fresh _
                                   (inr ConnectionLost)).
  reflexivity.
Defined.

(** Once the schema memo holds a rejection, every operation with a
    non-empty input rejects with that same reason, at once: nothing is sent
    to the store and the world is as before, even when the store can be
    reached again. *)
Theorem rejected_schema_memo_is_final
        (unreachable : nat -> bool) (w : world) (e : error) :
  schemaCreated w = Some (Rejected e) ->
  (forall tokens tgs ns now now',
      tokens <> [] -> tgs <> [] ->
      associate unreachable tokens tgs ns now now' w = (Some (Rejected e), w))
  /\ (forall tokens ns,
         tokens <> [] ->
         describe unreachable tokens ns w = (Some (Rejected e), w))
  /\ (forall txt ns,
         txt <> "" ->
         search unreachable txt ns w = (Some (Rejected e), w)).
Proof.
  intros SC. split; [|split].
  - intros tokens tgs ns now now' NT NG. unfold associate.
    destruct tokens as [|t tokens]; [congruence|].
    destruct tgs as [|g tgs]; [congruence|].
    cbn [is_empty orb]. unfold settle, bind, createSchema. now rewrite SC.
  - intros tokens ns NT. unfold describe.
    destruct tokens as [|t tokens]; [congruence|].
    cbn [is_empty]. unfold settle, bind, createSchema. now rewrite SC.
  - intros txt ns NT. unfold search.
    destruct txt as [|c txt]; [congruence|].
    unfold settle, bind, createSchema. now rewrite SC.
Qed.

Lemma rejected_schema_memo_is_final_witness :
  let w := snd (associate (fun _ => true) ["john"] ["hello"] "" 10 11 fresh) in
  schemaCreated w = Some (Rejected ConnectionLost)
  /\ (forall tokens tgs ns now now',
         tokens <> [] -> tgs <> [] ->
         associate online tokens tgs ns now now' w
         = (Some (Rejected ConnectionLost), w))
  /\ (forall tokens ns,
         tokens <> [] ->
         describe online tokens ns w = (Some (Rejected ConnectionLost), w))
  /\ (forall txt ns,
         txt <> "" ->
         search online txt ns w = (Some (Rejected ConnectionLost), w)).
Proof.
  intros w. split; [reflexivity|].
  apply (rejected_schema_memo_is_final online w ConnectionLost). reflexivity.
Defined.

(** ** [equalArrays] *)

Lemma isEqual_eq (a b : list Z) : isEqual Z.eqb a b = true <-> a = b.
Proof.
  revert b. induction a as [|x a IH]; intros [|y b]; simpl;
    try (split; congruence).
  rewrite andb_true_iff, Z.eqb_eq, IH. split; [intros [-> ->]; trivial|].
  intros E. now inversion E.
Qed.

(** [equalArrays] holds exactly when the two arrays are equal or one is the
    other reversed, for arrays of any length; so it does not depend on the
    order of its two arguments. *)
Theorem equalArrays_up_to_reversal (arr1 arr2 : list Z) :
  (equalArrays arr1 arr2 = true <-> arr1 = arr2 \/ arr1 = rev arr2)
  /\ equalArrays arr1 arr2 = equalArrays arr2 arr1.
Proof.
  assert (forall a b, equalArrays a b = true <-> a = b \/ a = rev b) as H.
  { intros a b. unfold equalArrays. now rewrite orb_true_iff, !isEqual_eq. }
  split; [apply H|].
  destruct (equalArrays arr1 arr2) eqn:E1, (equalArrays arr2 arr1) eqn:E2;
    trivial.
  - apply H in E1. assert (equalArrays arr2 arr1 = true) as X.
    { apply H. destruct E1 as [->| ->]; [now left | right; now rewrite rev_involutive]. }
    congruence.
  - apply H in E2. assert (equalArrays arr1 arr2 = true) as X.
    { apply H. destruct E2 as [->| ->]; [now left | right; now rewrite rev_involutive]. }
    congruence.
Qed.

(** The in-place reversal is harmless for the verdict: [equalArrays]
    answers as the comparison without side effect does, leaves its second
    array as it was when the arrays are equal and reversed otherwise, and a
    second call on the array it left answers the same. *)
Theorem equalArrays_reversal_keeps_verdict (arr1 arr2 : list Z) :
  fst (equalArrays_inplace arr1 arr2) = equalArrays arr1 arr2
  /\ (snd (equalArrays_inplace arr1 arr2) = arr2
      \/ snd (equalArrays_inplace arr1 arr2) = rev arr2 /\ arr1 <> arr2)
  /\ fst (equalArrays_inplace arr1 (snd (equalArrays_inplace arr1 arr2)))
     = fst (equalArrays_inplace arr1 arr2).
Proof.
  unfold equalArrays_inplace, equalArrays.
  destruct (isEqual Z.eqb arr1 arr2) eqn:E; cbn [fst snd].
  - rewrite E. cbn. auto.
  - split; [reflexivity|]. split.
    + right. split; [reflexivity|]. intros N. apply isEqual_eq in N. congruence.
    + destruct (isEqual Z.eqb arr1 (rev arr2)) eqn:R; cbn [fst]; trivial.
      now rewrite rev_involutive, E.
Qed.

(** ** What the operations send *)

Lemma sends_ret (P : statement -> bool) {A : Type} (a : A) : sends P (ret a).
Proof.
  intros w r w' E. unfold ret in E. injection E as _ <-.
  exists []. now rewrite app_nil_r.
Qed.

Lemma sends_bind (P : statement -> bool) {A B : Type} (m : M A) (k : A -> M B) :
  sends P m -> (forall a, sends P (k a)) -> sends P (bind m k).
Proof.
  intros Hm Hk w r w' E. unfold bind in E.
  destruct (m w) as [[a|e] w1] eqn:Em.
  - destruct (Hm _ _ _ Em) as [s1 [J1 F1]].
    destruct (Hk a _ _ _ E) as [s2 [J2 F2]].
    exists (s1 ++ s2). rewrite J2, J1, <- app_assoc, forallb_app, F1, F2. auto.
  - injection E as _ <-. eapply Hm. exact Em.
Qed.

Lemma sends_send (P : statement -> bool) (unreachable : nat -> bool)
      {A : Type} (st : statement) (run : db -> option (A * db)) :
  P st = true -> sends P (send unreachable st run).
Proof.
  intros HP w r w' E. exists [st]. simpl. rewrite HP. split; [|reflexivity].
  unfold send in E. destruct (unreachable _); [now injection E as _ <-|].
  destruct (run (store w)) as [[a d]|]; now injection E as _ <-.
Qed.

Lemma sends_guarded (P : statement -> bool) {A X : Type} (l : list X)
      (a : A) (m : M A) :
  sends P m -> sends P (if is_empty l then ret a else m).
Proof. intros H. destruct (is_empty l); [apply sends_ret | exact H]. Qed.

Lemma createSchema_journal (unreachable : nat -> bool) (w w' : world)
      (r : unit + error) :
  createSchema unreachable w = (r, w') ->
  journal w' = journal w ++ schema_journal w.
Proof.
  unfold createSchema, schema_journal.
  destruct w as [d j [[[]|e]|]]; cbn [schemaCreated store journal].
  - intros E. injection E as _ <-. cbn. now rewrite app_nil_r.
  - intros E. injection E as _ <-. cbn. now rewrite app_nil_r.
  - unfold read, send. cbn [journal store schemaCreated].
    destruct (unreachable (List.length j)); intros E; now injection E as _ <-.
Qed.

Lemma sends_createSchema (P : statement -> bool) (unreachable : nat -> bool) :
  P Schema = true -> sends P (createSchema unreachable).
Proof.
  intros HP w r w' E. exists (schema_journal w).
  split; [eapply createSchema_journal; exact E|].
  unfold schema_journal. destruct (schemaCreated w); simpl; [|rewrite HP]; auto.
Qed.

Lemma sends_all (P : statement -> bool) {A : Type} (queries : list (M A)) :
  (forall q, In q queries -> sends P q) -> sends P (all queries).
Proof.
  induction queries as [|q rest IH]; intros H w r w' E; simpl in E.
  - injection E as _ <-. exists []. now rewrite app_nil_r.
  - destruct (q w) as [r1 w1] eqn:E1.
    destruct (all rest w1) as [rs w2] eqn:E2.
    injection E as _ <-.
    destruct (H q (or_introl eq_refl) _ _ _ E1) as [s1 [J1 F1]].
    destruct (IH (fun q' Hq' => H q' (or_intror Hq')) _ _ _ E2) as [s2 [J2 F2]].
    exists (s1 ++ s2). rewrite J2, J1, <- app_assoc, forallb_app, F1, F2. auto.
Qed.

Lemma sends_settle (P : statement -> bool) {A : Type} (m : M A) (w : world) :
  sends P m ->
  exists sent,
    journal (snd (settle m w)) = journal w ++ sent /\ forallb P sent = true.
Proof.
  intros H. unfold settle. destruct (m w) as [[a|e] w'] eqn:E;
    cbn [snd]; eapply H; exact E.
Qed.

Lemma keeps_settle {A : Type} (m : M A) (w : world) :
  keeps_store m -> store (snd (settle m w)) = store w.
Proof.
  intros H. unfold settle. destruct (m w) as [[a|e] w'] eqn:E;
    cbn [snd]; eapply H; exact E.
Qed.

(** [describe] and [search] only read: whatever their input, the state of
    the schema memo and the availability of the store, and however they
    settle, the rows of both tables are those of before, and what they send
    is the schema exchange and selects - no [Begin], no insert, no update. *)
Theorem describe_and_search_only_read
        (unreachable : nat -> bool) (tokens : list string) (txt ns : string)
        (w : world) :
  (store (snd (describe unreachable tokens ns w)) = store w
   /\ exists sent,
       journal (snd (describe unreachable tokens ns w)) = journal w ++ sent
       /\ forallb is_read sent = true)
  /\ (store (snd (search unreachable txt ns w)) = store w
      /\ exists sent,
          journal (snd (search unreachable txt ns w)) = journal w ++ sent
          /\ forallb is_read sent = true).
Proof.
  split.
  - split.
    + destruct (describe unreachable tokens ns w) as [r w'] eqn:E.
      cbn [snd]. eapply describe_store. exact E.
    + unfold describe. destruct (is_empty tokens).
      * exists []. cbn. now rewrite app_nil_r.
      * match goal with
        | |- context [settle ?m w] =>
            destruct (sends_settle is_read m w) as [sent [J F]];
              [|exists sent; destruct (settle m w); cbn [snd] in *; auto]
        end.
        apply sends_bind; [now apply sends_createSchema|]. intros _.
        apply sends_bind.
        -- apply sends_all. intros q Hq. apply in_map_iff in Hq.
           destruct Hq as [tok [<- _]]. now apply sends_send.
        -- intros allIds. apply sends_guarded. now apply sends_send.
  - split.
    + destruct (search unreachable txt ns w) as [r w'] eqn:E.
      cbn [snd]. eapply search_store. exact E.
    + unfold search. destruct txt as [|c txt].
      * exists []. cbn. now rewrite app_nil_r.
      * match goal with
        | |- context [settle ?m w] =>
            destruct (sends_settle is_read m w) as [sent [J F]];
              [|exists sent; destruct (settle m w); cbn [snd] in *; auto]
        end.
        apply sends_bind; [now apply sends_createSchema|]. intros _.
        now apply sends_send.
Qed.

(** ** The value of [describe] *)

Lemma select_texts_nil (d : db) : select_texts [] d = [].
Proof. unfold select_texts. now rewrite filter_nothing. Qed.

Lemma select_texts_same_ids (ids ids' : list Z) (d : db) :
  (forall j, In j ids <-> In j ids') ->
  select_texts ids d = select_texts ids' d.
Proof.
  intros H. unfold select_texts. f_equal. apply filter_ext. intros r.
  destruct (contains Z.eqb ids (id r)) eqn:C1,
           (contains Z.eqb ids' (id r)) eqn:C2; trivial.
  - apply Zcontains_In, H, Zcontains_In in C1. congruence.
  - apply Zcontains_In, H, Zcontains_In in C2. congruence.
Qed.

Lemma described_ids_In (tokens : list string) (ns : string) (d : db) (j : Z) :
  tokens <> [] ->
  (In j (described_ids tokens ns d)
   <-> forall tok, In tok tokens ->
                   In j (select_neighbours tok (or_public ns) d)).
Proof.
  intros NT. unfold described_ids.
  rewrite intersection_all by now apply uniq_not_nil.
  split; intros H tok Ht; apply H.
  - exact (proj2 (uniq_In String.eqb String.eqb_eq tokens tok) Ht).
  - exact (proj1 (uniq_In String.eqb String.eqb_eq tokens tok) Ht).
Qed.

(** The texts selected for the kept ids are those of the rows joined to a
    row of every token. *)
Lemma described_texts_In (tokens : list string) (ns : string) (d : db)
      (txt : string) :
  tokens <> [] ->
  (In txt (select_texts (described_ids tokens ns d) d)
   <-> exists r, In r (tags d) /\ text r = txt
                 /\ forall tok, In tok tokens -> linked tok (or_public ns) d r).
Proof.
  intros NT. rewrite select_texts_In. split.
  - intros [r [Hr [Et Hi]]]. exists r. repeat (split; [assumption|]).
    intros tok Ht. rewrite described_ids_In in Hi by assumption.
    apply select_neighbours_In. now apply Hi.
  - intros [r [Hr [Et Hl]]]. exists r. repeat (split; [assumption|]).
    apply described_ids_In; [assumption|]. intros tok Ht.
    apply select_neighbours_In. now apply Hl.
Qed.

Lemma all_reads_inl {A X : Type} (unreachable : nat -> bool) (st : statement)
      (q : X -> db -> A) (l : list X) (w w' : world) (vals : list A) :
  all (map (fun x => read unreachable st (q x)) l) w = (inl vals, w') ->
  vals = map (fun x => q x (store w)) l /\ store w' = store w.
Proof.
  revert w w' vals. induction l as [|x l IH]; intros w w' vals; cbn [all map].
  - intros E. injection E as <- <-. auto.
  - destruct (read unreachable st (q x) w) as [[a|e] w1] eqn:E1.
    + apply read_inl in E1. destruct E1 as [-> [S1 _]].
      destruct (all (map (fun x0 => read unreachable st (q x0)) l) w1)
        as [[vs|e] w2] eqn:E2; intros E; [|discriminate].
      injection E as <- <-. apply IH in E2. destruct E2 as [-> S2].
      rewrite S1. split; [reflexivity | congruence].
    + destruct (all (map (fun x0 => read unreachable st (q x0)) l) w1)
        as [rs w2]; discriminate.
Qed.

(** Whatever the availability of the store, a [describe] that fulfils
    fulfils with the texts selected for the kept ids. *)
Lemma describe_fulfilled_value (unreachable : nat -> bool)
      (tokens : list string) (ns : string) (w w' : world) (l : list string) :
  describe unreachable tokens ns w = (Some (Fulfilled l), w') ->
  tokens <> []
  /\ l = select_texts (described_ids tokens ns (store w)) (store w).
Proof.
  unfold describe. destruct tokens as [|t tokens]; [discriminate|].
  cbn [is_empty]. unfold settle.
  match goal with
  | |- context [bind ?m ?k w] => destruct (bind m k w) as [[x|e] w0] eqn:B
  end; [|discriminate].
  intros E. injection E as <- <-. split; [discriminate|].
  apply bind_inl in B. destruct B as [u [w1 [B1 B]]].
  apply createSchema_store in B1.
  apply bind_inl in B. destruct B as [allIds [w2 [B2 B]]].
  apply all_reads_inl in B2. destruct B2 as [-> S2].
  rewrite B1 in *. fold (described_ids (t :: tokens) ns (store w)) in B.
  destruct (is_empty (described_ids (t :: tokens) ns (store w))) eqn:Ei.
  - apply is_empty_nil in Ei. rewrite Ei, select_texts_nil.
    unfold ret in B. now injection B as <-.
  - apply read_inl in B. destruct B as [-> _]. now rewrite S2.
Qed.

Lemma describe_online_value (tokens : list string) (ns : string) (w : world) :
  tokens <> [] -> ready w ->
  fst (describe online tokens ns w)
  = Some (Fulfilled (select_texts (described_ids tokens ns (store w)) (store w))).
Proof.
  intros NT R. destruct (describe_online tokens ns w NT R) as [w' [E _]].
  rewrite E. cbn [fst]. fold (described_ids tokens ns (store w)).
  destruct (is_empty (described_ids tokens ns (store w))) eqn:Ei; trivial.
  apply is_empty_nil in Ei. now rewrite Ei, select_texts_nil.
Qed.

(** The availability of the store can turn [describe] into a rejection,
    never into another answer: whenever [describe] fulfils, with the store
    lost and found again at any statements, its value holds exactly the
    texts of the rows joined to a row of every token in the namespace. *)
Theorem describe_fulfilled_is_exact
        (unreachable : nat -> bool) (tokens : list string) (ns : string)
        (w w' : world) (l : list string) :
  describe unreachable tokens ns w = (Some (Fulfilled l), w') ->
  forall txt,
    In txt l
    <-> exists r, In r (tags (store w)) /\ text r = txt
                  /\ forall tok, In tok tokens ->
                                 linked tok (or_public ns) (store w) r.
Proof.
  intros H txt. apply describe_fulfilled_value in H. destruct H as [NT ->].
  now apply described_texts_In.
Qed.

Lemma describe_fulfilled_is_exact_witness :
  describe lost_at_edges ["hello"; "yes"] "" john_world
  = (Some (Fulfilled ["john"]),
     snd (describe lost_at_edges ["hello"; "yes"] "" john_world))
  /\ forall txt,
      In txt ["john"]
      <-> exists r, In r (tags (store john_world)) /\ text r = txt
                    /\ forall tok, In tok ["hello"; "yes"] ->
                         linked tok (or_public "") (store john_world) r.
Proof.
  split; [vm_compute; reflexivity|].
  apply (describe_fulfilled_is_exact
           lost_at_edges ["hello"; "yes"] "" john_world
           (snd (describe lost_at_edges ["hello"; "yes"] "" john_world))
           ["john"]).
  vm_compute. reflexivity.
Defined.

(** [describe] depends on its tokens as a set: two token lists with the
    same elements, in any order and with any repetitions, get the same
    answer. *)
Theorem describe_ignores_order_and_repeats
        (tokens tokens' : list string) (ns : string) (w : world) :
  tokens <> [] -> ready w ->
  (forall tok, In tok tokens <-> In tok tokens') ->
  fst (describe online tokens ns w) = fst (describe online tokens' ns w).
Proof.
  intros NT R Same.
  assert (tokens' <> []) as NT'.
  { destruct tokens as [|t tokens]; [congruence|]. intros ->.
    apply (Same t). now left. }
  rewrite !describe_online_value by assumption. do 2 f_equal.
  apply select_texts_same_ids. intros j.
  rewrite !described_ids_In by assumption.
  split; intros H tok Ht; apply H; now apply Same.
Qed.

Lemma describe_ignores_order_and_repeats_witness :
  ["hello"; "yes"] <> []
  /\ ready john_world
  /\ (forall tok, In tok ["hello"; "yes"] <-> In tok ["yes"; "hello"; "yes"])
  /\ fst (describe online ["hello"; "yes"] "" john_world)
     = fst (describe online ["yes"; "hello"; "yes"] "" john_world).
Proof.
  assert (forall tok, In tok ["hello"; "yes"] <-> In tok ["yes"; "hello"; "yes"])
    as Same by (intros tok; simpl; tauto).
  split; [discriminate|]. split; [exact ready_john|]. split; [exact Same|].
  apply (describe_ignores_order_and_repeats ["hello"; "yes"]
                                            ["yes"; "hello"; "yes"] ""
                                            john_world).
  - discriminate.
  - exact ready_john.
  - exact Same.
Defined.

(** [describe] is symmetric: when a stored pair joins the rows of two
    labels of the namespace, in either order of its ends, each label is in
    the description of the other. *)
Theorem describe_is_symmetric
        (ns : string) (w : world) (q r : tag) (e : assoc) :
  ready w ->
  In q (tags (store w)) -> In r (tags (store w)) ->
  namespace q = or_public ns -> namespace r = or_public ns ->
  In e (tags_associations (store w)) ->
  same_edge (id q) (id r) e = true ->
  (exists l w', describe online [text q] ns w = (Some (Fulfilled l), w')
                /\ In (text r) l)
  /\ (exists l w', describe online [text r] ns w = (Some (Fulfilled l), w')
                   /\ In (text q) l).
Proof.
  intros R Hq Hr Nq Nr He S. apply same_edge_iff in S.
  assert (forall a b : tag,
             In a (tags (store w)) -> In b (tags (store w)) ->
             namespace a = or_public ns ->
             (tag_id1 e = id a /\ tag_id2 e = id b)
             \/ (tag_id2 e = id a /\ tag_id1 e = id b) ->
             exists l w', describe online [text a] ns w = (Some (Fulfilled l), w')
                          /\ In (text b) l) as One.
  { intros a b Ha Hb Na J.
    assert ([text a] <> []) as NT by discriminate.
    pose proof (describe_online_value [text a] ns w NT R) as V.
    destruct (describe online [text a] ns w) as [p w'] eqn:E. cbn [fst] in V.
    subst p. eexists. exists w'. split; [reflexivity|].
    apply described_texts_In; [assumption|].
    exists b. repeat (split; [trivial|]).
    intros tok [<-|[]]. exists a, e. auto. }
  split.
  - apply One; trivial. intuition congruence.
  - apply One; trivial. intuition congruence.
Qed.

Lemma describe_is_symmetric_witness :
  let q := mkTag 2 "hello" "public" 1 10 11 in
  let r := mkTag 1 "john" "public" 1 10 11 in
  let e := mkAssoc 2 1 in
  ready john_world
  /\ In q (tags (store john_world)) /\ In r (tags (store john_world))
  /\ namespace q = or_public "" /\ namespace r = or_public ""
  /\ In e (tags_associations (store john_world))
  /\ same_edge (id q) (id r) e = true
  /\ (exists l w',
         describe online [text q] "" john_world = (Some (Fulfilled l), w')
         /\ In (text r) l)
  /\ (exists l w',
         describe online [text r] "" john_world = (Some (Fulfilled l), w')
         /\ In (text q) l).
Proof.
  intros q r e.
  assert (In q (tags (store john_world))) as Hq by (right; now left).
  assert (In r (tags (store john_world))) as Hr by now left.
  assert (In e (tags_associations (store john_world))) as He by now left.
  repeat (split; [first [exact ready_john | assumption | reflexivity]|]).
  apply (describe_is_symmetric "" john_world q r e); trivial.
  exact ready_john.
Defined.

(** Asking [describe] for more tokens can only narrow the answer: every
    text described for a token list extended by further tokens is
    described for the list itself. *)
Theorem describe_more_tokens_fewer_texts
        (tokens more : list string) (ns : string) (w : world) :
  tokens <> [] -> ready w ->
  exists l1 l2 w1 w2,
    describe online tokens ns w = (Some (Fulfilled l1), w1)
    /\ describe online (tokens ++ more) ns w = (Some (Fulfilled l2), w2)
    /\ incl l2 l1.
Proof.
  intros NT R.
  assert (tokens ++ more <> []) as NT'
      by (destruct tokens; [congruence | discriminate]).
  pose proof (describe_online_value tokens ns w NT R) as V1.
  pose proof (describe_online_value (tokens ++ more) ns w NT' R) as V2.
  destruct (describe online tokens ns w) as [p1 w1].
  destruct (describe online (tokens ++ more) ns w) as [p2 w2].
  cbn [fst] in *. subst p1 p2. do 2 eexists. exists w1, w2.
  split; [reflexivity|]. split; [reflexivity|].
  intros txt H. apply described_texts_In in H; [|assumption].
  apply described_texts_In; [assumption|].
  destruct H as [r [Hr [Et Hl]]]. exists r. repeat (split; [assumption|]).
  intros tok Ht. apply Hl. apply in_app_iff. now left.
Qed.

Lemma describe_more_tokens_fewer_texts_witness :
  ["hello"] <> []
  /\ ready john_world
  /\ exists l1 l2 w1 w2,
      describe online ["hello"] "" john_world = (Some (Fulfilled l1), w1)
      /\ describe online (["hello"] ++ ["john"]) "" john_world
         = (Some (Fulfilled l2), w2)
      /\ incl l2 l1.
Proof.
  split; [discriminate|]. split; [exact ready_john|].
  apply (describe_more_tokens_fewer_texts ["hello"] ["john"] "" john_world).
  - discriminate.
  - exact ready_john.
Defined.

(** ** The transaction of [associate] *)

Lemma send_journal {A : Type} (unreachable : nat -> bool) (st : statement)
      (run : db -> option (A * db)) (w w' : world) (r : A + error) :
  send unreachable st run w = (r, w') -> journal w' = journal w ++ [st].
Proof.
  unfold send. destruct (unreachable _); [intros E; now injection E as _ <-|].
  destruct (run (store w)) as [[a d]|]; intros E; now injection E as _ <-.
Qed.

Lemma sends_associate_chain (unreachable : nat -> bool)
      (tags0 allTags : list string) (ns : string) (now now' : Z) :
  sends is_body (associate_chain unreachable tags0 allTags ns now now').
Proof.
  unfold associate_chain.
  apply sends_bind; [now apply sends_send|]. intros existingTags.
  apply sends_bind; [apply sends_guarded; now apply sends_send|]. intros _.
  apply sends_bind; [apply sends_guarded; now apply sends_send|].
  intros missingTags.
  apply sends_bind; [now apply sends_send|]. intros existingAssocs.
  apply sends_bind; [apply sends_guarded; now apply sends_send|]. intros _.
  apply sends_guarded. now apply sends_send.
Qed.

Lemma transaction_journal {A : Type} (unreachable : nat -> bool) (body : M A)
      (w w' : world) (r : A + error) :
  sends is_body body ->
  transaction unreachable body w = (r, w') ->
  journal w' = journal w ++ [Begin]
  \/ exists mid close,
      journal w' = journal w ++ Begin :: mid ++ [close]
      /\ (close = Commit \/ close = Rollback)
      /\ forallb is_body mid = true.
Proof.
  intros HB. unfold transaction.
  destruct (read unreachable Begin (fun _ => tt) w) as [[u|e0] w1] eqn:B;
    pose proof (send_journal _ _ _ _ _ _ B) as J1.
  - destruct (body w1) as [[a|e1] w2] eqn:Bd;
      destruct (HB _ _ _ Bd) as [mid [J2 F]].
    + destruct (read unreachable Commit (fun _ => tt) w2) as [[u'|e2] w3] eqn:C;
        pose proof (send_journal _ _ _ _ _ _ C) as J3;
        intros E; injection E as _ <-; right; exists mid, Commit;
        cbn [journal]; rewrite J3, J2, J1, <- !app_assoc; auto.
    + intros E. injection E as _ <-. right. exists mid, Rollback.
      cbn [journal]. rewrite J2, J1, <- !app_assoc. auto.
  - intros E. injection E as _ <-. now left.
Qed.

(** Whatever its input and the availability of the store, [associate]
    adds to the journal the schema exchange at most once and then nothing,
    or a [Begin] that was lost, or one transaction that is closed - by
    [Commit], or by [Rollback] when a statement failed - with all its
    selects, inserts and updates between the two: no statement that reads or
    writes rows is sent outside the transaction, and none is left open. *)
Theorem associate_closes_its_transaction
        (unreachable : nat -> bool) (tokens tgs : list string) (ns : string)
        (now now' : Z) (w : world) :
  exists sent,
    journal (snd (associate unreachable tokens tgs ns now now' w))
    = journal w ++ sent
    /\ bracketed sent.
Proof.
  unfold associate. destruct (is_empty tokens || is_empty tgs).
  - exists []. cbn [snd]. rewrite app_nil_r. split; [reflexivity|].
    exists [], []. auto.
  - unfold settle, bind.
    destruct (createSchema unreachable w) as [[u|e] w1] eqn:S;
      pose proof (createSchema_journal _ _ _ _ S) as J1.
    + match goal with
      | |- context [transaction ?ur ?body w1] =>
          destruct (transaction ur body w1) as [r w2] eqn:T;
            pose proof (transaction_journal ur body w1 w2 r
                          (sends_associate_chain _ _ _ _ _ _) T) as J2
      end.
      assert (schema_journal w = [] \/ schema_journal w = [Schema]) as PS
          by (unfold schema_journal; destruct (schemaCreated w); auto).
      destruct J2 as [J2|[mid [close [J2 [HC F]]]]].
      * exists (schema_journal w ++ [Begin]).
        split; [destruct r; cbn [snd]; rewrite J2, J1, <- app_assoc; reflexivity|].
        exists (schema_journal w), [Begin]. auto.
      * exists (schema_journal w ++ Begin :: mid ++ [close]).
        split; [destruct r; cbn [snd]; rewrite J2, J1, <- app_assoc; reflexivity|].
        exists (schema_journal w), (Begin :: mid ++ [close]).
        split; [reflexivity|]. split; [exact PS|].
        right. right. exists mid, close. auto.
    + exists (schema_journal w). cbn [snd]. split; [exact J1|].
      exists (schema_journal w), []. rewrite app_nil_r.
      split; [reflexivity|]. split; [|now left].
      unfold schema_journal. destruct (schemaCreated w); auto.
Qed.

(** ** What [associate] keeps *)

Lemma update_counts_identity (ids : list Z) (now : Z) (d : db) :
  map identity_of (tags (update_counts ids now d)) = map identity_of (tags d).
Proof.
  unfold update_counts. cbn [tags]. rewrite map_map. apply map_ext.
  intros r. now destruct (contains Z.eqb ids (id r)).
Qed.

Lemma associate_outcomes (unreachable : nat -> bool)
      (tokens tgs : list string) (ns : string) (now now' : Z) (w : world) :
  store (snd (associate unreachable tokens tgs ns now now' w)) = store w
  \/ associate_effect tgs (uniq String.eqb (tokens ++ tgs)) (or_public ns)
                      now now' (store w)
     = Some (store (snd (associate unreachable tokens tgs ns now now' w))).
Proof.
  destruct (associate unreachable tokens tgs ns now now' w) as [r w'] eqn:E.
  cbn [snd]. destruct r as [[[]|e]|].
  - right. apply associate_fulfilled in E. tauto.
  - left. eapply associate_rejected. exact E.
  - left. unfold associate in E.
    destruct (is_empty tokens || is_empty tgs).
    + now injection E as <-.
    + destruct (settle _ w). discriminate.
Qed.

(** [associate] only adds: whatever its input and outcome, the label rows
    of before are all still there, in place, with their id, text,
    namespace and [created_at]; new rows come after them; the edges of
    before are all still there, in place, new ones after them; and no
    counter goes down. *)
Theorem associate_only_adds
        (unreachable : nat -> bool) (tokens tgs : list string) (ns : string)
        (now now' : Z) (w : world) :
  let w' := snd (associate unreachable tokens tgs ns now now' w) in
  starts (map identity_of (tags (store w))) (map identity_of (tags (store w')))
  /\ starts (tags_associations (store w)) (tags_associations (store w'))
  /\ forall i, label_count i (store w) <= label_count i (store w').
Proof.
  intros w'. subst w'.
  destruct (associate_outcomes unreachable tokens tgs ns now now' w) as [E|E].
  - rewrite E. repeat split; try (exists []; now rewrite app_nil_r).
    intros i. lia.
  - destruct (effect_middle _ _ _ _ _ _ _ E)
      as [d1 [rows [ET [EA [_ [_ [_ Ed]]]]]]].
    split; [|split].
    + exists (map identity_of rows).
      rewrite Ed, update_counts_identity. cbn [tags]. now rewrite ET, map_app.
    + exists (new_edges (store w)
                        (store (snd (associate unreachable tokens tgs ns
                                               now now' w)))).
      eapply effect_append. exact E.
    + intros i. rewrite (effect_counts _ _ _ _ _ _ _ E i).
      destruct (existsb _ _); lia.
Qed.

(** ** [associate], then [describe] *)

Lemma describe_finds_joined (ns : string) (w : world) (a b : tag) (e : assoc) :
  ready w ->
  In a (tags (store w)) -> In b (tags (store w)) ->
  namespace a = or_public ns ->
  In e (tags_associations (store w)) ->
  same_edge (id a) (id b) e = true ->
  exists l w', describe online [text a] ns w = (Some (Fulfilled l), w')
               /\ In (text b) l.
Proof.
  intros R Ha Hb Na He S. apply same_edge_iff in S.
  assert ([text a] <> []) as NT by discriminate.
  pose proof (describe_online_value [text a] ns w NT R) as V.
  destruct (describe online [text a] ns w) as [p w'] eqn:E. cbn [fst] in V.
  subst p. eexists. exists w'. split; [reflexivity|].
  apply described_texts_In; [assumption|].
  exists b. repeat (split; [trivial|]).
  intros tok [<-|[]]. exists a, e. repeat (split; [trivial|]).
  intuition congruence.
Qed.

(** What [associate] joins, [describe] finds: after a fulfilled
    [associate(tokens, tags, ns)], on any store, [describe] of a token that
    is not itself among the tags holds every tag, and [describe] of a tag
    holds every such token, in the same namespace. *)
Theorem associate_then_describe
        (unreachable : nat -> bool) (tokens tgs : list string) (ns : string)
        (now now' : Z) (w w' : world) (u : unit) (t k : string) :
  associate unreachable tokens tgs ns now now' w = (Some (Fulfilled u), w') ->
  In t tgs -> In k tokens -> ~ In k tgs ->
  (exists l w'', describe online [k] ns w' = (Some (Fulfilled l), w'')
                 /\ In t l)
  /\ (exists l w'', describe online [t] ns w' = (Some (Fulfilled l), w'')
                    /\ In k l).
Proof.
  intros H Ht Hk Nk. apply associate_fulfilled in H.
  destruct H as [_ [_ [E SC]]].
  assert (ready w') as R by (intros e; rewrite SC; discriminate).
  set (allTags := uniq String.eqb (tokens ++ tgs)) in *.
  assert (In t allTags) as At
      by (apply (uniq_In String.eqb String.eqb_eq), in_app_iff; now right).
  assert (In k allTags) as Ak
      by (apply (uniq_In String.eqb String.eqb_eq), in_app_iff; now left).
  assert (forall x, In x allTags ->
            exists r, In r (tags (store w')) /\ text r = x
                      /\ namespace r = or_public ns) as Row.
  { intros x Hx. pose proof (effect_labels _ _ _ _ _ _ _ E x Hx) as NE.
    destruct (ids_of_label x (or_public ns) (store w')) as [|i l] eqn:Ei;
      [congruence|].
    assert (In i (ids_of_label x (or_public ns) (store w'))) as Hi
        by (rewrite Ei; now left).
    apply ids_of_label_In in Hi. destruct Hi as [r [Hr [_ [Ex En]]]]. eauto. }
  destruct (Row t At) as [rt [Hrt [Ett Ent]]].
  destruct (Row k Ak) as [rk [Hrk [Etk Enk]]].
  destruct (effect_cross _ _ _ _ _ _ _ E (id rt) (id rk)) as [e [He S]].
  - apply tagIds_In. exists t. split; [|assumption].
    apply select_tags_In. exists rt. rewrite Ett. auto.
  - apply tokenIds_In. exists k. split; [|assumption].
    apply select_tags_In. exists rk. rewrite Etk. auto.
  - split.
    + rewrite <- Etk, <- Ett.
      apply describe_finds_joined with (e := e); trivial.
      now rewrite same_edge_sym.
    + rewrite <- Etk, <- Ett.
      apply describe_finds_joined with (e := e); trivial.
Qed.

Lemma associate_then_describe_witness :
  associate online ["john"] ["hello"; "yes"] "" 10 11 fresh
  = (Some (Fulfilled tt), john_world)
  /\ In "yes" ["hello"; "yes"] /\ In "john" ["john"]
  /\ ~ In "john" ["hello"; "yes"]
  /\ (exists l w'',
         describe online ["john"] "" john_world = (Some (Fulfilled l), w'')
         /\ In "yes" l)
  /\ (exists l w'',
         describe online ["yes"] "" john_world = (Some (Fulfilled l), w'')
         /\ In "john" l).
Proof.
  assert (~ In "john" ["hello"; "yes"]) as N
      by (simpl; intros [H|[H|[]]]; discriminate).
  split; [vm_compute; reflexivity|].
  split; [right; now left|]. split; [now left|]. split; [exact N|].
  apply (associate_then_describe online ["john"] ["hello"; "yes"] "" 10 11
                                 fresh john_world tt "yes" "john").
  - vm_compute. reflexivity.
  - right. now left.
  - now left.
  - exact N.
Defined.

(** ** The labels [associate] creates *)

Lemma uniq_from_NoDup_id {A : Type} (eqb : A -> A -> bool)
      (eqb_eq : forall x y, eqb x y = true <-> x = y) (l seen : list A) :
  NoDup l -> (forall x, In x l -> ~ In x seen) -> uniq_from eqb seen l = l.
Proof.
  revert seen. induction l as [|a l IH]; intros seen ND H; simpl; trivial.
  inversion ND as [|? ? NI ND']; subst.
  rewrite (proj2 (contains_false eqb eqb_eq seen a)) by (apply H; now left).
  f_equal. apply IH; [assumption|].
  intros x Hx [<-|Hs]; [contradiction|]. apply (H x); [now right | assumption].
Qed.

Lemma xor_of_subset {A : Type} (eqb : A -> A -> bool)
      (eqb_eq : forall x y, eqb x y = true <-> x = y) (a b : list A) :
  NoDup a -> (forall x, In x b -> In x a) ->
  xor eqb a b = filter (fun x => negb (contains eqb b x)) a.
Proof.
  intros ND Sub. unfold xor, difference at 2.
  rewrite (filter_nothing _ b).
  - rewrite app_nil_r. unfold uniq, difference.
    apply uniq_from_NoDup_id; [assumption | now apply NoDup_filter | auto].
  - intros x Hx. apply negb_false_iff, (contains_In eqb eqb_eq). auto.
Qed.

Lemma missingTagsRaw_eq (tokens tgs : list string) (ns : string) (d : db) :
  xor String.eqb (uniq String.eqb (tokens ++ tgs))
      (pluck_text (select_tags (uniq String.eqb (tokens ++ tgs))
                               (or_public ns) d))
  = texts_to_create tokens tgs ns d.
Proof.
  set (allTags := uniq String.eqb (tokens ++ tgs)).
  rewrite (xor_of_subset String.eqb String.eqb_eq).
  - unfold texts_to_create. fold allTags. apply filter_ext_in. intros t Ht.
    f_equal.
    destruct (has_label t (or_public ns) (tags d)) eqn:L.
    + apply Scontains_In. apply has_label_In in L.
      destruct L as [r [Hr [Et En]]]. unfold pluck_text.
      apply in_map_iff. exists (id r, text r). split; [assumption|].
      apply select_tags_In. exists r. subst. auto.
    + apply Scontains_false. intros C. unfold pluck_text in C.
      apply in_map_iff in C. destruct C as [it [E C]].
      apply select_tags_In in C. destruct C as [r [Hr [-> [_ Hn]]]].
      simpl in E. assert (has_label t (or_public ns) (tags d) = true) as T
          by (apply has_label_In; exists r; auto).
      congruence.
  - apply (uniq_NoDup String.eqb String.eqb_eq).
  - intros x Hx. unfold pluck_text in Hx. apply in_map_iff in Hx.
    destruct Hx as [it [E Hx]]. apply select_tags_In in Hx.
    destruct Hx as [r [_ [-> [Hr _]]]]. simpl in E. now subst.
Qed.

Lemma max_id_snoc (l : list tag) (r : tag) :
  max_id (l ++ [r]) = Z.max (max_id l) (id r).
Proof.
  unfold max_id. induction l as [|a l IH]; simpl.
  - pose proof (max_id_ge [] r). lia.
  - rewrite IH. lia.
Qed.

Lemma insert_tags_numbered (objs : list tagObj) (d d' : db) :
  insert_tags objs d = Some d' ->
  tags d' = tags d ++ numbered (next_id d) objs.
Proof.
  revert d. induction objs as [|o objs IH]; intros d; simpl.
  - intros E. injection E as <-. now rewrite app_nil_r.
  - destruct (insert_tag o d) as [d0|] eqn:E0; [|discriminate].
    intros E. apply insert_tag_Some in E0. destruct E0 as [_ ->].
    apply IH in E. cbn [tags] in E. rewrite E, <- app_assoc. cbn [app].
    do 3 f_equal. unfold next_id at 1. cbn [tags sqlite_sequence].
    rewrite max_id_snoc. cbn [row_of id]. unfold next_id. lia.
Qed.

Lemma numbered_texts (i : Z) (ns : string) (now : Z) (l : list string) :
  map text (numbered i (map (fun t => mkTagObj t ns now) l)) = l.
Proof.
  revert i. induction l as [|t l IH]; intros i; simpl; trivial.
  now rewrite IH.
Qed.

Lemma effect_numbered (tokens tgs : list string) (ns : string) (now now' : Z)
      (d d' : db) :
  associate_effect tgs (uniq String.eqb (tokens ++ tgs)) (or_public ns)
                   now now' d = Some d' ->
  exists d1,
    tags d1 = tags d
              ++ numbered (next_id d)
                   (map (fun t => mkTagObj t (or_public ns) now)
                        (texts_to_create tokens tgs ns d))
    /\ tags_associations d1 = tags_associations d
    /\ d' = update_counts
              (bumped (missing_edges tgs (uniq String.eqb (tokens ++ tgs))
                                     (or_public ns) d1)) now'
              (mkDb (tags d1)
                    (tags_associations d1
                     ++ missing_edges tgs (uniq String.eqb (tokens ++ tgs))
                                      (or_public ns) d1)
                    (sqlite_sequence d1)).
Proof.
  intros E. apply associate_effect_Some in E. destruct E as [d1 [E1 E2]].
  rewrite missingTagsRaw_eq in E1.
  pose proof (insert_tags_Some _ _ _ E1) as [EA _].
  apply insert_tags_numbered in E1. eauto.
Qed.

(** The labels a fulfilled [associate] creates are the texts of the call
    that had no row in the namespace, each once, tokens first and then
    tags in the order they were given; their rows come after the rows of
    before, with ids in sequence from the next free id and [created_at] the
    clock of the call. *)
Theorem associate_creates_labels_in_order
        (unreachable : nat -> bool) (tokens tgs : list string) (ns : string)
        (now now' : Z) (w w' : world) (u : unit) :
  associate unreachable tokens tgs ns now now' w = (Some (Fulfilled u), w') ->
  map identity_of (tags (store w'))
  = map identity_of (tags (store w))
    ++ map identity_of
         (numbered (next_id (store w))
            (map (fun t => mkTagObj t (or_public ns) now)
                 (texts_to_create tokens tgs ns (store w))))
  /\ map text (tags (store w'))
     = map text (tags (store w)) ++ texts_to_create tokens tgs ns (store w).
Proof.
  intros H. apply associate_fulfilled in H. destruct H as [_ [_ [E _]]].
  apply effect_numbered in E. destruct E as [d1 [ET [_ Ed]]].
  assert (map identity_of (tags (store w'))
          = map identity_of (tags (store w))
            ++ map identity_of
                 (numbered (next_id (store w))
                    (map (fun t => mkTagObj t (or_public ns) now)
                         (texts_to_create tokens tgs ns (store w))))) as I.
  { rewrite Ed, update_counts_identity. cbn [tags]. now rewrite ET, map_app. }
  split; [exact I|].
  apply (f_equal (map (fun t : Z * string * string * Z => snd (fst (fst t)))))
    in I.
  rewrite map_app, !map_map in I. cbn in I.
  now rewrite numbered_texts in I.
Qed.

Lemma associate_creates_labels_in_order_witness :
  associate online ["another"] ["john"; "peter"] "" 20 21 john_world
  = (Some (Fulfilled tt),
     snd (associate online ["another"] ["john"; "peter"] "" 20 21 john_world))
  /\ let w' := snd (associate online ["another"] ["john"; "peter"] "" 20 21
                              john_world) in
     map identity_of (tags (store w'))
     = map identity_of (tags (store john_world))
       ++ map identity_of
            (numbered (next_id (store john_world))
               (map (fun t => mkTagObj t (or_public "") 20)
                    (texts_to_create ["another"] ["john"; "peter"] ""
                                     (store john_world))))
     /\ map text (tags (store w'))
        = map text (tags (store john_world))
          ++ texts_to_create ["another"] ["john"; "peter"] ""
                             (store john_world).
Proof.
  split; [vm_compute; reflexivity|].
  apply (associate_creates_labels_in_order online ["another"] ["john"; "peter"]
                                           "" 20 21 john_world _ tt).
  vm_compute. reflexivity.
Defined.

(** ** The timestamps [associate] writes *)

Lemma label_updated_at_update (ids : list Z) (now : Z) (d : db) (i : Z) :
  label_updated_at i (update_counts ids now d)
  = if contains Z.eqb ids i
    then option_map (fun _ => now) (find (fun r => (id r =? i)%Z) (tags d))
    else label_updated_at i d.
Proof.
  unfold label_updated_at, update_counts. cbn [tags].
  induction (tags d) as [|r l IH]; simpl.
  - now destruct (contains Z.eqb ids i).
  - destruct (contains Z.eqb ids (id r)) eqn:C; simpl;
      destruct ((id r =? i)%Z) eqn:E; trivial.
    + apply Z.eqb_eq in E. subst i. now rewrite C.
    + apply Z.eqb_eq in E. subst i. now rewrite C.
Qed.

Lemma numbered_stamps (i : Z) (ns : string) (now : Z) (l : list string) (r : tag) :
  In r (numbered i (map (fun t => mkTagObj t ns now) l)) -> updated_at r = now.
Proof.
  revert i. induction l as [|t l IH]; intros i; simpl; [tauto|].
  intros [<-|H]; [reflexivity | eauto].
Qed.

(** [updated_at] follows the counter: after a fulfilled [associate] a
    label that gained a new edge has [updated_at] set to the clock read for
    the update; a label that had a row and gained none keeps its
    [updated_at]; and a label created without gaining an edge has the clock
    of its creation. *)
Theorem associate_stamps_what_it_bumps
        (unreachable : nat -> bool) (tokens tgs : list string) (ns : string)
        (now now' : Z) (w w' : world) (u : unit) (i : Z) :
  associate unreachable tokens tgs ns now now' w = (Some (Fulfilled u), w') ->
  (0 < gained i (store w) (store w') ->
   label_updated_at i (store w') = Some now')
  /\ (gained i (store w) (store w') = 0 ->
      match label_updated_at i (store w) with
      | Some t => label_updated_at i (store w') = Some t
      | None => label_updated_at i (store w') = None
                \/ label_updated_at i (store w') = Some now
      end).
Proof.
  intros H. apply associate_fulfilled in H. destruct H as [_ [_ [E _]]].
  apply effect_numbered in E. destruct E as [d1 [ET [EA Ed]]].
  set (M := missing_edges tgs (uniq String.eqb (tokens ++ tgs)) (or_public ns) d1)
    in *.
  assert (gained i (store w) (store w') = 0 \/ 0 < gained i (store w) (store w'))
    as Cases by (unfold gained; lia).
  assert (Z.min 1 (gained i (store w) (store w'))
          = if contains Z.eqb (bumped M) i then 1 else 0) as G.
  { unfold gained. rewrite min_one_length, Ed, new_edges_update, EA, new_edges_app.
    destruct (contains Z.eqb (bumped M) i) eqn:C.
    - apply Zcontains_In, bumped_In in C.
      now rewrite (proj2 (existsb_exists _ _) C).
    - destruct (existsb (touches i) M) eqn:X; trivial.
      apply existsb_exists, bumped_In, Zcontains_In in X. congruence. }
  assert (label_updated_at i (store w')
          = if contains Z.eqb (bumped M) i
            then option_map (fun _ => now') (find (fun r => (id r =? i)%Z) (tags d1))
            else label_updated_at i d1) as U
      by (rewrite Ed, label_updated_at_update; reflexivity).
  split.
  - intros Pos. rewrite U.
    destruct (contains Z.eqb (bumped M) i) eqn:C; [|lia].
    apply Zcontains_In, bumped_In in C. destruct C as [e [He S]].
    destruct (find_id_Some i (tags d1)) as [r ->]; [|reflexivity].
    destruct (missing_edges_ends _ _ _ _ _ He) as [H1 H2].
    unfold touches in S. apply orb_true_iff in S.
    assert (In i (pluck_id (select_tags (uniq String.eqb (tokens ++ tgs))
                                        (or_public ns) d1))) as Hi.
    { apply class_fetched with (tags0 := tgs).
      destruct S as [S|S]; apply Z.eqb_eq in S; subst i; auto. }
    unfold pluck_id in Hi. apply in_map_iff in Hi. destruct Hi as [[j x] [Ej Hi]].
    simpl in Ej. subst j. apply select_tags_In in Hi.
    destruct Hi as [r [Hr [Er _]]]. inversion Er; subst.
    apply in_map_iff. eauto.
  - intros Zero. rewrite U.
    destruct (contains Z.eqb (bumped M) i) eqn:C; [lia|].
    unfold label_updated_at. rewrite ET, find_app.
    destruct (find (fun r => (id r =? i)%Z) (tags (store w))) as [r|]; cbn [option_map];
      [reflexivity|].
    destruct (find (fun r => (id r =? i)%Z) (numbered _ _)) as [r|] eqn:Fr;
      cbn [option_map]; [|now left].
    right. apply find_some in Fr. destruct Fr as [Hr _].
    now rewrite (numbered_stamps _ _ _ _ _ Hr).
Qed.

Lemma associate_stamps_what_it_bumps_witness :
  associate online ["another"] ["john"; "peter"] "" 20 21 john_world
  = (Some (Fulfilled tt),
     snd (associate online ["another"] ["john"; "peter"] "" 20 21 john_world))
  /\ let w' := snd (associate online ["another"] ["john"; "peter"] "" 20 21
                              john_world) in
     (0 < gained 1 (store john_world) (store w') ->
      label_updated_at 1 (store w') = Some 21)
     /\ (gained 1 (store john_world) (store w') = 0 ->
         match label_updated_at 1 (store john_world) with
         | Some t => label_updated_at 1 (store w') = Some t
         | None => label_updated_at 1 (store w') = None
                   \/ label_updated_at 1 (store w') = Some 20
         end).
Proof.
  split; [vm_compute; reflexivity|].
  apply (associate_stamps_what_it_bumps online ["another"] ["john"; "peter"]
                                        "" 20 21 john_world _ tt 1).
  vm_compute. reflexivity.
Defined.

(** ** Why [associate] rejects *)

Lemma bind_inr {A B : Type} (m : M A) (k : A -> M B) (w w' : world) (e : error) :
  bind m k w = (inr e, w') ->
  m w = (inr e, w')
  \/ exists a w1, m w = (inl a, w1) /\ k a w1 = (inr e, w').
Proof.
  unfold bind. destruct (m w) as [[a|e0] w1]; [eauto|].
  intros E. injection E as <- <-. now left.
Qed.

Lemma send_inr_reason {A : Type} (unreachable : nat -> bool) (st : statement)
      (run : db -> option (A * db)) (w w' : world) (e : error) :
  send unreachable st run w = (inr e, w') ->
  e = ConnectionLost \/ run (store w) = None.
Proof.
  unfold send. destruct (unreachable _).
  - intros E. injection E as <- _. now left.
  - destruct (run (store w)) as [[a d]|]; [discriminate|]. now right.
Qed.

Lemma read_inr_reason {A : Type} (unreachable : nat -> bool) (st : statement)
      (q : db -> A) (w w' : world) (e : error) :
  read unreachable st q w = (inr e, w') -> e = ConnectionLost.
Proof.
  intros E. apply send_inr_reason in E. destruct E as [E|E];
    [assumption | discriminate].
Qed.

Lemma guarded_write_inr {X : Type} (unreachable : nat -> bool) (l : list X)
      (st : statement) (u : db -> option db) (w w' : world) (e : error) :
  (if is_empty l then ret tt else write unreachable st u) w = (inr e, w') ->
  e = ConnectionLost \/ u (store w) = None.
Proof.
  destruct (is_empty l); [discriminate|]. intros E.
  apply send_inr_reason in E. destruct E as [E|E]; [now left | right].
  now destruct (u (store w)).
Qed.

Lemma missing_edges_insertable (tags0 allTags : list string) (ns : string)
      (d1 : db) :
  NoDup (map id (tags d1)) ->
  exists d2, insert_assocs (missing_edges tags0 allTags ns d1) d1 = Some d2.
Proof.
  intros PK. apply insert_assocs_goes.
  - now apply missing_edges_NoDup.
  - intros c Hc Hin.
    pose proof (missing_edges_new _ _ _ _ _ _ Hc Hin) as N.
    assert (same_edge (tag_id1 c) (tag_id2 c) c = true) as S
        by (apply same_edge_iff; auto).
    congruence.
Qed.

Lemma associate_chain_inr (unreachable : nat -> bool)
      (tags0 allTags : list string) (ns : string) (now now' : Z)
      (w w' : world) (e : error) :
  consistent (store w) ->
  associate_chain unreachable tags0 allTags ns now now' w = (inr e, w') ->
  e = ConnectionLost.
Proof.
  intros C. unfold associate_chain. intros H.
  apply bind_inr in H. destruct H as [H|[existing [w1 [H1 H]]]];
    [eapply read_inr_reason; exact H|].
  apply read_inl in H1. destruct H1 as [-> [S1 _]].
  set (raw := xor String.eqb allTags
                  (pluck_text (select_tags allTags ns (store w)))) in *.
  destruct (insert_tags_goes raw ns now (store w)) as [d1 E1].
  { apply (xor_NoDup String.eqb String.eqb_eq). }
  { intros t Ht. apply missingTagsRaw_In in Ht. tauto. }
  apply bind_inr in H. destruct H as [H|[x2 [w2 [H2 H]]]].
  { apply guarded_write_inr in H. destruct H as [H|H]; [assumption|].
    rewrite S1 in H. congruence. }
  apply guarded_write_inl in H2; [|now intros ->].
  destruct H2 as [H2 _]. rewrite S1, E1 in H2. injection H2 as H2.
  apply bind_inr in H. destruct H as [H|[missingTags [w3 [H3 H]]]].
  { destruct (is_empty raw); [discriminate|].
    eapply read_inr_reason; exact H. }
  assert (missingTags = select_tags raw ns d1 /\ store w3 = d1) as [-> S3].
  { destruct (is_empty raw) eqn:Er.
    - apply is_empty_nil in Er. rewrite Er, select_tags_nil.
      unfold ret in H3. injection H3 as <- <-. auto.
    - apply read_inl in H3. destruct H3 as [-> [S _]]. split; congruence. }
  pose proof (fetchedTags_eq allTags ns now (store w) d1 E1) as FE.
  fold raw in FE. rewrite FE in H.
  apply bind_inr in H. destruct H as [H|[existingAssocs [w4 [H4 H]]]];
    [eapply read_inr_reason; exact H|].
  apply read_inl in H4. destruct H4 as [-> [S4 _]]. rewrite S3 in H.
  fold (missing_edges tags0 allTags ns d1) in H.
  pose proof (insert_tags_consistent _ _ _ C E1) as [PK _ _].
  destruct (missing_edges_insertable tags0 allTags ns d1 PK) as [d2 E2].
  apply bind_inr in H. destruct H as [H|[x5 [w5 [H5 H]]]].
  { apply guarded_write_inr in H. destruct H as [H|H]; [assumption|].
    rewrite S4, S3 in H. congruence. }
  apply guarded_write_inr in H. destruct H as [H|H];
    [assumption | discriminate].
Qed.

Lemma createSchema_inr (unreachable : nat -> bool) (w w' : world) (e : error) :
  ready w -> createSchema unreachable w = (inr e, w') -> e = ConnectionLost.
Proof.
  unfold ready, createSchema. intros R.
  destruct (schemaCreated w) as [[[]|e0]|] eqn:SC.
  - discriminate.
  - now destruct (R e0).
  - destruct (read unreachable Schema (fun _ => tt) w) as [[u|e1] w1] eqn:B;
      [discriminate|].
    apply read_inr_reason in B. intros E. injection E as <- _. exact B.
Qed.

(** On a store that satisfies the constraints of the schema and holds
    each edge once, [associate] trips no unique constraint: the texts it
    inserts have no row in the namespace and the filter leaves no edge the
    table holds.  So, with no rejected schema memo and whatever the
    availability of the store, a call never rejects for a violated
    constraint. *)
Theorem associate_trips_no_unique_constraint
        (unreachable : nat -> bool) (tokens tgs : list string) (ns : string)
        (now now' : Z) (w w' : world) (e : error) :
  ready w -> consistent (store w) ->
  associate unreachable tokens tgs ns now now' w = (Some (Rejected e), w') ->
  e <> ConstraintViolation.
Proof.
  intros R C. unfold associate.
  destruct (is_empty tokens || is_empty tgs); [discriminate|].
  unfold settle.
  match goal with
  | |- context [bind ?m ?k w] => destruct (bind m k w) as [[x|e0] w0] eqn:B
  end; [discriminate|].
  intros E. injection E as <- _.
  assert (e0 = ConnectionLost) as ->; [|discriminate].
  apply bind_inr in B. destruct B as [B|[x1 [w1 [B1 B]]]];
    [eapply createSchema_inr; eassumption|].
  apply createSchema_store in B1.
  unfold transaction in B.
  destruct (read unreachable Begin (fun _ => tt) w1) as [[u|e1] w2] eqn:Bg.
  - apply read_inl in Bg. destruct Bg as [_ [S2 _]].
    match type of B with
    | context [associate_chain ?ur ?a ?b ?c ?n ?n' w2] =>
        destruct (associate_chain ur a b c n n' w2) as [[y|e2] w3] eqn:Ch
    end.
    + destruct (read unreachable Commit (fun _ => tt) w3) as [[u'|e3] w4] eqn:Cm;
        [discriminate|].
      apply read_inr_reason in Cm. injection B as <- _. exact Cm.
    + apply associate_chain_inr in Ch; [|now rewrite S2, B1].
      injection B as <- _. exact Ch.
  - apply read_inr_reason in Bg. injection B as <- _. exact Bg.
Qed.

Lemma associate_trips_no_unique_constraint_witness :
  let w' := mkWorld empty_db
                    [Schema; Begin; SelectTags; InsertTags; SelectTags;
                     SelectAssociations; InsertAssociations; Rollback]
                    (Some (Fulfilled tt)) in
  ready fresh /\ consistent (store fresh)
  /\ associate lost_at_edges ["john"] ["hello"; "yes"] "" 10 11 fresh
     = (Some (Rejected ConnectionLost), w')
  /\ ConnectionLost <> ConstraintViolation.
Proof.
  intros w'.
  assert (ready fresh) as R by (intros e; discriminate).
  assert (associate lost_at_edges ["john"] ["hello"; "yes"] "" 10 11 fresh
          = (Some (Rejected ConnectionLost), w')) as H
      by (vm_compute; reflexivity).
  split; [exact R|]. split; [exact consistent_empty|]. split; [exact H|].
  apply (associate_trips_no_unique_constraint
           lost_at_edges ["john"] ["hello"; "yes"] "" 10 11 fresh w'
           ConnectionLost R consistent_empty H).
Defined.

(** ** The edges of a reachable store *)

Lemma effect_keeps_rows (tags0 allTags : list string) (ns : string)
      (now now' : Z) (d d' : db) (r : tag) :
  associate_effect tags0 allTags ns now now' d = Some d' ->
  In r (tags d) ->
  exists r', In r' (tags d') /\ identity_of r' = identity_of r.
Proof.
  intros E Hr.
  destruct (effect_middle _ _ _ _ _ _ _ E) as [d1 [rows [ET [_ [_ [_ [_ Ed]]]]]]].
  assert (In (identity_of r) (map identity_of (tags d'))) as H.
  { rewrite Ed, update_counts_identity. cbn [tags]. rewrite ET, map_app.
    apply in_app_iff. left. now apply in_map. }
  apply in_map_iff in H. destruct H as [r' [E' H]]. eauto.
Qed.

Lemma effect_well_linked (tags0 allTags : list string) (ns : string)
      (now now' : Z) (d d' : db) :
  consistent d -> well_linked d ->
  associate_effect tags0 allTags ns now now' d = Some d' ->
  well_linked d'.
Proof.
  intros C WL E e He.
  rewrite (effect_append _ _ _ _ _ _ _ E) in He. apply in_app_iff in He.
  destruct He as [He|He].
  - destruct (WL e He) as [Ne [r1 [r2 [H1 [H2 [I1 [I2 N]]]]]]].
    split; [assumption|].
    destruct (effect_keeps_rows _ _ _ _ _ _ _ r1 E H1) as [r1' [H1' J1]].
    destruct (effect_keeps_rows _ _ _ _ _ _ _ r2 E H2) as [r2' [H2' J2]].
    unfold identity_of in J1, J2. injection J1 as K1 _ K1n _.
    injection J2 as K2 _ K2n _.
    exists r1', r2'. repeat split; trivial; congruence.
  - split; [eapply effect_no_loop; eassumption|].
    destruct (effect_new_edge _ _ _ _ _ _ _ E e He) as [T1 [T2 _]].
    apply tagIds_In in T1. destruct T1 as [x [Hx _]].
    apply tokenIds_In in T2. destruct T2 as [y [Hy _]].
    apply select_tags_In in Hx. destruct Hx as [r1 [H1 [E1 [_ N1]]]].
    apply select_tags_In in Hy. destruct Hy as [r2 [H2 [E2 [_ N2]]]].
    injection E1 as E1 _. injection E2 as E2 _.
    exists r1, r2. repeat split; trivial; congruence.
Qed.

Lemma well_linked_empty : well_linked empty_db.
Proof. intros e []. Qed.

Lemma reachable_well_linked (w : world) : reachable w -> well_linked (store w).
Proof.
  induction 1 as [| ur tokens tgs ns now now' w r w' Rw IH H
                  | ur tokens ns w r w' _ IH H
                  | ur txt ns w r w' _ IH H].
  - exact well_linked_empty.
  - pose proof (associate_outcomes ur tokens tgs ns now now' w) as O.
    rewrite H in O. cbn [snd] in O. destruct O as [O|O].
    + now rewrite O.
    + eapply effect_well_linked; [apply reachable_consistent| |]; eassumption.
  - now rewrite (describe_store _ _ _ _ _ _ H).
  - now rewrite (search_store _ _ _ _ _ _ H).
Qed.

(** Every store the three operations lead to from empty tables, through
    any sequence of calls and failures, satisfies the constraints of the
    schema, holds each edge once whatever the order of its ends, and has
    only edges that join two distinct existing labels of one namespace. *)
Theorem reachable_store_invariants (w : world) :
  reachable w -> consistent (store w) /\ well_linked (store w).
Proof.
  intros R. split; [now apply reachable_consistent | now apply reachable_well_linked].
Qed.

Lemma reachable_john : reachable john_world.
Proof.
  apply (reachable_associate online ["john"] ["hello"; "yes"] "" 10 11 fresh
                             (Some (Fulfilled tt)) john_world).
  - exact reachable_fresh.
  - vm_compute. reflexivity.
Qed.

Lemma reachable_store_invariants_witness :
  reachable john_world
  /\ consistent (store john_world) /\ well_linked (store john_world).
Proof.
  split; [exact reachable_john|].
  apply (reachable_store_invariants john_world). exact reachable_john.
Defined.

(** ** Namespaces *)

Lemma same_id_same_row (rows : list tag) (a b : tag) :
  NoDup (map id rows) -> In a rows -> In b rows -> id a = id b -> a = b.
Proof.
  induction rows as [|r rows IH]; simpl; intros ND Ha Hb E; [contradiction|].
  inversion ND as [|? ? NI ND']; subst.
  destruct Ha as [->|Ha], Hb as [->|Hb]; trivial.
  - exfalso. apply NI. rewrite E. now apply in_map.
  - exfalso. apply NI. rewrite <- E. now apply in_map.
  - now apply IH.
Qed.

Lemma one_label_one_id (txt ns : string) (d : db) (a b : tag) :
  (List.length (ids_of_label txt ns d) <= 1)%nat ->
  In a (tags d) -> In b (tags d) ->
  text a = txt -> namespace a = ns -> text b = txt -> namespace b = ns ->
  id a = id b.
Proof.
  intros L Ha Hb Ta Na Tb Nb.
  assert (In (id a) (ids_of_label txt ns d)) as Ia
      by (apply ids_of_label_In; exists a; auto).
  assert (In (id b) (ids_of_label txt ns d)) as Ib
      by (apply ids_of_label_In; exists b; auto).
  destruct (ids_of_label txt ns d) as [|i [|j l]]; simpl in *;
    [contradiction | intuition congruence | lia].
Qed.

(** Namespaces are isolated: on a store reached from empty tables,
    [describe] answers only with texts of labels of the namespace it was
    asked about, and never with one of its own tokens. *)
Theorem describe_stays_in_namespace
        (tokens : list string) (ns : string) (w : world) :
  reachable w -> ready w -> tokens <> [] ->
  exists l w',
    describe online tokens ns w = (Some (Fulfilled l), w')
    /\ forall txt,
        In txt l ->
        (exists r, In r (tags (store w)) /\ text r = txt
                   /\ namespace r = or_public ns)
        /\ ~ In txt tokens.
Proof.
  intros Rw R NT.
  pose proof (reachable_consistent w Rw) as [PK UL _].
  pose proof (reachable_well_linked w Rw) as WL.
  pose proof (describe_online_value tokens ns w NT R) as V.
  destruct (describe online tokens ns w) as [p w'] eqn:E. cbn [fst] in V.
  subst p. eexists. exists w'. split; [reflexivity|].
  intros txt H. apply described_texts_In in H; [|assumption].
  destruct H as [r [Hr [Et Hl]]].
  assert (forall tok, In tok tokens ->
            namespace r = or_public ns
            /\ exists q, In q (tags (store w)) /\ text q = tok
                         /\ namespace q = or_public ns /\ id q <> id r) as Far.
  { intros tok Ht. destruct (Hl tok Ht) as [q [e [Hq [Tq [Nq [He J]]]]]].
    destruct (WL e He) as [Ne [r1 [r2 [H1 [H2 [I1 [I2 N]]]]]]].
    destruct J as [[J1 J2]|[J2 J1]].
    - assert (r1 = q) as -> by (apply (same_id_same_row _ _ _ PK); congruence).
      assert (r2 = r) as -> by (apply (same_id_same_row _ _ _ PK); congruence).
      split; [congruence|]. exists q. repeat split; trivial. congruence.
    - assert (r2 = q) as -> by (apply (same_id_same_row _ _ _ PK); congruence).
      assert (r1 = r) as -> by (apply (same_id_same_row _ _ _ PK); congruence).
      split; [congruence|]. exists q. repeat split; trivial. congruence. }
  destruct tokens as [|t0 tokens]; [congruence|].
  destruct (Far t0 (or_introl eq_refl)) as [Nr _].
  split; [eauto|].
  intros Hin. destruct (Far txt Hin) as [_ [q [Hq [Tq [Nq D]]]]].
  apply D. eapply one_label_one_id; try eassumption. apply UL.
Qed.

Lemma describe_stays_in_namespace_witness :
  reachable john_world /\ ready john_world /\ ["hello"; "yes"] <> []
  /\ exists l w',
      describe online ["hello"; "yes"] "" john_world = (Some (Fulfilled l), w')
      /\ forall txt,
          In txt l ->
          (exists r, In r (tags (store john_world)) /\ text r = txt
                     /\ namespace r = or_public "")
          /\ ~ In txt ["hello"; "yes"].
Proof.
  split; [exact reachable_john|]. split; [exact ready_john|].
  split; [discriminate|].
  apply (describe_stays_in_namespace ["hello"; "yes"] "" john_world).
  - exact reachable_john.
  - exact ready_john.
  - discriminate.
Defined.

(** ** [search] without wildcards *)

Lemma list_ascii_of_string_app (a b : string) :
  list_ascii_of_string (a ++ b)%string
  = list_ascii_of_string a ++ list_ascii_of_string b.
Proof. induction a as [|c a IH]; simpl; [reflexivity | now rewrite IH]. Qed.

Lemma like_percent_step (pattern s : list ascii) :
  like ("%"%char :: pattern) s
  = like pattern s
    || match s with
       | [] => false
       | _ :: s' => like ("%"%char :: pattern) s'
       end.
Proof. destruct s; reflexivity. Qed.

Lemma like_literal_then_percent (p s : list ascii) :
  forallb (fun c => negb (Ascii.eqb c "%") && negb (Ascii.eqb c "_")) p = true ->
  like (p ++ ["%"%char]) s = starts_with p s.
Proof.
  revert s. induction p as [|a p IH]; intros s H.
  - cbn [app starts_with]. apply like_any_run. reflexivity.
  - cbn [forallb] in H. apply andb_true_iff in H. destruct H as [Ha H].
    apply andb_true_iff in Ha. destruct Ha as [H1 H2].
    apply negb_true_iff in H1. apply negb_true_iff in H2.
    cbn [app like]. rewrite H1, H2. destruct s as [|c s]; cbn [starts_with];
      [reflexivity|].
    cbn [orb]. now rewrite IH.
Qed.

Lemma like_contains_literal (p s : list ascii) :
  forallb (fun c => negb (Ascii.eqb c "%") && negb (Ascii.eqb c "_")) p = true ->
  like ("%"%char :: p ++ ["%"%char]) s = occurs_in p s.
Proof.
  intros H. induction s as [|c s IH].
  - rewrite like_percent_step. cbn [occurs_in].
    now rewrite like_literal_then_percent.
  - rewrite like_percent_step. cbn [occurs_in].
    now rewrite like_literal_then_percent, IH.
Qed.

(** For a query that holds neither [%] nor [_], [search] is the
    substring search its name promises: with the store within reach it
    fulfils with the texts of the labels of the namespace that hold the
    query as a run of characters, ASCII letters compared without case, in
    table order. *)
Theorem search_literal_is_substring (txt ns : string) (w : world) :
  ready w -> txt <> "" -> literal txt = true ->
  exists w',
    search online txt ns w
    = (Some (Fulfilled
               (map text
                    (filter (fun r => occurs txt (text r)
                                      && String.eqb (namespace r) (or_public ns))
                            (tags (store w))))), w')
    /\ store w' = store w.
Proof.
  intros R NE L. unfold search. destruct txt as [|c txt]; [congruence|].
  unfold settle, bind. rewrite (createSchema_online w R).
  rewrite read_online. cbn [store journal schemaCreated].
  assert (select_like ("%" ++ String c txt ++ "%")%string (or_public ns) (store w)
          = map text
                (filter (fun r => occurs (String c txt) (text r)
                                  && String.eqb (namespace r) (or_public ns))
                        (tags (store w)))) as ->.
  { unfold select_like. f_equal. apply filter_ext. intros r. f_equal.
    rewrite list_ascii_of_string_app. cbn [list_ascii_of_string app].
    change (c :: list_ascii_of_string (txt ++ "%")%string)
      with (list_ascii_of_string (String c txt ++ "%")%string).
    rewrite list_ascii_of_string_app. unfold occurs.
    change (list_ascii_of_string "%") with ["%"%char].
    now apply like_contains_literal. }
  eexists. split; reflexivity.
Qed.

Lemma search_literal_is_substring_witness :
  ready search_fixture /\ "duck" <> "" /\ literal "duck" = true
  /\ exists w',
      search online "duck" "" search_fixture
      = (Some (Fulfilled
                 (map text
                      (filter (fun r => occurs "duck" (text r)
                                        && String.eqb (namespace r)
                                                      (or_public ""))
                              (tags (store search_fixture))))), w')
      /\ store w' = store search_fixture.
Proof.
  assert (ready search_fixture) as R by (intros e; discriminate).
  split; [exact R|]. split; [discriminate|]. split; [reflexivity|].
  apply (search_literal_is_substring "duck" "" search_fixture).
  - exact R.
  - discriminate.
  - reflexivity.
Defined.

(** ** [associate] and the labels it was not given *)

(** [associate] touches only the labels it was given: on a consistent
    store, whatever the outcome of the call, every label row of another
    namespace, and every row whose text is in neither collection, is
    afterwards exactly as it was - counter and [updated_at] included. *)
Theorem associate_leaves_other_labels
        (unreachable : nat -> bool) (tokens tgs : list string) (ns : string)
        (now now' : Z) (w : world) (r : tag) :
  consistent (store w) ->
  In r (tags (store w)) ->
  namespace r <> or_public ns \/ ~ In (text r) (tokens ++ tgs) ->
  In r (tags (store (snd (associate unreachable tokens tgs ns now now' w)))).
Proof.
  intros C Hr Other.
  destruct (associate_outcomes unreachable tokens tgs ns now now' w) as [E|E];
    [now rewrite E|].
  destruct (effect_middle _ _ _ _ _ _ _ E)
    as [d1 [rows [ET [_ [_ [_ [C1 Ed]]]]]]].
  destruct (C1 C) as [PK _ _].
  rewrite Ed. unfold update_counts. cbn [tags].
  apply in_map_iff. exists r. split; [|rewrite ET; apply in_app_iff; now left].
  destruct (contains Z.eqb (bumped _) (id r)) eqn:B; [|reflexivity].
  exfalso. apply Zcontains_In, bumped_In in B. destruct B as [e [He S]].
  destruct (missing_edges_ends _ _ _ _ _ He) as [H1 H2].
  unfold touches in S. apply orb_true_iff in S.
  assert (In (id r) (pluck_id (select_tags (uniq String.eqb (tokens ++ tgs))
                                           (or_public ns) d1))) as Hi.
  { apply class_fetched with (tags0 := tgs).
    destruct S as [S|S]; apply Z.eqb_eq in S; rewrite <- S; auto. }
  unfold pluck_id in Hi. apply in_map_iff in Hi. destruct Hi as [[j x] [Ej Hi]].
  simpl in Ej. apply select_tags_In in Hi.
  destruct Hi as [r' [Hr' [Er [Tx Nx]]]]. injection Er as Ej' _.
  assert (r' = r) as ->.
  { apply (same_id_same_row (tags d1)); trivial; [|congruence].
    rewrite ET. apply in_app_iff. now left. }
  destruct Other as [N|N]; [now apply N|].
  apply N. exact (proj1 (uniq_In String.eqb String.eqb_eq _ _) Tx).
Qed.

Lemma associate_leaves_other_labels_witness :
  let r := mkTag 3 "yes" "public" 1 10 11 in
  consistent (store john_world)
  /\ In r (tags (store john_world))
  /\ (namespace r <> or_public ""
      \/ ~ In (text r) (["another"] ++ ["john"; "peter"]))
  /\ In r (tags (store (snd (associate online ["another"] ["john"; "peter"] ""
                                       20 21 john_world)))).
Proof.
  intros r.
  assert (consistent (store john_world)) as C
      by (apply reachable_consistent; exact reachable_john).
  assert (In r (tags (store john_world))) as Hr
      by (right; right; now left).
  assert (namespace r <> or_public ""
          \/ ~ In (text r) (["another"] ++ ["john"; "peter"])) as O.
  { right. simpl. intros [H|[H|[H|[]]]]; discriminate. }
  split; [exact C|]. split; [exact Hr|]. split; [exact O|].
  apply (associate_leaves_other_labels online ["another"] ["john"; "peter"] ""
                                       20 21 john_world r C Hr O).
Defined.

(** ** The filter of [index.js] *)

(** The filter of [index.js] compares a candidate with the stored rows
    end by end: it keeps everything the filter with [equalArrays] keeps,
    and it also keeps a candidate that the table holds with its ends
    exchanged - the pair the other filter drops. *)
Theorem index_filter_keeps_reversed_pair
        (associations existingAssocs : list assoc) (c : assoc) :
  In c associations ->
  ~ In c existingAssocs ->
  In (mkAssoc (tag_id2 c) (tag_id1 c)) existingAssocs ->
  In c (missingAssocs_index associations existingAssocs)
  /\ ~ In c (missingAssocs_of associations existingAssocs)
  /\ incl (missingAssocs_of associations existingAssocs)
          (missingAssocs_index associations existingAssocs).
Proof.
  intros Hc Nc Rc.
  assert (forall a, In a (missingAssocs_index associations existingAssocs)
                    <-> In a associations /\ ~ In a existingAssocs) as Plain.
  { intros a. unfold missingAssocs_index.
    rewrite filter_In, negb_true_iff. split; intros [H N]; split; trivial.
    - intros Hin. assert (existsb (assoc_eqb a) existingAssocs = true) as X.
      { apply existsb_exists. exists a. split; [assumption|].
        now apply assoc_eqb_eq. }
      congruence.
    - destruct (existsb (assoc_eqb a) existingAssocs) eqn:X; trivial.
      apply existsb_exists in X. destruct X as [b [Hb Eb]].
      apply assoc_eqb_eq in Eb. subst b. contradiction. }
  split; [apply Plain; auto|]. split.
  - intros H. apply missingAssocs_In in H. destruct H as [_ N].
    specialize (N _ Rc). rewrite (proj2 (same_edge_iff _ _ _)) in N;
      [discriminate | cbn; auto].
  - intros a Ha. apply missingAssocs_In in Ha. destruct Ha as [Ha N].
    apply Plain. split; [assumption|]. intros Hin. specialize (N a Hin).
    rewrite (proj2 (same_edge_iff _ _ _)) in N; [discriminate | auto].
Qed.

Lemma index_filter_keeps_reversed_pair_witness :
  In (mkAssoc 1 2) [mkAssoc 1 2]
  /\ ~ In (mkAssoc 1 2) [mkAssoc 2 1]
  /\ In (mkAssoc (tag_id2 (mkAssoc 1 2)) (tag_id1 (mkAssoc 1 2))) [mkAssoc 2 1]
  /\ In (mkAssoc 1 2) (missingAssocs_index [mkAssoc 1 2] [mkAssoc 2 1])
  /\ ~ In (mkAssoc 1 2) (missingAssocs_of [mkAssoc 1 2] [mkAssoc 2 1])
  /\ incl (missingAssocs_of [mkAssoc 1 2] [mkAssoc 2 1])
          (missingAssocs_index [mkAssoc 1 2] [mkAssoc 2 1]).
Proof.
  assert (In (mkAssoc 1 2) [mkAssoc 1 2]) as H1 by now left.
  assert (~ In (mkAssoc 1 2) [mkAssoc 2 1]) as H2
      by (intros [H|[]]; discriminate).
  assert (In (mkAssoc (tag_id2 (mkAssoc 1 2)) (tag_id1 (mkAssoc 1 2)))
             [mkAssoc 2 1]) as H3 by now left.
  split; [exact H1|]. split; [exact H2|]. split; [exact H3|].
  apply (index_filter_keeps_reversed_pair [mkAssoc 1 2] [mkAssoc 2 1]
                                          (mkAssoc 1 2) H1 H2 H3).
Defined.
